(** * Logistic regression aggregates (modules/regress/logistic.cpp)

    A shallow embedding of the transition / merge / final / result functions
    of the conjugate-gradient (CG), iteratively-reweighted-least-squares
    (IRLS), incremental-gradient (IGD), robust-variance and marginal-effects
    aggregates, and the properties of them that the specification states.

    Numeric model.  A C++ [double] is modelled by a real number: rounding,
    overflow and NaN are outside the model, and every equation between
    [double] fields proved below is an equation of exact arithmetic.  The
    integer fields keep their width: [uint16_t], [uint32_t] and [uint64_t]
    values are integers reduced modulo 2^16, 2^32 and 2^64.

    State model.  Each transition-state class is a record with one field per
    typed view of the packed array; a column vector is the list of its
    entries and a matrix the list of its rows.

    Shapes.  The views of a state are bound for its width.  The properties
    are stated for rows and previous states of the width of the state and,
    where a transition initialises a state, for widths up to
    [layout_width_max]; a quotient is stated where its denominator is not
    zero. *)

From Stdlib Require Import Reals ZArith List Lra Lia Bool.
Import ListNotations.

Local Open Scope R_scope.

(** ** Integers of fixed width *)

Definition uint16 (z : Z) : Z := (z mod 65536)%Z.
Definition uint32 (z : Z) : Z := (z mod 4294967296)%Z.
Definition uint64 (z : Z) : Z := (z mod 18446744073709551616)%Z.

(** [std::numeric_limits<uint16_t>::max()] *)
Definition uint16_max : Z := 65535%Z.

(** [arraySize] and [rebind] compute the number of slots and the offsets of
    the views from the width, a [uint16_t], in [int] arithmetic
    ([inWidthOfX * inWidthOfX] and its multiples).  For widths up to 32767
    no intermediate result leaves the range of [int]; from width 46339 on
    the products overflow, although the guard of the first row lets every
    width up to 65535 through.  The properties of states that [initialize]
    builds are stated for widths up to [layout_width_max]. *)
Definition layout_width_max : Z := 32767%Z.

(** [std::numeric_limits<double>::denorm_min()], the value 2^-1074. *)
Definition denorm_min : R := powerRZ 2 (-1074).

(** ** Status values: [enum { IN_PROCESS, COMPLETED, TERMINATED }] *)

Definition IN_PROCESS : Z := 0%Z.
Definition COMPLETED : Z := 1%Z.
Definition TERMINATED : Z := 2%Z.

(** ** [AnyType]: a returned value, or SQL [Null()] *)

Inductive AnyType (A : Type) : Type :=
| Null : AnyType A
| Value : A -> AnyType A.
Arguments Null {A}.
Arguments Value {A} _.

(** ** Column vectors and matrices *)

Definition ColumnVector : Type := list R.
Definition Matrix : Type := list (list R).

Fixpoint zipWith {A B C : Type} (f : A -> B -> C) (u : list A) (v : list B)
  : list C :=
  match u, v with
  | a :: u', b :: v' => f a b :: zipWith f u' v'
  | _, _ => []
  end.

(** [u + v], [u - v] and [k * u] *)
Definition vadd (u v : ColumnVector) : ColumnVector := zipWith Rplus u v.
Definition vsub (u v : ColumnVector) : ColumnVector := zipWith Rminus u v.
Definition vscale (k : R) (u : ColumnVector) : ColumnVector := map (Rmult k) u.

(** [dot(u, v)] *)
Fixpoint dot (u v : ColumnVector) : R :=
  match u, v with
  | a :: u', b :: v' => a * b + dot u' v'
  | _, _ => 0
  end.

(** [u * trans(v)] *)
Definition outer (u v : ColumnVector) : Matrix :=
  map (fun a => map (fun b => a * b) v) u.

(** [M + N], [M * k] *)
Definition madd (M N : Matrix) : Matrix := zipWith vadd M N.
Definition mscale (M : Matrix) (k : R) : Matrix :=
  map (map (fun e => e * k)) M.

Definition ncols (M : Matrix) : nat := length (hd [] M).
Definition col (j : nat) (M : Matrix) : ColumnVector :=
  map (fun row => nth j row 0) M.

(** [trans(M)] *)
Definition trans (M : Matrix) : Matrix :=
  map (fun j => col j M) (seq 0 (ncols M)).

(** [M * N] *)
Definition mmul (M N : Matrix) : Matrix :=
  map (fun row => map (fun j => dot row (col j N)) (seq 0 (ncols N))) M.

(** [trans(v) * M], a row vector *)
Definition vecmat (v : ColumnVector) (M : Matrix) : ColumnVector :=
  map (fun j => dot v (col j M)) (seq 0 (ncols M)).

(** [M.diagonal()] *)
Definition diagonal (M : Matrix) : ColumnVector :=
  map (fun i => nth i (nth i M []) 0) (seq 0 (length M)).

(** Zero-filled vector and matrix, as the allocator ([dbal::DoZero]) hands
    them out. *)
Definition vzero (w : nat) : ColumnVector := repeat 0 w.
Definition mzero (w : nat) : Matrix := repeat (vzero w) w.

(** [triangularView<Lower>(M) += N]: only the entries on or below the
    diagonal are updated. *)
Fixpoint add_lower_row (i : nat) (r s : list R) : list R :=
  match r, s with
  | a :: r', b :: s' =>
      match i with
      | O => (a + b) :: r'
      | S i' => (a + b) :: add_lower_row i' r' s'
      end
  | _, _ => r
  end.

Fixpoint add_lower_from (i : nat) (M N : Matrix) : Matrix :=
  match M, N with
  | r :: M', s :: N' => add_lower_row i r s :: add_lower_from (S i) M' N'
  | _, _ => M
  end.

Definition add_lower (M N : Matrix) : Matrix := add_lower_from 0 M N.

(** [M(0,0) = v] *)
Definition set00 (M : Matrix) (v : R) : Matrix :=
  match M with
  | (_ :: r) :: rows => (v :: r) :: rows
  | _ => M
  end.

(** Number of [double] slots a matrix view covers. *)
Definition msize (M : Matrix) : Z :=
  fold_right (fun row acc => (Z.of_nat (length row) + acc)%Z) 0%Z M.

Definition vsize (v : ColumnVector) : Z := Z.of_nat (length v).

(** ** The logistic function *)

Definition sigma (x : R) : R := 1 / (1 + exp (- x)).

(** [args[1].getAs<bool>() ? 1. : -1.] *)
Definition label (b : bool) : R := if b then 1 else -1.

(** ** Conjugate-gradient state *)

Module LogRegrCGTransitionState.

Record t : Type := mk {
  iteration : Z;
  widthOfX : Z;
  coef : ColumnVector;
  dir : ColumnVector;
  grad : ColumnVector;
  beta : R;
  numRows : Z;
  gradNew : ColumnVector;
  X_transp_AX : Matrix;
  logLikelihood : R;
  status : Z
}.

(** [mStorage.size()]: the slots covered by the views. *)
Definition size (s : t) : Z :=
  (6 + vsize (coef s) + vsize (dir s) + vsize (grad s) + vsize (gradNew s)
   + msize (X_transp_AX s))%Z.

(** [initialize]: a zero-filled array of [arraySize(inWidthOfX)] slots with
    the views [rebind] gives them.  This is what the code builds for widths
    up to [layout_width_max], where [arraySize] and [rebind] do not
    overflow. *)
Definition initialize (inWidthOfX : Z) : t :=
  let w := Z.to_nat inWidthOfX in
  mk 0%Z inWidthOfX (vzero w) (vzero w) (vzero w) 0 0%Z (vzero w) (mzero w)
     0 0%Z.

(** [operator=]: the array of the other state is copied slot by slot.  This
    is the code's behaviour when both arrays are laid out for the same
    width: the views of [this] then show the fields of [other]. *)
Definition assign (this other : t) : t := other.

(** The assignments of [operator+=]. *)
Definition plus (this other : t) : t :=
  mk (iteration this) (widthOfX this) (coef this) (dir this) (grad this)
     (beta this)
     (uint64 (numRows this + numRows other))
     (vadd (gradNew this) (gradNew other))
     (madd (X_transp_AX this) (X_transp_AX other))
     (logLikelihood this + logLikelihood other)
     (if (status other >? status this)%Z then status other else status this).

(** [operator+=]; [None] is the thrown [std::logic_error]. *)
Definition add_assign (this other : t) : option t :=
  if negb (size this =? size other)%Z || negb (widthOfX this =? widthOfX other)%Z
  then None
  else Some (plus this other).

Definition reset (s : t) : t :=
  mk (iteration s) (widthOfX s) (coef s) (dir s) (grad s) (beta s)
     0%Z
     (map (fun _ => 0) (gradNew s))
     (map (map (fun _ => 0)) (X_transp_AX s))
     0 IN_PROCESS.

Definition set_status (s : t) (v : Z) : t :=
  mk (iteration s) (widthOfX s) (coef s) (dir s) (grad s) (beta s)
     (numRows s) (gradNew s) (X_transp_AX s) (logLikelihood s) v.

(** A state whose views have the shape [rebind] gives them. *)
Definition wf (s : t) : Prop :=
  let w := Z.to_nat (widthOfX s) in
  length (coef s) = w /\ length (dir s) = w /\ length (grad s) = w /\
  length (gradNew s) = w /\ length (X_transp_AX s) = w /\
  Forall (fun row => length row = w) (X_transp_AX s).

End LogRegrCGTransitionState.

Module CG := LogRegrCGTransitionState.

Definition logregr_cg_step_transition
  (state : CG.t) (y_arg : bool) (x : ColumnVector) (previous : option CG.t)
  : CG.t :=
  let y := label y_arg in
  let accumulate (state : CG.t) : CG.t :=
    let xc := dot x (CG.coef state) in
    let a := sigma xc * sigma (- xc) in
    CG.mk (CG.iteration state) (CG.widthOfX state) (CG.coef state)
          (CG.dir state) (CG.grad state) (CG.beta state)
          (uint64 (CG.numRows state + 1))
          (vadd (CG.gradNew state) (vscale (sigma (- y * xc) * y) x))
          (madd (CG.X_transp_AX state) (mscale (outer x x) a))
          (CG.logLikelihood state - ln (1 + exp (- y * xc)))
          (CG.status state) in
  if (CG.numRows state =? 0)%Z then
    if (Z.of_nat (length x) >? uint16_max)%Z then
      CG.set_status state TERMINATED
    else
      let state1 := CG.initialize (uint16 (Z.of_nat (length x))) in
      match previous with
      | Some previousState => accumulate (CG.reset (CG.assign state1 previousState))
      | None => accumulate state1
      end
  else accumulate state.

Definition logregr_cg_step_merge_states (stateLeft stateRight : CG.t)
  : option CG.t :=
  if (CG.numRows stateLeft =? 0)%Z then Some stateRight
  else if (CG.numRows stateRight =? 0)%Z then Some stateLeft
  else CG.add_assign stateLeft stateRight.

Definition logregr_cg_step_final (state : CG.t) : AnyType CG.t :=
  if (CG.numRows state =? 0)%Z then Null
  else
    let state1 :=
      if (CG.iteration state =? 0)%Z then
        CG.mk (CG.iteration state) (CG.widthOfX state) (CG.coef state)
              (CG.gradNew state) (CG.gradNew state) (CG.beta state)
              (CG.numRows state) (CG.gradNew state) (CG.X_transp_AX state)
              (CG.logLikelihood state) (CG.status state)
      else
        let gradNewMinusGrad := vsub (CG.gradNew state) (CG.grad state) in
        let beta_hs :=
          dot (CG.gradNew state) gradNewMinusGrad
          / dot (CG.dir state) gradNewMinusGrad in
        let beta1 :=
          if Rle_dec (dot (CG.gradNew state) gradNewMinusGrad
                      / dot (CG.grad state) (CG.grad state)) denorm_min
          then 0 else beta_hs in
        CG.mk (CG.iteration state) (CG.widthOfX state) (CG.coef state)
              (vsub (CG.gradNew state) (vscale beta1 (CG.dir state)))
              (CG.gradNew state) beta1
              (CG.numRows state) (CG.gradNew state) (CG.X_transp_AX state)
              (CG.logLikelihood state) (CG.status state) in
    let alpha :=
      dot (CG.grad state1) (CG.dir state1)
      / dot (vecmat (CG.dir state1) (CG.X_transp_AX state1)) (CG.dir state1) in
    Value
      (CG.mk (uint32 (CG.iteration state1 + 1)) (CG.widthOfX state1)
             (vadd (CG.coef state1) (vscale alpha (CG.dir state1)))
             (CG.dir state1) (CG.grad state1) (CG.beta state1)
             (CG.numRows state1) (CG.gradNew state1) (CG.X_transp_AX state1)
             (CG.logLikelihood state1) (CG.status state1)).

(** ** Iteratively-reweighted-least-squares state *)

Module LogRegrIRLSTransitionState.

Record t : Type := mk {
  widthOfX : Z;
  coef : ColumnVector;
  numRows : Z;
  X_transp_Az : ColumnVector;
  X_transp_AX : Matrix;
  logLikelihood : R;
  status : Z
}.

Definition size (s : t) : Z :=
  (4 + vsize (coef s) + vsize (X_transp_Az s) + msize (X_transp_AX s))%Z.

(** [initialize] and [operator=], as for the conjugate-gradient state: for
    widths up to [layout_width_max], and for two arrays laid out for the
    same width. *)
Definition initialize (inWidthOfX : Z) : t :=
  let w := Z.to_nat inWidthOfX in
  mk inWidthOfX (vzero w) 0%Z (vzero w) (mzero w) 0 0%Z.

Definition assign (this other : t) : t := other.

Definition plus (this other : t) : t :=
  mk (widthOfX this) (coef this)
     (uint64 (numRows this + numRows other))
     (vadd (X_transp_Az this) (X_transp_Az other))
     (madd (X_transp_AX this) (X_transp_AX other))
     (logLikelihood this + logLikelihood other)
     (if (status other >? status this)%Z then status other else status this).

Definition add_assign (this other : t) : option t :=
  if negb (size this =? size other)%Z || negb (widthOfX this =? widthOfX other)%Z
  then None
  else Some (plus this other).

Definition reset (s : t) : t :=
  mk (widthOfX s) (coef s) 0%Z
     (map (fun _ => 0) (X_transp_Az s))
     (map (map (fun _ => 0)) (X_transp_AX s))
     0 IN_PROCESS.

Definition set_status (s : t) (v : Z) : t :=
  mk (widthOfX s) (coef s) (numRows s) (X_transp_Az s) (X_transp_AX s)
     (logLikelihood s) v.

Definition wf (s : t) : Prop :=
  let w := Z.to_nat (widthOfX s) in
  length (coef s) = w /\
  length (X_transp_Az s) = w /\
  length (X_transp_AX s) = w /\
  Forall (fun row => length row = w) (X_transp_AX s).

End LogRegrIRLSTransitionState.

Module IRLS := LogRegrIRLSTransitionState.

Definition logregr_irls_step_transition
  (state : IRLS.t) (y_arg : bool) (x : ColumnVector)
  (previous : option IRLS.t) : IRLS.t :=
  let y := label y_arg in
  let accumulate (state : IRLS.t) : IRLS.t :=
    let xc := dot x (IRLS.coef state) in
    let a := sigma xc * sigma (- xc) in
    let az := xc * a + sigma (- y * xc) * y in
    IRLS.mk (IRLS.widthOfX state) (IRLS.coef state)
            (uint64 (IRLS.numRows state + 1))
            (vadd (IRLS.X_transp_Az state) (map (fun e => e * az) x))
            (madd (IRLS.X_transp_AX state) (mscale (outer x x) a))
            (IRLS.logLikelihood state - ln (1 + exp (- y * xc)))
            (IRLS.status state) in
  if (IRLS.numRows state =? 0)%Z then
    if (Z.of_nat (length x) >? uint16_max)%Z then
      IRLS.set_status state TERMINATED
    else
      let state1 := IRLS.initialize (uint16 (Z.of_nat (length x))) in
      match previous with
      | Some previousState =>
          accumulate (IRLS.reset (IRLS.assign state1 previousState))
      | None => accumulate state1
      end
  else accumulate state.

Definition logregr_irls_step_merge_states (stateLeft stateRight : IRLS.t)
  : option IRLS.t :=
  if (IRLS.numRows stateLeft =? 0)%Z then Some stateRight
  else if (IRLS.numRows stateRight =? 0)%Z then Some stateLeft
  else IRLS.add_assign stateLeft stateRight.

(** ** Incremental-gradient state *)

Module LogRegrIGDTransitionState.

Record t : Type := mk {
  widthOfX : Z;
  stepsize : R;
  coef : ColumnVector;
  numRows : Z;
  X_transp_AX : Matrix;
  logLikelihood : R;
  status : Z
}.

Definition size (s : t) : Z :=
  (5 + vsize (coef s) + msize (X_transp_AX s))%Z.

(** [initialize] and [operator=], as for the conjugate-gradient state: for
    widths up to [layout_width_max], and for two arrays laid out for the
    same width. *)
Definition initialize (inWidthOfX : Z) : t :=
  let w := Z.to_nat inWidthOfX in
  mk inWidthOfX 0 (vzero w) 0%Z (mzero w) 0 0%Z.

Definition assign (this other : t) : t := other.

Definition plus (this other : t) : t :=
  let totalNumRows := IZR (numRows this) + IZR (numRows other) in
  mk (widthOfX this) (stepsize this)
     (vadd (vscale (IZR (numRows this) / totalNumRows) (coef this))
           (vscale (IZR (numRows other) / totalNumRows) (coef other)))
     (uint64 (numRows this + numRows other))
     (madd (X_transp_AX this) (X_transp_AX other))
     (logLikelihood this + logLikelihood other)
     (if (status other =? TERMINATED)%Z then status other else status this).

Definition add_assign (this other : t) : option t :=
  if negb (size this =? size other)%Z || negb (widthOfX this =? widthOfX other)%Z
  then None
  else Some (plus this other).

Definition reset (s : t) : t :=
  mk (widthOfX s) (1 / 100) (coef s) 0%Z
     (map (map (fun _ => 0)) (X_transp_AX s))
     0 IN_PROCESS.

Definition set_status (s : t) (v : Z) : t :=
  mk (widthOfX s) (stepsize s) (coef s) (numRows s) (X_transp_AX s)
     (logLikelihood s) v.

Definition set_coef (s : t) (c : ColumnVector) : t :=
  mk (widthOfX s) (stepsize s) c (numRows s) (X_transp_AX s)
     (logLikelihood s) (status s).

Definition wf (s : t) : Prop :=
  let w := Z.to_nat (widthOfX s) in
  length (coef s) = w /\ length (X_transp_AX s) = w /\
  Forall (fun row => length row = w) (X_transp_AX s).

End LogRegrIGDTransitionState.

Module IGD := LogRegrIGDTransitionState.

Definition logregr_igd_step_transition
  (state : IGD.t) (y_arg : bool) (x : ColumnVector)
  (previous : option IGD.t) : IGD.t :=
  let y := label y_arg in
  let update (state : IGD.t) : IGD.t :=
    let xc := dot x (IGD.coef state) in
    let scale := IGD.stepsize state * sigma (- xc * y) * y in
    IGD.mk (IGD.widthOfX state) (IGD.stepsize state)
           (vadd (IGD.coef state) (vscale scale x))
           (uint64 (IGD.numRows state + 1))
           (IGD.X_transp_AX state) (IGD.logLikelihood state)
           (IGD.status state) in
  if (IGD.numRows state =? 0)%Z then
    if (Z.of_nat (length x) >? uint16_max)%Z then
      IGD.set_status state TERMINATED
    else
      let state1 := IGD.initialize (uint16 (Z.of_nat (length x))) in
      match previous with
      | Some previousState =>
          update (IGD.reset (IGD.assign state1 previousState))
      | None =>
          let state2 := IGD.reset state1 in
          update (IGD.set_coef state2 (map (fun _ => 1 / 10) (IGD.coef state2)))
      end
  else update state.

Definition logregr_igd_step_merge_states (stateLeft stateRight : IGD.t)
  : option IGD.t :=
  if (IGD.numRows stateLeft =? 0)%Z then Some stateRight
  else if (IGD.numRows stateRight =? 0)%Z then Some stateLeft
  else IGD.add_assign stateLeft stateRight.

Definition logregr_igd_step_final (state : IGD.t) : AnyType IGD.t :=
  if (IGD.numRows state =? 0)%Z then Null else Value state.

(** ** Robust-variance state *)

Module RobustLogRegrTransitionState.

Record t : Type := mk {
  iteration : Z;
  widthOfX : Z;
  coef : ColumnVector;
  numRows : Z;
  X_transp_AX : Matrix;
  meat : Matrix
}.

Definition size (s : t) : Z :=
  (4 + vsize (coef s) + msize (X_transp_AX s) + msize (meat s))%Z.

Definition plus (this other : t) : t :=
  mk (iteration this) (widthOfX this) (coef this)
     (uint64 (numRows this + numRows other))
     (madd (X_transp_AX this) (X_transp_AX other))
     (madd (meat this) (meat other)).

Definition add_assign (this other : t) : option t :=
  if negb (size this =? size other)%Z || negb (widthOfX this =? widthOfX other)%Z
  then None
  else Some (plus this other).

Definition wf (s : t) : Prop :=
  let w := Z.to_nat (widthOfX s) in
  length (coef s) = w /\
  length (X_transp_AX s) = w /\
  Forall (fun row => length row = w) (X_transp_AX s) /\
  length (meat s) = w /\
  Forall (fun row => length row = w) (meat s).

End RobustLogRegrTransitionState.

Module Robust := RobustLogRegrTransitionState.

(** The transition on a row and a coefficient vector of the width of the
    state; [robust_logregr_step_transition_run] below adds the other
    shapes. *)
Definition robust_logregr_step_transition
  (state : Robust.t) (y_arg : bool) (x coef : ColumnVector) : Robust.t :=
  let y := label y_arg in
  let xc := dot x coef in
  let Grad := vscale (sigma (- y * xc) * y) x in
  let GradGradTranspose := outer Grad Grad in
  let a := sigma xc * sigma (- xc) in
  Robust.mk (Robust.iteration state) (Robust.widthOfX state)
            (Robust.coef state)
            (uint64 (Robust.numRows state + 1))
            (add_lower (Robust.X_transp_AX state) (mscale (outer x x) a))
            (madd (Robust.meat state) GradGradTranspose).

Definition robust_logregr_step_merge_states (stateLeft stateRight : Robust.t)
  : option Robust.t :=
  if (Robust.numRows stateLeft =? 0)%Z then Some stateRight
  else if (Robust.numRows stateRight =? 0)%Z then Some stateLeft
  else Robust.add_assign stateLeft stateRight.

(** ** Marginal-effects state *)

Module MarginalLogRegrTransitionState.

Record t : Type := mk {
  iteration : Z;
  widthOfX : Z;
  coef : ColumnVector;
  numRows : Z;
  marginal_effects_per_observation : R;
  X_bar : ColumnVector;
  X_transp_AX : Matrix
}.

Definition size (s : t) : Z :=
  (4 + vsize (coef s) + vsize (X_bar s) + msize (X_transp_AX s))%Z.

Definition plus (this other : t) : t :=
  mk (iteration this) (widthOfX this) (coef this)
     (uint64 (numRows this + numRows other))
     (marginal_effects_per_observation this
      + marginal_effects_per_observation other)
     (vadd (X_bar this) (X_bar other))
     (madd (X_transp_AX this) (X_transp_AX other)).

Definition add_assign (this other : t) : option t :=
  if negb (size this =? size other)%Z || negb (widthOfX this =? widthOfX other)%Z
  then None
  else Some (plus this other).

Definition wf (s : t) : Prop :=
  let w := Z.to_nat (widthOfX s) in
  length (coef s) = w /\
  length (X_bar s) = w /\
  length (X_transp_AX s) = w /\
  Forall (fun row => length row = w) (X_transp_AX s).

End MarginalLogRegrTransitionState.

Module Marginal := MarginalLogRegrTransitionState.

(** The transition on a row and a coefficient vector of the width of the
    state; [marginal_logregr_step_transition_run] below adds the other
    shapes. *)
Definition marginal_logregr_step_transition
  (state : Marginal.t) (x coef : ColumnVector) : Marginal.t :=
  let xc := dot x coef in
  let G_xc := exp xc / (1 + exp xc) in
  let a := sigma xc * sigma (- xc) in
  Marginal.mk (Marginal.iteration state) (Marginal.widthOfX state)
              (Marginal.coef state)
              (uint64 (Marginal.numRows state + 1))
              (Marginal.marginal_effects_per_observation state
               + G_xc * (1 - G_xc))
              (vadd (Marginal.X_bar state) x)
              (madd (Marginal.X_transp_AX state) (mscale (outer x x) a)).

Definition marginal_logregr_step_merge_states
  (stateLeft stateRight : Marginal.t) : option Marginal.t :=
  if (Marginal.numRows stateLeft =? 0)%Z then Some stateRight
  else if (Marginal.numRows stateRight =? 0)%Z then Some stateLeft
  else Marginal.add_assign stateLeft stateRight.

(** The robust-variance and marginal-effects transitions initialise nothing
    (their first-row block is compiled out): they work on the views of the
    state as they are, bound for [widthOfX], a [uint16_t].  Eigen's [dot]
    and [+=] are defined for operands of one shape, and [x * trans(x)] and
    [Grad * Grad.transpose()] are square matrices of the size of the row.
    [run] is the transition where the shapes agree and no result where they
    do not: there the call works on operands of different shapes and
    returns no state. *)
Definition robust_shapes_agree (state : Robust.t) (x coef : ColumnVector)
  : bool :=
  (Z.of_nat (length x) =? Robust.widthOfX state)%Z
  && (length coef =? length x)%nat.

Definition robust_logregr_step_transition_run
  (state : Robust.t) (y_arg : bool) (x coef : ColumnVector)
  : option Robust.t :=
  if robust_shapes_agree state x coef
  then Some (robust_logregr_step_transition state y_arg x coef)
  else None.

Definition marginal_shapes_agree (state : Marginal.t) (x coef : ColumnVector)
  : bool :=
  (Z.of_nat (length x) =? Marginal.widthOfX state)%Z
  && (length coef =? length x)%nat.

Definition marginal_logregr_step_transition_run
  (state : Marginal.t) (x coef : ColumnVector) : option Marginal.t :=
  if marginal_shapes_agree state x coef
  then Some (marginal_logregr_step_transition state x coef)
  else None.

(** ** Final and result functions

    The eigen-decomposition ([SymmetricPositiveDefiniteEigenDecomposition],
    giving [pseudoInverse()] and [conditionNo()]) and the distribution
    functions of [prob::] are library code; the functions below take them as
    parameters. *)

(** [k * M] *)
Definition smul (k : R) (M : Matrix) : Matrix := map (vscale k) M.

(** [M / k] *)
Definition mdiv (M : Matrix) (k : R) : Matrix := map (map (fun e => e / k)) M.

Fixpoint incr_nth (i : nat) (row : list R) : list R :=
  match row with
  | [] => []
  | a :: row' =>
      match i with
      | O => (a + 1) :: row'
      | S i' => a :: incr_nth i' row'
      end
  end.

(** [for (i = 0; i < w; i++) M(i,i) += 1;] *)
Fixpoint add_identity_from (i w : nat) (M : Matrix) : Matrix :=
  match M with
  | [] => []
  | row :: M' =>
      (if (i <? w)%nat then incr_nth i row else row)
        :: add_identity_from (S i) w M'
  end.

Record LogRegrResult : Type := mkLogRegrResult {
  res_coef : ColumnVector;
  res_logLikelihood : R;
  res_stdErr : ColumnVector;
  res_waldZStats : ColumnVector;
  res_waldPValues : ColumnVector;
  res_oddsRatios : ColumnVector;
  res_conditionNo : R;
  res_status : Z
}.

Record RobustResult : Type := mkRobustResult {
  rob_coef : ColumnVector;
  rob_stdErr : ColumnVector;
  rob_waldZStats : ColumnVector;
  rob_waldPValues : ColumnVector
}.

Record MarginalResult : Type := mkMarginalResult {
  mar_marginal_effects : ColumnVector;
  mar_coef : ColumnVector;
  mar_stdErr : ColumnVector;
  mar_tStats : ColumnVector;
  mar_pValues : AnyType ColumnVector
}.

Section Diagnostics.

(** [decomposition.pseudoInverse()] and [decomposition.conditionNo()] of the
    matrix the decomposition was built from. *)
Variable pseudoInverse : Matrix -> Matrix.
Variable conditionNo : Matrix -> R.

(** [prob::cdf(prob::normal(), z)] *)
Variable normal_cdf : R -> R.

(** [prob::cdf(boost::math::complement(prob::students_t(df), t))] *)
Variable students_t_cdf_complement : R -> R -> R.

Definition stateToResult
  (inCoef diagonal_of_inverse_of_X_transp_AX : ColumnVector)
  (logLikelihood conditionNo_ : R) (status : Z) : LogRegrResult :=
  let idx := seq 0 (length inCoef) in
  let stdErr :=
    map (fun i => sqrt (nth i diagonal_of_inverse_of_X_transp_AX 0)) idx in
  let waldZStats :=
    map (fun i => nth i inCoef 0 / nth i stdErr 0) idx in
  let waldPValues :=
    map (fun i => 2 * normal_cdf (- Rabs (nth i waldZStats 0))) idx in
  let oddsRatios := map (fun i => exp (nth i inCoef 0)) idx in
  mkLogRegrResult inCoef logLikelihood stdErr waldZStats waldPValues
                  oddsRatios conditionNo_ status.

Definition internal_logregr_cg_result (state : CG.t) : AnyType LogRegrResult :=
  Value (stateToResult (CG.coef state)
           (diagonal (pseudoInverse (CG.X_transp_AX state)))
           (CG.logLikelihood state)
           (conditionNo (CG.X_transp_AX state))
           (CG.status state)).

Definition logregr_irls_step_final (state : IRLS.t) : AnyType IRLS.t :=
  if (IRLS.numRows state =? 0)%Z then Null
  else
    let inverse_of_X_transp_AX := pseudoInverse (IRLS.X_transp_AX state) in
    let coef1 :=
      map (fun row => dot row (IRLS.X_transp_Az state))
          inverse_of_X_transp_AX in
    Value
      (IRLS.mk (IRLS.widthOfX state) coef1 (IRLS.numRows state)
               (diagonal inverse_of_X_transp_AX)
               (set00 (IRLS.X_transp_AX state)
                      (conditionNo (IRLS.X_transp_AX state)))
               (IRLS.logLikelihood state) (IRLS.status state)).

Definition internal_logregr_irls_result (state : IRLS.t)
  : AnyType LogRegrResult :=
  Value (stateToResult (IRLS.coef state) (IRLS.X_transp_Az state)
           (IRLS.logLikelihood state)
           (nth 0 (nth 0 (IRLS.X_transp_AX state) []) 0)
           (IRLS.status state)).

Definition internal_logregr_igd_result (state : IGD.t)
  : AnyType LogRegrResult :=
  Value (stateToResult (IGD.coef state)
           (diagonal (pseudoInverse (IGD.X_transp_AX state)))
           (IGD.logLikelihood state)
           (conditionNo (IGD.X_transp_AX state))
           (IGD.status state)).

Definition robuststateToResult (inCoef diagonal_of_varianceMat : ColumnVector)
  : RobustResult :=
  let idx := seq 0 (length inCoef) in
  let coef := map (fun i => nth i inCoef 0) idx in
  let stdErr := map (fun i => sqrt (nth i diagonal_of_varianceMat 0)) idx in
  let waldZStats := map (fun i => nth i inCoef 0 / nth i stdErr 0) idx in
  let waldPValues :=
    map (fun i => 2 * normal_cdf (- Rabs (nth i waldZStats 0))) idx in
  mkRobustResult coef stdErr waldZStats waldPValues.

Definition robust_logregr_step_final (state : Robust.t)
  : AnyType RobustResult :=
  if (Robust.numRows state =? 0)%Z then Null
  else
    let bread := pseudoInverse (Robust.X_transp_AX state) in
    let varianceMat := mmul (mmul bread (Robust.meat state)) bread in
    Value (robuststateToResult (Robust.coef state) (diagonal varianceMat)).

Definition marginalstateToResult
  (inCoef diagonal_of_variance_matrix : ColumnVector)
  (inmarginal_effects_per_observation numRows : R) : MarginalResult :=
  let idx := seq 0 (length inCoef) in
  let coef := map (fun i => nth i inCoef 0) idx in
  let marginal_effects :=
    map (fun i => nth i inCoef 0 * inmarginal_effects_per_observation
                  / numRows) idx in
  let stdErr :=
    map (fun i => sqrt (nth i diagonal_of_variance_matrix 0)) idx in
  let tStats :=
    map (fun i => nth i marginal_effects 0 / nth i stdErr 0) idx in
  let pValues :=
    map (fun i =>
           2 * students_t_cdf_complement
                 (numRows - INR (length inCoef))
                 (Rabs (nth i tStats 0))) idx in
  mkMarginalResult marginal_effects coef stdErr tStats
    (if Rlt_dec (INR (length inCoef)) numRows then Value pValues else Null).

Definition marginal_logregr_step_final (state : Marginal.t)
  : AnyType MarginalResult :=
  if (Marginal.numRows state =? 0)%Z then Null
  else
    let variance := pseudoInverse (Marginal.X_transp_AX state) in
    let numRows := IZR (Marginal.numRows state) in
    let xc := dot (Marginal.coef state) (Marginal.X_bar state) / numRows in
    let p := exp xc / (1 + exp xc) in
    let delta0 :=
      mdiv (outer (vscale (1 - 2 * p) (Marginal.coef state))
                  (Marginal.X_bar state))
           numRows in
    let delta :=
      add_identity_from 0 (Z.to_nat (Marginal.widthOfX state)) delta0 in
    let std_err :=
      mscale
        (mscale (mmul (mmul (smul (p * (1 - p)) delta) variance) (trans delta))
                p)
        (1 - p) in
    Value (marginalstateToResult (Marginal.coef state) (diagonal std_err)
             (Marginal.marginal_effects_per_observation state) numRows).

End Diagnostics.

(** ** Notions the properties are stated with *)

(** The state a row is folded into by a transition that accepts it: the
    state itself, or, on the first row, the freshly initialised state, seeded
    from the previous iteration when there is one. *)
Definition cg_row_state
  (state : CG.t) (x : ColumnVector) (previous : option CG.t) : CG.t :=
  if (CG.numRows state =? 0)%Z then
    let state1 := CG.initialize (uint16 (Z.of_nat (length x))) in
    match previous with
    | Some previousState => CG.reset (CG.assign state1 previousState)
    | None => state1
    end
  else state.

Definition irls_row_state
  (state : IRLS.t) (x : ColumnVector) (previous : option IRLS.t) : IRLS.t :=
  if (IRLS.numRows state =? 0)%Z then
    let state1 := IRLS.initialize (uint16 (Z.of_nat (length x))) in
    match previous with
    | Some previousState => IRLS.reset (IRLS.assign state1 previousState)
    | None => state1
    end
  else state.

Definition igd_row_state
  (state : IGD.t) (x : ColumnVector) (previous : option IGD.t) : IGD.t :=
  if (IGD.numRows state =? 0)%Z then
    let state1 := IGD.initialize (uint16 (Z.of_nat (length x))) in
    match previous with
    | Some previousState => IGD.reset (IGD.assign state1 previousState)
    | None =>
        let state2 := IGD.reset state1 in
        IGD.set_coef state2 (map (fun _ => 1 / 10) (IGD.coef state2))
    end
  else state.

(** The row is folded into a state that has rows already, or it is a first
    row of a width the guard lets through and the layout is computed for. *)
Definition row_accepted (numRows : Z) (x : ColumnVector) : Prop :=
  numRows <> 0%Z \/ (Z.of_nat (length x) <= layout_width_max)%Z.

(** Merging the results of two merges; a thrown [std::logic_error]
    propagates. *)
Definition then_merge {S : Type} (merge : S -> S -> option S)
  (l r : option S) : option S :=
  match l, r with
  | Some a, Some b => merge a b
  | _, _ => None
  end.

Definition two_pow_64 : Z := 18446744073709551616%Z.

(** Partial states of width [w] as the aggregate hands them to the merge
    function: shaped as [rebind] shapes them, with a [uint64_t] row count. *)
Definition cg_partial (w : Z) (s : CG.t) : Prop :=
  CG.wf s /\ CG.widthOfX s = w /\ (0 <= CG.numRows s < two_pow_64)%Z.
Definition irls_partial (w : Z) (s : IRLS.t) : Prop :=
  IRLS.wf s /\ IRLS.widthOfX s = w /\ (0 <= IRLS.numRows s < two_pow_64)%Z.
Definition igd_partial (w : Z) (s : IGD.t) : Prop :=
  IGD.wf s /\ IGD.widthOfX s = w /\ (0 <= IGD.numRows s < two_pow_64)%Z.
Definition robust_partial (w : Z) (s : Robust.t) : Prop :=
  Robust.wf s /\ Robust.widthOfX s = w /\
  (0 <= Robust.numRows s < two_pow_64)%Z.
Definition marginal_partial (w : Z) (s : Marginal.t) : Prop :=
  Marginal.wf s /\ Marginal.widthOfX s = w /\
  (0 <= Marginal.numRows s < two_pow_64)%Z.

(** An IGD partial state of width [w] that has seen at least one row. *)
Definition igd_nonempty_partial (w : Z) (s : IGD.t) : Prop :=
  IGD.wf s /\ IGD.widthOfX s = w /\ (0 < IGD.numRows s)%Z.

(** Equality on the fields a merge accumulates. *)
Definition cg_accum_eq (a b : CG.t) : Prop :=
  CG.numRows a = CG.numRows b /\ CG.gradNew a = CG.gradNew b /\
  CG.X_transp_AX a = CG.X_transp_AX b /\
  CG.logLikelihood a = CG.logLikelihood b /\ CG.status a = CG.status b.
Definition irls_accum_eq (a b : IRLS.t) : Prop :=
  IRLS.numRows a = IRLS.numRows b /\
  IRLS.X_transp_Az a = IRLS.X_transp_Az b /\
  IRLS.X_transp_AX a = IRLS.X_transp_AX b /\
  IRLS.logLikelihood a = IRLS.logLikelihood b /\
  IRLS.status a = IRLS.status b.
Definition igd_accum_eq (a b : IGD.t) : Prop :=
  IGD.numRows a = IGD.numRows b /\ IGD.coef a = IGD.coef b /\
  IGD.X_transp_AX a = IGD.X_transp_AX b /\
  IGD.logLikelihood a = IGD.logLikelihood b.
Definition robust_accum_eq (a b : Robust.t) : Prop :=
  Robust.numRows a = Robust.numRows b /\
  Robust.X_transp_AX a = Robust.X_transp_AX b /\
  Robust.meat a = Robust.meat b.
Definition marginal_accum_eq (a b : Marginal.t) : Prop :=
  Marginal.numRows a = Marginal.numRows b /\
  Marginal.marginal_effects_per_observation a
  = Marginal.marginal_effects_per_observation b /\
  Marginal.X_bar a = Marginal.X_bar b /\
  Marginal.X_transp_AX a = Marginal.X_transp_AX b.

(** Order independence of a merge function [merge] on the states [ok],
    up to the relation [E]: two states, one of which has rows, merge to
    [E]-equal states in either order; three states, one of which has rows,
    merge to [E]-equal states in the groupings and orders
    [(A B) C], [A (B C)] and [(A C) B]. *)
Definition merge_order_independent {S : Type} (n : S -> Z)
  (merge : S -> S -> option S) (ok : S -> Prop) (E : S -> S -> Prop) : Prop :=
  (forall A B : S,
     ok A -> ok B -> (n A + n B < two_pow_64)%Z ->
     n A <> 0%Z \/ n B <> 0%Z ->
     exists r1 r2,
       merge A B = Some r1 /\ merge B A = Some r2 /\ E r1 r2) /\
  (forall A B C : S,
     ok A -> ok B -> ok C -> (n A + n B + n C < two_pow_64)%Z ->
     n A <> 0%Z \/ n B <> 0%Z \/ n C <> 0%Z ->
     exists r1 r2 r3,
       then_merge merge (merge A B) (Some C) = Some r1 /\
       then_merge merge (Some A) (merge B C) = Some r2 /\
       then_merge merge (merge A C) (Some B) = Some r3 /\
       E r1 r2 /\ E r1 r3).

(** The host merges the partial states of an iteration in any grouping and
    order: a merge tree with the partial states at its leaves. *)
Inductive merge_tree : Type :=
| Leaf : IGD.t -> merge_tree
| Node : merge_tree -> merge_tree -> merge_tree.

Fixpoint leaves (t : merge_tree) : list IGD.t :=
  match t with
  | Leaf s => [s]
  | Node l r => leaves l ++ leaves r
  end.

Fixpoint igd_merge_tree (t : merge_tree) : option IGD.t :=
  match t with
  | Leaf s => Some s
  | Node l r =>
      match igd_merge_tree l, igd_merge_tree r with
      | Some a, Some b => logregr_igd_step_merge_states a b
      | _, _ => None
      end
  end.

(** Total row count, and the row-count-weighted average of the coefficient
    vectors, of a list of partial states of width [w]. *)
Definition total_rows (ss : list IGD.t) : Z :=
  fold_right (fun s acc => (IGD.numRows s + acc)%Z) 0%Z ss.

Definition weighted_sum (w : nat) (ss : list IGD.t) : ColumnVector :=
  fold_right (fun s acc => vadd (vscale (IZR (IGD.numRows s)) (IGD.coef s)) acc)
             (vzero w) ss.

Definition weighted_average (w : nat) (ss : list IGD.t) : ColumnVector :=
  map (fun e => e / IZR (total_rows ss)) (weighted_sum w ss).

(** ** Example inputs *)

(** The state an aggregate starts from: a zero-filled array, width 0. *)
Definition cg_initial : CG.t := CG.initialize 0.
Definition igd_initial : IGD.t := IGD.initialize 0.
Definition robust_initial : Robust.t := Robust.mk 0 0 [] 0 [] [].
Definition marginal_initial : Marginal.t := Marginal.mk 0 0 [] 0 0 [] [].

(** One CG transition of the first iteration on the row [x = [1, 2]],
    [y = true]. *)
Definition cg_one_row : CG.t :=
  logregr_cg_step_transition cg_initial true [1; 2] None.

(** A row of 65536 features, one more than [uint16_t] can count. *)
Definition wide_row : ColumnVector := repeat 0 (Z.to_nat 65536).

(** The state the CG transition returns for [wide_row]: no rows, status
    TERMINATED. *)
Definition cg_rejected : CG.t := CG.set_status cg_initial TERMINATED.

(** An IGD state in the middle of an iteration: one row seen, width 1. *)
Definition igd_running : IGD.t :=
  IGD.mk 1 (1 / 100) [0] 1 [[0]] 0 IN_PROCESS.

(** Three IGD partial states of width 2: 1 row with coefficients [1, 0],
    3 rows with coefficients [0, 1], and 3 rows with status COMPLETED. *)
Definition igd_part1 : IGD.t :=
  IGD.mk 2 (1 / 100) [1; 0] 1 [[0; 0]; [0; 0]] 0 IN_PROCESS.
Definition igd_part2 : IGD.t :=
  IGD.mk 2 (1 / 100) [0; 1] 3 [[0; 0]; [0; 0]] 0 IN_PROCESS.
Definition igd_completed : IGD.t :=
  IGD.mk 2 (1 / 100) [0; 1] 3 [[0; 0]; [0; 0]] 0 COMPLETED.


(** The pseudo-inverse of a 1 x 1 matrix: the inverse of its entry. *)
Definition pinv_entrywise (M : Matrix) : Matrix := map (map Rinv) M.


(** ** Further functions of logistic.cpp *)

(** The difference in log-likelihood between two states. *)
Definition internal_logregr_cg_step_distance (stateLeft stateRight : CG.t)
  : R :=
  Rabs (CG.logLikelihood stateLeft - CG.logLikelihood stateRight).

Definition internal_logregr_irls_step_distance
  (stateLeft stateRight : IRLS.t) : R :=
  Rabs (IRLS.logLikelihood stateLeft - IRLS.logLikelihood stateRight).

Definition internal_logregr_igd_step_distance (stateLeft stateRight : IGD.t)
  : R :=
  Rabs (IGD.logLikelihood stateLeft - IGD.logLikelihood stateRight).


(** ** The aggregates

    The host calls the transition function once per row of a partition, each
    time with the state the previous call returned and with the final state
    of the previous iteration (none in the first iteration). *)
Definition cg_aggregate (previous : option CG.t)
  (rows : list (bool * ColumnVector)) (state : CG.t) : CG.t :=
  fold_left
    (fun s row => logregr_cg_step_transition s (fst row) (snd row) previous)
    rows state.

Definition irls_aggregate (previous : option IRLS.t)
  (rows : list (bool * ColumnVector)) (state : IRLS.t) : IRLS.t :=
  fold_left
    (fun s row => logregr_irls_step_transition s (fst row) (snd row) previous)
    rows state.

Definition igd_aggregate (previous : option IGD.t)
  (rows : list (bool * ColumnVector)) (state : IGD.t) : IGD.t :=
  fold_left
    (fun s row => logregr_igd_step_transition s (fst row) (snd row) previous)
    rows state.

(** The rows of a partition all have [w] features. *)
Definition rows_of_width (w : Z) (rows : list (bool * ColumnVector)) : Prop :=
  Forall (fun row => Z.of_nat (length (snd row)) = w) rows.

(** The previous state, when there is one, is shaped for width [w]. *)
Definition cg_previous_ok (w : Z) (previous : option CG.t) : Prop :=
  match previous with
  | Some p => CG.wf p /\ CG.widthOfX p = w
  | None => True
  end.

Definition irls_previous_ok (w : Z) (previous : option IRLS.t) : Prop :=
  match previous with
  | Some p => IRLS.wf p /\ IRLS.widthOfX p = w
  | None => True
  end.

Definition igd_previous_ok (w : Z) (previous : option IGD.t) : Prop :=
  match previous with
  | Some p => IGD.wf p /\ IGD.widthOfX p = w
  | None => True
  end.

(** A row of [w] features fits the state a transition is given: the state
    has no rows, so that the row is a first row, and the previous state, when
    there is one, is shaped for width [w]; or the state has rows and is
    itself shaped for width [w]. *)
Definition cg_row_fits (w : Z) (state : CG.t) (previous : option CG.t)
  : Prop :=
  if (CG.numRows state =? 0)%Z then cg_previous_ok w previous
  else CG.wf state /\ CG.widthOfX state = w.

Definition irls_row_fits (w : Z) (state : IRLS.t) (previous : option IRLS.t)
  : Prop :=
  if (IRLS.numRows state =? 0)%Z then irls_previous_ok w previous
  else IRLS.wf state /\ IRLS.widthOfX state = w.

Definition igd_row_fits (w : Z) (state : IGD.t) (previous : option IGD.t)
  : Prop :=
  if (IGD.numRows state =? 0)%Z then igd_previous_ok w previous
  else IGD.wf state /\ IGD.widthOfX state = w.

(** Three rows of two features. *)
Definition three_rows : list (bool * ColumnVector) :=
  [(true, [1; 2]); (false, [0; 1]); (true, [3; 1])].


(** Two CG states of width 2 that differ in every intra-iteration field but
    agree on the inter-iteration fields. *)
Definition cg_previous_a : CG.t :=
  CG.mk 1 2 [1; 2] [3; 4] [5; 6] 7 10 [1; 1] [[1; 2]; [2; 5]] (- 3) IN_PROCESS.
Definition cg_previous_b : CG.t :=
  CG.mk 1 2 [1; 2] [3; 4] [5; 6] 7 99 [0; 9] [[4; 0]; [0; 4]] (- 8) COMPLETED.

(** A CG state of width 1 with one row. *)
Definition cg_width_one : CG.t :=
  CG.mk 0 1 [0] [0] [0] 0 1 [1 / 2] [[1 / 4]] (- ln 2) IN_PROCESS.


(** ** The array layouts

    [arraySize] gives the number of [double] slots [initialize] allocates and
    [rebind] binds every field to a range of slots: a pair (first slot,
    number of slots) per field, in the order of the assignments of [rebind].
    The width is a [uint16_t] and the arithmetic is [int] arithmetic; for
    widths up to 32767 no intermediate result leaves the range of [int] and
    the expressions below have the values the C++ expressions have. *)

Module CGLayout.

Definition arraySize (inWidthOfX : Z) : Z :=
  (6 + inWidthOfX * inWidthOfX + 4 * inWidthOfX)%Z.

Definition rebind (inWidthOfX : Z) : list (Z * Z) :=
  [ (0, 1);
    (1, 1);
    (2, inWidthOfX);
    (2 + inWidthOfX, inWidthOfX);
    (2 + 2 * inWidthOfX, inWidthOfX);
    (2 + 3 * inWidthOfX, 1);
    (3 + 3 * inWidthOfX, 1);
    (4 + 3 * inWidthOfX, inWidthOfX);
    (4 + 4 * inWidthOfX, inWidthOfX * inWidthOfX);
    (4 + inWidthOfX * inWidthOfX + 4 * inWidthOfX, 1);
    (5 + inWidthOfX * inWidthOfX + 4 * inWidthOfX, 1) ]%Z.

End CGLayout.

Module IRLSLayout.

Definition arraySize (inWidthOfX : Z) : Z :=
  uint32 (4 + inWidthOfX * inWidthOfX + 2 * inWidthOfX).

Definition rebind (inWidthOfX : Z) : list (Z * Z) :=
  [ (0, 1);
    (1, inWidthOfX);
    (1 + inWidthOfX, 1);
    (2 + inWidthOfX, inWidthOfX);
    (2 + 2 * inWidthOfX, inWidthOfX * inWidthOfX);
    (2 + inWidthOfX * inWidthOfX + 2 * inWidthOfX, 1);
    (3 + inWidthOfX * inWidthOfX + 2 * inWidthOfX, 1) ]%Z.

End IRLSLayout.

Module IGDLayout.

Definition arraySize (inWidthOfX : Z) : Z :=
  uint32 (5 + inWidthOfX * inWidthOfX + inWidthOfX).

Definition rebind (inWidthOfX : Z) : list (Z * Z) :=
  [ (0, 1);
    (1, 1);
    (2, inWidthOfX);
    (2 + inWidthOfX, 1);
    (3 + inWidthOfX, inWidthOfX * inWidthOfX);
    (3 + inWidthOfX * inWidthOfX + inWidthOfX, 1);
    (4 + inWidthOfX * inWidthOfX + inWidthOfX, 1) ]%Z.

End IGDLayout.

Module RobustLayout.

Definition arraySize (inWidthOfX : Z) : Z :=
  (4 + 2 * inWidthOfX * inWidthOfX + inWidthOfX)%Z.

Definition rebind (inWidthOfX : Z) : list (Z * Z) :=
  [ (0, 1);
    (1, 1);
    (2, inWidthOfX);
    (2 + inWidthOfX, 1);
    (3 + inWidthOfX, inWidthOfX * inWidthOfX);
    (3 + inWidthOfX * inWidthOfX + inWidthOfX, inWidthOfX * inWidthOfX) ]%Z.

End RobustLayout.

Module MarginalLayout.

Definition arraySize (inWidthOfX : Z) : Z :=
  (4 + 1 * inWidthOfX * inWidthOfX + 2 * inWidthOfX)%Z.

Definition rebind (inWidthOfX : Z) : list (Z * Z) :=
  [ (0, 1);
    (1, 1);
    (2, inWidthOfX);
    (2 + inWidthOfX, 1);
    (3 + inWidthOfX, 1);
    (4 + inWidthOfX, inWidthOfX);
    (4 + 2 * inWidthOfX, inWidthOfX * inWidthOfX) ]%Z.

End MarginalLayout.

(** The ranges [views] lie one after the other, the first at slot [start],
    the last ending before slot [stop], without gap or overlap. *)
Fixpoint tiles (views : list (Z * Z)) (start stop : Z) : Prop :=
  match views with
  | [] => start = stop
  | (first, slots) :: rest =>
      first = start /\ (0 <= slots)%Z /\ tiles rest (start + slots) stop
  end.

(** [std::numeric_limits<int>::max()] *)
Definition int_max : Z := 2147483647%Z.


(** An IRLS state of width 1 with two rows. *)
Definition irls_two_rows : IRLS.t :=
  IRLS.mk 1 [0] 2 [1] [[1 / 2]] (- 1) IN_PROCESS.


(** [as_scalar(trans(v) * M * v)], the quadratic form of [M] at [v]. *)
Definition quadratic_form (v : ColumnVector) (M : Matrix) : R :=
  dot (vecmat v M) v.

(** [M] is a [w] x [w] matrix. *)
Definition square (w : nat) (M : Matrix) : Prop :=
  length M = w /\ Forall (fun row => length row = w) M.

(** [ev.asDiagonal()] and the identity matrix. *)
Definition diag_matrix (ev : list R) : Matrix :=
  map (fun i => map (fun j => if (i =? j)%nat then nth i ev 0 else 0)
                    (seq 0 (length ev)))
      (seq 0 (length ev)).

Definition identity (w : nat) : Matrix := diag_matrix (repeat 1 w).

(** Modelled from the spec: the eigen-decomposition class behind
    [pseudoInverse()] is not part of logistic.cpp.  The specification calls
    it the symmetric eigendecomposition-based pseudo-inverse, the generalized
    matrix inverse via eigendecomposition, tolerant of singular and
    ill-conditioned matrices.  A symmetric [w] x [w] matrix [M] has the
    eigen-decomposition [M = V diag(ev) V^T] with orthonormal eigenvectors,
    the columns of [V]; its pseudo-inverse is [V diag(ev+) V^T], where [ev+]
    holds the inverses of the eigenvalues above the tolerance and 0 for the
    others. *)
Definition is_eigendecomposition (w : nat) (M V : Matrix) (ev : list R)
  : Prop :=
  square w V /\ length ev = w /\
  mmul (trans V) V = identity w /\
  M = mmul (mmul V (diag_matrix ev)) (trans V).

Definition pinv_eigenvalue (tol l : R) : R :=
  if Rle_dec l tol then 0 else / l.

Definition eigen_pseudoInverse (tol : R) (V : Matrix) (ev : list R) : Matrix :=
  mmul (mmul V (diag_matrix (map (pinv_eigenvalue tol) ev))) (trans V).

(** The robust transition updates the lower triangular view of
    [X_transp_AX] only, and the final function hands the matrix to a
    decomposition of symmetric matrices: the state stores the lower triangle
    of the symmetric matrix [H] when the two agree on and below the
    diagonal. *)
Definition agrees_on_lower (H M : Matrix) : Prop :=
  forall i j : nat,
    (j <= i)%nat -> nth j (nth i H []) 0 = nth j (nth i M []) 0.

(** The robust-variance state of width 2 after the row [x = [3, 4]],
    [y = true] with the coefficients [0, 0]. *)
Definition robust_degenerate : Robust.t :=
  robust_logregr_step_transition
    (Robust.mk 0 2 [0; 0] 0 [[0; 0]; [0; 0]] [[0; 0]; [0; 0]])
    true [3; 4] [0; 0].

(** Orthonormal eigenvectors and the eigenvalues of the matrix
    [[9/4, 3], [3, 4]]. *)
Definition eigenvectors_3_4 : Matrix := [[3 / 5; 4 / 5]; [4 / 5; - 3 / 5]].
Definition eigenvalues_3_4 : list R := [25 / 4; 0].


(** The robust-variance and marginal-effects aggregates: the transition
    folded over the rows of a partition, with the coefficient vector the
    host passes with every row. *)
Definition robust_aggregate (coef : ColumnVector)
  (rows : list (bool * ColumnVector)) (state : Robust.t) : Robust.t :=
  fold_left
    (fun s row => robust_logregr_step_transition s (fst row) (snd row) coef)
    rows state.

Definition marginal_aggregate (coef : ColumnVector)
  (rows : list (bool * ColumnVector)) (state : Marginal.t) : Marginal.t :=
  fold_left
    (fun s row => marginal_logregr_step_transition s (snd row) coef)
    rows state.

(** A marginal-effects state of width 2, sized and zero-filled, and a
    robust-variance state of width 2 holding the coefficients [7, 8]. *)
Definition marginal_empty : Marginal.t :=
  Marginal.mk 0 2 [0; 0] 0 0 [0; 0] [[0; 0]; [0; 0]].
Definition robust_empty : Robust.t :=
  Robust.mk 0 2 [7; 8] 0 [[0; 0]; [0; 0]] [[0; 0]; [0; 0]].

(** * Properties *)

Lemma sigma_0 : sigma 0 = 1 / 2.
Proof. unfold sigma. rewrite Ropp_0, exp_0. lra. Qed.

Lemma cg_one_row_eq :
  cg_one_row =
  CG.mk 0 2 [0; 0] [0; 0] [0; 0] 0 1 [1 / 2; 1]
        [[1 / 4; 1 / 2]; [1 / 2; 1]] (- ln 2) 0.
Proof.
  assert (E : CG.initialize (uint16 (Z.of_nat (length [1; 2]))) =
              CG.mk 0 2 [0; 0] [0; 0] [0; 0] 0 0 [0; 0] [[0; 0]; [0; 0]] 0 0)
    by reflexivity.
  unfold cg_one_row, logregr_cg_step_transition, cg_initial.
  cbn zeta. rewrite E. cbn.
  replace (1 * 0 + (2 * 0 + 0)) with 0 by lra.
  replace (- (1) * 0) with 0 by lra.
  rewrite Ropp_0, sigma_0, exp_0.
  f_equal.
  - f_equal; [lra | f_equal; lra].
  - f_equal; [f_equal; [lra | f_equal; lra]
             | f_equal; f_equal; [lra | f_equal; lra]].
  - replace (1 + 1) with 2 by lra. lra.
Qed.

(** ** Vectors and matrices as lists: sums *)

Lemma zipWith_length {A B C : Type} (f : A -> B -> C) (u : list A)
  (v : list B) :
  length (zipWith f u v) = Nat.min (length u) (length v).
Proof.
  revert v. induction u as [| a u IH]; intros [| b v]; cbn; auto.
Qed.

Lemma zipWith_ext {A B C : Type} (f g : A -> B -> C) (u : list A)
  (v : list B) :
  (forall a b, f a b = g a b) -> zipWith f u v = zipWith g u v.
Proof.
  intros H. revert v.
  induction u as [| a u IH]; intros [| b v]; cbn; auto.
  now rewrite H, IH.
Qed.

Lemma zipWith_map {A A' B B' C : Type} (f : A' -> B' -> C) (g : A -> A')
  (h : B -> B') (u : list A) (v : list B) :
  zipWith f (map g u) (map h v) = zipWith (fun a b => f (g a) (h b)) u v.
Proof.
  revert v. induction u as [| a u IH]; intros [| b v]; cbn; auto.
  now rewrite IH.
Qed.

Lemma map_zipWith {A B C D : Type} (g : C -> D) (f : A -> B -> C)
  (u : list A) (v : list B) :
  map g (zipWith f u v) = zipWith (fun a b => g (f a b)) u v.
Proof.
  revert v. induction u as [| a u IH]; intros [| b v]; cbn; auto.
  now rewrite IH.
Qed.

Lemma zipWith_comm {A C : Type} (f : A -> A -> C) (u v : list A) :
  (forall a b, f a b = f b a) -> zipWith f u v = zipWith f v u.
Proof.
  intros H. revert v.
  induction u as [| a u IH]; intros [| b v]; cbn; auto.
  now rewrite H, IH.
Qed.

Lemma zipWith_assoc {A : Type} (f : A -> A -> A) (u v w : list A) :
  (forall a b c, f (f a b) c = f a (f b c)) ->
  zipWith f (zipWith f u v) w = zipWith f u (zipWith f v w).
Proof.
  intros H. revert v w.
  induction u as [| a u IH]; intros [| b v] [| c w]; cbn; auto.
  now rewrite H, IH.
Qed.

Lemma vadd_comm (u v : ColumnVector) : vadd u v = vadd v u.
Proof. apply zipWith_comm. intros; ring. Qed.

Lemma vadd_assoc (u v w : ColumnVector) :
  vadd (vadd u v) w = vadd u (vadd v w).
Proof. apply zipWith_assoc. intros; ring. Qed.

Lemma madd_comm (M N : Matrix) : madd M N = madd N M.
Proof. apply zipWith_comm. apply vadd_comm. Qed.

Lemma madd_assoc (M N P : Matrix) : madd (madd M N) P = madd M (madd N P).
Proof. apply zipWith_assoc. apply vadd_assoc. Qed.

Lemma vadd_length (u v : ColumnVector) (w : nat) :
  length u = w -> length v = w -> length (vadd u v) = w.
Proof.
  intros Hu Hv. unfold vadd. rewrite zipWith_length, Hu, Hv.
  apply Nat.min_id.
Qed.

Lemma vadd_vzero_r (u : ColumnVector) : vadd u (vzero (length u)) = u.
Proof.
  induction u as [| a u IH]; cbn; [reflexivity |].
  unfold vadd, vzero in IH. rewrite IH. f_equal. ring.
Qed.

Lemma msize_rows (M : Matrix) (w : nat) :
  Forall (fun row => length row = w) M ->
  msize M = (Z.of_nat (length M) * Z.of_nat w)%Z.
Proof.
  induction 1 as [| row M Hrow _ IH]; [reflexivity |].
  cbn [msize fold_right length]. fold (msize M). rewrite IH, Hrow. lia.
Qed.

Lemma madd_rows (M N : Matrix) (w : nat) :
  Forall (fun row => length row = w) M ->
  Forall (fun row => length row = w) N ->
  Forall (fun row => length row = w) (madd M N).
Proof.
  intros HM. revert N.
  induction HM as [| r M Hr _ IH]; intros N HN; [constructor |].
  destruct HN as [| s N Hs HN]; [constructor |].
  cbn. constructor; [now apply vadd_length | now apply IH].
Qed.

Lemma madd_length (M N : Matrix) (w : nat) :
  length M = w -> length N = w -> length (madd M N) = w.
Proof.
  intros HM HN. unfold madd. rewrite zipWith_length.
  unfold ColumnVector. rewrite HM, HN. apply Nat.min_id.
Qed.

Lemma uint64_small (z : Z) :
  (0 <= z < 18446744073709551616)%Z -> uint64 z = z.
Proof. intros H. unfold uint64. now apply Z.mod_small. Qed.

(** ** The merge functions as an algebra

    Every merge function has one shape: a state without rows gives way to
    the other state, and two states with rows are added by [operator+=].
    The section proves once, for any state type with such a merge, that the
    merges of three states agree on what the addition agrees on. *)

Section MergeAlgebra.

Variable S : Type.
Variable n : S -> Z.
Variable plus : S -> S -> S.
Variable merge : S -> S -> option S.
Variable ok : S -> Prop.
Variable E : S -> S -> Prop.

Hypothesis merge_zero_l : forall a b, n a = 0%Z -> merge a b = Some b.
Hypothesis merge_zero_r :
  forall a b, n a <> 0%Z -> n b = 0%Z -> merge a b = Some a.
Hypothesis merge_plus :
  forall a b, ok a -> ok b -> n a <> 0%Z -> n b <> 0%Z ->
              merge a b = Some (plus a b).
Hypothesis ok_range : forall a, ok a -> (0 <= n a < two_pow_64)%Z.
Hypothesis ok_plus : forall a b, ok a -> ok b -> ok (plus a b).
Hypothesis n_plus : forall a b, n (plus a b) = uint64 (n a + n b).
Hypothesis E_refl : forall a, E a a.
Hypothesis E_sym : forall a b, E a b -> E b a.
Hypothesis E_trans : forall a b c, E a b -> E b c -> E a c.
Hypothesis E_plus_r : forall a b b', E b b' -> E (plus a b) (plus a b').
Hypothesis E_plus_comm :
  forall a b, ok a -> ok b -> (0 < n a)%Z -> (0 < n b)%Z ->
              (n a + n b < two_pow_64)%Z -> E (plus a b) (plus b a).
Hypothesis E_plus_assoc :
  forall a b c, ok a -> ok b -> ok c ->
                (0 < n a)%Z -> (0 < n b)%Z -> (0 < n c)%Z ->
                (n a + n b + n c < two_pow_64)%Z ->
                E (plus (plus a b) c) (plus a (plus b c)).

Lemma n_plus_exact (a b : S) :
  ok a -> ok b -> (n a + n b < two_pow_64)%Z ->
  n (plus a b) = (n a + n b)%Z.
Proof.
  intros Ha Hb Hsum. rewrite n_plus.
  pose proof (ok_range a Ha). pose proof (ok_range b Hb).
  apply uint64_small. unfold two_pow_64 in *. lia.
Qed.

Lemma merge_commutes (A B : S) :
  ok A -> ok B -> (n A + n B < two_pow_64)%Z ->
  n A <> 0%Z \/ n B <> 0%Z ->
  exists r1 r2,
    merge A B = Some r1 /\ merge B A = Some r2 /\ E r1 r2.
Proof.
  intros HA HB Hsum Hne.
  pose proof (ok_range A HA) as RA. pose proof (ok_range B HB) as RB.
  destruct (Z.eq_dec (n A) 0) as [a0 | a1];
    destruct (Z.eq_dec (n B) 0) as [b0 | b1].
  - exfalso. destruct Hne; contradiction.
  - exists B, B.
    rewrite (merge_zero_l A B), (merge_zero_r B A) by assumption. auto.
  - exists A, A.
    rewrite (merge_zero_r A B), (merge_zero_l B A) by assumption. auto.
  - exists (plus A B), (plus B A). rewrite !merge_plus by assumption.
    repeat split. apply E_plus_comm; auto; lia.
Qed.

Lemma merge_triple (A B C : S) :
  ok A -> ok B -> ok C -> (n A + n B + n C < two_pow_64)%Z ->
  n A <> 0%Z \/ n B <> 0%Z \/ n C <> 0%Z ->
  exists r1 r2 r3,
    then_merge merge (merge A B) (Some C) = Some r1 /\
    then_merge merge (Some A) (merge B C) = Some r2 /\
    then_merge merge (merge A C) (Some B) = Some r3 /\
    E r1 r2 /\ E r1 r3.
Proof.
  intros HA HB HC Hsum Hne.
  pose proof (ok_range A HA) as RA. pose proof (ok_range B HB) as RB.
  pose proof (ok_range C HC) as RC.
  destruct (Z.eq_dec (n A) 0) as [a0 | a1];
    destruct (Z.eq_dec (n B) 0) as [b0 | b1];
    destruct (Z.eq_dec (n C) 0) as [c0 | c1].
  - exfalso. destruct Hne as [H | [H | H]]; contradiction.
  - exists C, C, C.
    rewrite (merge_zero_l A B), (merge_zero_l B C), (merge_zero_l A C)
      by assumption.
    cbn [then_merge].
    rewrite (merge_zero_l B C), (merge_zero_l A C), (merge_zero_r C B)
      by assumption.
    auto.
  - exists B, B, B.
    rewrite (merge_zero_l A B), (merge_zero_r B C), (merge_zero_l A C)
      by assumption.
    cbn [then_merge].
    rewrite (merge_zero_r B C), (merge_zero_l A B), (merge_zero_l C B)
      by assumption.
    auto.
  - exists (plus B C), (plus B C), (plus C B).
    assert (HnBC : n (plus B C) = (n B + n C)%Z)
      by (apply n_plus_exact; auto; lia).
    rewrite (merge_zero_l A B), (merge_plus B C), (merge_zero_l A C)
      by assumption.
    cbn [then_merge].
    rewrite (merge_plus B C), (merge_zero_l A (plus B C)), (merge_plus C B)
      by assumption.
    repeat split; auto. apply E_plus_comm; auto; lia.
  - exists A, A, A.
    rewrite (merge_zero_r A B), (merge_zero_l B C), (merge_zero_r A C)
      by assumption.
    cbn [then_merge].
    rewrite (merge_zero_r A C), (merge_zero_r A B) by assumption.
    auto.
  - exists (plus A C), (plus A C), (plus A C).
    assert (HnAC : n (plus A C) = (n A + n C)%Z)
      by (apply n_plus_exact; auto; lia).
    rewrite (merge_zero_r A B), (merge_zero_l B C), (merge_plus A C)
      by assumption.
    cbn [then_merge].
    rewrite (merge_plus A C), (merge_zero_r (plus A C) B)
      by (assumption || lia).
    auto.
  - exists (plus A B), (plus A B), (plus A B).
    assert (HnAB : n (plus A B) = (n A + n B)%Z)
      by (apply n_plus_exact; auto; lia).
    rewrite (merge_plus A B), (merge_zero_r B C), (merge_zero_r A C)
      by assumption.
    cbn [then_merge].
    rewrite (merge_zero_r (plus A B) C), (merge_plus A B)
      by (assumption || lia).
    auto.
  - exists (plus (plus A B) C), (plus A (plus B C)), (plus (plus A C) B).
    assert (HnAB : n (plus A B) = (n A + n B)%Z)
      by (apply n_plus_exact; auto; lia).
    assert (HnBC : n (plus B C) = (n B + n C)%Z)
      by (apply n_plus_exact; auto; lia).
    assert (HnAC : n (plus A C) = (n A + n C)%Z)
      by (apply n_plus_exact; auto; lia).
    assert (HnCB : n (plus C B) = (n C + n B)%Z)
      by (apply n_plus_exact; auto; lia).
    rewrite (merge_plus A B), (merge_plus B C), (merge_plus A C)
      by assumption.
    cbn [then_merge].
    rewrite (merge_plus (plus A B) C), (merge_plus A (plus B C)),
      (merge_plus (plus A C) B) by (auto; lia).
    repeat split.
    + apply E_plus_assoc; auto; lia.
    + apply E_trans with (plus A (plus B C));
        [apply E_plus_assoc; auto; lia |].
      apply E_trans with (plus A (plus C B)).
      * apply E_plus_r. apply E_plus_comm; auto; lia.
      * apply E_sym. apply E_plus_assoc; auto; lia.
Qed.

Lemma merge_laws : merge_order_independent n merge ok E.
Proof.
  split; [exact merge_commutes | exact merge_triple].
Qed.

End MergeAlgebra.

(** ** The five merge functions are instances *)

Lemma uint64_add_assoc (a b c : Z) :
  uint64 (uint64 (a + b) + c) = uint64 (a + uint64 (b + c)).
Proof.
  unfold uint64. rewrite Zplus_mod_idemp_l, Zplus_mod_idemp_r.
  f_equal. lia.
Qed.

Lemma uint64_range (z : Z) : (0 <= uint64 z < two_pow_64)%Z.
Proof. unfold uint64, two_pow_64. apply Z.mod_pos_bound. lia. Qed.

Lemma status_max_comm (a b : Z) :
  (if (b >? a)%Z then b else a) = (if (a >? b)%Z then a else b).
Proof. destruct (Z.gtb_spec b a), (Z.gtb_spec a b); lia. Qed.

Lemma status_max_assoc (a b c : Z) :
  (if (c >? (if (b >? a)%Z then b else a))%Z then c
   else if (b >? a)%Z then b else a)
  = (if ((if (c >? b)%Z then c else b) >? a)%Z
     then if (c >? b)%Z then c else b else a).
Proof.
  destruct (Z.gtb_spec b a), (Z.gtb_spec c b); cbv iota;
    try destruct (Z.gtb_spec c a); try destruct (Z.gtb_spec c b);
    try destruct (Z.gtb_spec b a); lia.
Qed.

Lemma cg_size_wf (s : CG.t) :
  CG.wf s ->
  CG.size s
  = (6 + 4 * Z.of_nat (Z.to_nat (CG.widthOfX s))
     + Z.of_nat (Z.to_nat (CG.widthOfX s))
       * Z.of_nat (Z.to_nat (CG.widthOfX s)))%Z.
Proof.
  intros (Hc & Hd & Hg & Hn & HX & Hrows). unfold CG.size, vsize.
  rewrite (msize_rows _ _ Hrows), Hc, Hd, Hg, Hn, HX. lia.
Qed.

Lemma cg_add_assign_wf (A B : CG.t) :
  CG.wf A -> CG.wf B -> CG.widthOfX A = CG.widthOfX B ->
  CG.add_assign A B = Some (CG.plus A B) /\ CG.wf (CG.plus A B).
Proof.
  intros HA HB Hw. split.
  - unfold CG.add_assign.
    rewrite (cg_size_wf A HA), (cg_size_wf B HB), Hw, !Z.eqb_refl.
    reflexivity.
  - destruct HA as (HcA & HdA & HgA & HnA & HXA & HrA).
    destruct HB as (HcB & HdB & HgB & HnB & HXB & HrB).
    rewrite <- Hw in HnB, HXB, HrB.
    unfold CG.wf, CG.plus. cbn. repeat split; auto.
    + now apply vadd_length.
    + now apply madd_length.
    + now apply madd_rows.
Qed.

Lemma cg_merge_laws (w : Z) :
  merge_order_independent CG.numRows logregr_cg_step_merge_states
    (cg_partial w) cg_accum_eq.
Proof.
  apply (merge_laws CG.t CG.numRows CG.plus).
  - intros a b H. unfold logregr_cg_step_merge_states. now rewrite H.
  - intros a b Ha Hb. unfold logregr_cg_step_merge_states.
    apply Z.eqb_neq in Ha. now rewrite Ha, Hb.
  - intros a b (Hwa & Ha & _) (Hwb & Hb & _) Hna Hnb.
    unfold logregr_cg_step_merge_states.
    apply Z.eqb_neq in Hna, Hnb. rewrite Hna, Hnb.
    apply cg_add_assign_wf; auto. congruence.
  - intros a (_ & _ & H). exact H.
  - intros a b (Hwa & Ha & _) (Hwb & Hb & _).
    split; [apply cg_add_assign_wf; auto; congruence |].
    split; [exact Ha | apply uint64_range].
  - reflexivity.
  - intros a. unfold cg_accum_eq. auto.
  - intros a b (H1 & H2 & H3 & H4 & H5). unfold cg_accum_eq. auto.
  - intros a b c (H1 & H2 & H3 & H4 & H5) (G1 & G2 & G3 & G4 & G5).
    unfold cg_accum_eq. repeat split; congruence.
  - intros a b b' (H1 & H2 & H3 & H4 & H5).
    unfold cg_accum_eq, CG.plus. cbn. rewrite H1, H2, H3, H4, H5. auto.
  - intros a b _ _ _ _ _. unfold cg_accum_eq, CG.plus. cbn.
    repeat split.
    + f_equal. lia.
    + apply vadd_comm.
    + apply madd_comm.
    + ring.
    + apply status_max_comm.
  - intros a b c _ _ _ _ _ _ _. unfold cg_accum_eq, CG.plus. cbn.
    repeat split.
    + apply uint64_add_assoc.
    + apply vadd_assoc.
    + apply madd_assoc.
    + ring.
    + apply status_max_assoc.
Qed.

Lemma irls_size_wf (s : IRLS.t) :
  IRLS.wf s ->
  IRLS.size s
  = (4 + 2 * Z.of_nat (Z.to_nat (IRLS.widthOfX s))
     + Z.of_nat (Z.to_nat (IRLS.widthOfX s))
       * Z.of_nat (Z.to_nat (IRLS.widthOfX s)))%Z.
Proof.
  intros (Hc & Hz & HX & Hrows). unfold IRLS.size, vsize.
  rewrite (msize_rows _ _ Hrows), Hc, Hz, HX. lia.
Qed.

Lemma irls_add_assign_wf (A B : IRLS.t) :
  IRLS.wf A -> IRLS.wf B -> IRLS.widthOfX A = IRLS.widthOfX B ->
  IRLS.add_assign A B = Some (IRLS.plus A B) /\ IRLS.wf (IRLS.plus A B).
Proof.
  intros HA HB Hw. split.
  - unfold IRLS.add_assign.
    rewrite (irls_size_wf A HA), (irls_size_wf B HB), Hw, !Z.eqb_refl.
    reflexivity.
  - destruct HA as (HcA & HzA & HXA & HrA).
    destruct HB as (HcB & HzB & HXB & HrB).
    rewrite <- Hw in HzB, HXB, HrB.
    unfold IRLS.wf, IRLS.plus. cbn. repeat split; auto.
    + now apply vadd_length.
    + now apply madd_length.
    + now apply madd_rows.
Qed.

Lemma irls_merge_laws (w : Z) :
  merge_order_independent IRLS.numRows logregr_irls_step_merge_states
    (irls_partial w) irls_accum_eq.
Proof.
  apply (merge_laws IRLS.t IRLS.numRows IRLS.plus).
  - intros a b H. unfold logregr_irls_step_merge_states. now rewrite H.
  - intros a b Ha Hb. unfold logregr_irls_step_merge_states.
    apply Z.eqb_neq in Ha. now rewrite Ha, Hb.
  - intros a b (Hwa & Ha & _) (Hwb & Hb & _) Hna Hnb.
    unfold logregr_irls_step_merge_states.
    apply Z.eqb_neq in Hna, Hnb. rewrite Hna, Hnb.
    apply irls_add_assign_wf; auto. congruence.
  - intros a (_ & _ & H). exact H.
  - intros a b (Hwa & Ha & _) (Hwb & Hb & _).
    split; [apply irls_add_assign_wf; auto; congruence |].
    split; [exact Ha | apply uint64_range].
  - reflexivity.
  - intros a. unfold irls_accum_eq. auto.
  - intros a b (H1 & H2 & H3 & H4 & H5). unfold irls_accum_eq. auto.
  - intros a b c (H1 & H2 & H3 & H4 & H5) (G1 & G2 & G3 & G4 & G5).
    unfold irls_accum_eq. repeat split; congruence.
  - intros a b b' (H1 & H2 & H3 & H4 & H5).
    unfold irls_accum_eq, IRLS.plus. cbn. rewrite H1, H2, H3, H4, H5. auto.
  - intros a b _ _ _ _ _. unfold irls_accum_eq, IRLS.plus. cbn.
    repeat split.
    + f_equal. lia.
    + apply vadd_comm.
    + apply madd_comm.
    + ring.
    + apply status_max_comm.
  - intros a b c _ _ _ _ _ _ _. unfold irls_accum_eq, IRLS.plus. cbn.
    repeat split.
    + apply uint64_add_assoc.
    + apply vadd_assoc.
    + apply madd_assoc.
    + ring.
    + apply status_max_assoc.
Qed.

Lemma igd_size_wf (s : IGD.t) :
  IGD.wf s ->
  IGD.size s
  = (5 + Z.of_nat (Z.to_nat (IGD.widthOfX s))
     + Z.of_nat (Z.to_nat (IGD.widthOfX s))
       * Z.of_nat (Z.to_nat (IGD.widthOfX s)))%Z.
Proof.
  intros (Hc & HX & Hrows). unfold IGD.size, vsize.
  rewrite (msize_rows _ _ Hrows), Hc, HX. lia.
Qed.

Lemma igd_add_assign_wf (A B : IGD.t) :
  IGD.wf A -> IGD.wf B -> IGD.widthOfX A = IGD.widthOfX B ->
  IGD.add_assign A B = Some (IGD.plus A B) /\ IGD.wf (IGD.plus A B).
Proof.
  intros HA HB Hw. split.
  - unfold IGD.add_assign.
    rewrite (igd_size_wf A HA), (igd_size_wf B HB), Hw, !Z.eqb_refl.
    reflexivity.
  - destruct HA as (HcA & HXA & HrA). destruct HB as (HcB & HXB & HrB).
    rewrite <- Hw in HcB, HXB, HrB.
    unfold IGD.wf, IGD.plus. cbn. repeat split.
    + apply vadd_length; unfold vscale; now rewrite length_map.
    + now apply madd_length.
    + now apply madd_rows.
Qed.

Lemma zipWith_regroup {A B C D E G : Type}
  (f : D -> C -> G) (g : A -> B -> D) (f' : A -> E -> G) (g' : B -> C -> E)
  (u : list A) (v : list B) (w : list C) :
  (forall a b c, f (g a b) c = f' a (g' b c)) ->
  zipWith f (zipWith g u v) w = zipWith f' u (zipWith g' v w).
Proof.
  intros H. revert v w.
  induction u as [| a u IH]; intros [| b v] [| c w]; cbn; auto.
  now rewrite H, IH.
Qed.

Lemma igd_coef_assoc (p q r : R) (u v w : ColumnVector) :
  0 < p -> 0 < q -> 0 < r ->
  vadd (vscale ((p + q) / (p + q + r))
               (vadd (vscale (p / (p + q)) u) (vscale (q / (p + q)) v)))
       (vscale (r / (p + q + r)) w)
  = vadd (vscale (p / (p + (q + r))) u)
         (vscale ((q + r) / (p + (q + r)))
                 (vadd (vscale (q / (q + r)) v) (vscale (r / (q + r)) w))).
Proof.
  intros Hp Hq Hr. unfold vadd, vscale. rewrite !zipWith_map.
  apply zipWith_regroup. intros a b c. field. repeat split; lra.
Qed.

Lemma igd_merge_laws (w : Z) :
  merge_order_independent IGD.numRows logregr_igd_step_merge_states
    (igd_partial w) igd_accum_eq.
Proof.
  apply (merge_laws IGD.t IGD.numRows IGD.plus).
  - intros a b H. unfold logregr_igd_step_merge_states. now rewrite H.
  - intros a b Ha Hb. unfold logregr_igd_step_merge_states.
    apply Z.eqb_neq in Ha. now rewrite Ha, Hb.
  - intros a b (Hwa & Ha & _) (Hwb & Hb & _) Hna Hnb.
    unfold logregr_igd_step_merge_states.
    apply Z.eqb_neq in Hna, Hnb. rewrite Hna, Hnb.
    apply igd_add_assign_wf; auto. congruence.
  - intros a (_ & _ & H). exact H.
  - intros a b (Hwa & Ha & _) (Hwb & Hb & _).
    split; [apply igd_add_assign_wf; auto; congruence |].
    split; [exact Ha | apply uint64_range].
  - reflexivity.
  - intros a. unfold igd_accum_eq. auto.
  - intros a b (H1 & H2 & H3 & H4). unfold igd_accum_eq. auto.
  - intros a b c (H1 & H2 & H3 & H4) (G1 & G2 & G3 & G4).
    unfold igd_accum_eq. repeat split; congruence.
  - intros a b b' (H1 & H2 & H3 & H4).
    unfold igd_accum_eq, IGD.plus. cbn. rewrite H1, H2, H3, H4. auto.
  - intros a b _ _ _ _ _. unfold igd_accum_eq, IGD.plus. cbn.
    repeat split.
    + f_equal. lia.
    + rewrite vadd_comm.
      now rewrite (Rplus_comm (IZR (IGD.numRows b)) (IZR (IGD.numRows a))).
    + apply madd_comm.
    + ring.
  - intros a b c _ _ _ Ha Hb Hc Hsum. unfold igd_accum_eq, IGD.plus. cbn.
    unfold two_pow_64 in Hsum.
    repeat split.
    + apply uint64_add_assoc.
    + rewrite !uint64_small by lia. rewrite !plus_IZR.
      apply igd_coef_assoc; apply (IZR_lt 0); assumption.
    + apply madd_assoc.
    + ring.
Qed.

Lemma robust_size_wf (s : Robust.t) :
  Robust.wf s ->
  Robust.size s
  = (4 + Z.of_nat (Z.to_nat (Robust.widthOfX s))
     + 2 * (Z.of_nat (Z.to_nat (Robust.widthOfX s))
            * Z.of_nat (Z.to_nat (Robust.widthOfX s))))%Z.
Proof.
  intros (Hc & HX & Hrows & Hm & Hmrows). unfold Robust.size, vsize.
  rewrite (msize_rows _ _ Hrows), (msize_rows _ _ Hmrows), Hc, HX, Hm. lia.
Qed.

Lemma robust_add_assign_wf (A B : Robust.t) :
  Robust.wf A -> Robust.wf B -> Robust.widthOfX A = Robust.widthOfX B ->
  Robust.add_assign A B = Some (Robust.plus A B) /\
  Robust.wf (Robust.plus A B).
Proof.
  intros HA HB Hw. split.
  - unfold Robust.add_assign.
    rewrite (robust_size_wf A HA), (robust_size_wf B HB), Hw, !Z.eqb_refl.
    reflexivity.
  - destruct HA as (HcA & HXA & HrA & HmA & HmrA).
    destruct HB as (HcB & HXB & HrB & HmB & HmrB).
    rewrite <- Hw in HXB, HrB, HmB, HmrB.
    unfold Robust.wf, Robust.plus. cbn. repeat split; auto.
    + now apply madd_length.
    + now apply madd_rows.
    + now apply madd_length.
    + now apply madd_rows.
Qed.

Lemma robust_merge_laws (w : Z) :
  merge_order_independent Robust.numRows robust_logregr_step_merge_states
    (robust_partial w) robust_accum_eq.
Proof.
  apply (merge_laws Robust.t Robust.numRows Robust.plus).
  - intros a b H. unfold robust_logregr_step_merge_states. now rewrite H.
  - intros a b Ha Hb. unfold robust_logregr_step_merge_states.
    apply Z.eqb_neq in Ha. now rewrite Ha, Hb.
  - intros a b (Hwa & Ha & _) (Hwb & Hb & _) Hna Hnb.
    unfold robust_logregr_step_merge_states.
    apply Z.eqb_neq in Hna, Hnb. rewrite Hna, Hnb.
    apply robust_add_assign_wf; auto. congruence.
  - intros a (_ & _ & H). exact H.
  - intros a b (Hwa & Ha & _) (Hwb & Hb & _).
    split; [apply robust_add_assign_wf; auto; congruence |].
    split; [exact Ha | apply uint64_range].
  - reflexivity.
  - intros a. unfold robust_accum_eq. auto.
  - intros a b (H1 & H2 & H3). unfold robust_accum_eq. auto.
  - intros a b c (H1 & H2 & H3) (G1 & G2 & G3).
    unfold robust_accum_eq. repeat split; congruence.
  - intros a b b' (H1 & H2 & H3).
    unfold robust_accum_eq, Robust.plus. cbn. rewrite H1, H2, H3. auto.
  - intros a b _ _ _ _ _. unfold robust_accum_eq, Robust.plus. cbn.
    repeat split.
    + f_equal. lia.
    + apply madd_comm.
    + apply madd_comm.
  - intros a b c _ _ _ _ _ _ _. unfold robust_accum_eq, Robust.plus. cbn.
    repeat split.
    + apply uint64_add_assoc.
    + apply madd_assoc.
    + apply madd_assoc.
Qed.

Lemma marginal_size_wf (s : Marginal.t) :
  Marginal.wf s ->
  Marginal.size s
  = (4 + 2 * Z.of_nat (Z.to_nat (Marginal.widthOfX s))
     + Z.of_nat (Z.to_nat (Marginal.widthOfX s))
       * Z.of_nat (Z.to_nat (Marginal.widthOfX s)))%Z.
Proof.
  intros (Hc & Hb & HX & Hrows). unfold Marginal.size, vsize.
  rewrite (msize_rows _ _ Hrows), Hc, Hb, HX. lia.
Qed.

Lemma marginal_add_assign_wf (A B : Marginal.t) :
  Marginal.wf A -> Marginal.wf B ->
  Marginal.widthOfX A = Marginal.widthOfX B ->
  Marginal.add_assign A B = Some (Marginal.plus A B) /\
  Marginal.wf (Marginal.plus A B).
Proof.
  intros HA HB Hw. split.
  - unfold Marginal.add_assign.
    rewrite (marginal_size_wf A HA), (marginal_size_wf B HB), Hw,
      !Z.eqb_refl.
    reflexivity.
  - destruct HA as (HcA & HbA & HXA & HrA).
    destruct HB as (HcB & HbB & HXB & HrB).
    rewrite <- Hw in HbB, HXB, HrB.
    unfold Marginal.wf, Marginal.plus. cbn. repeat split; auto.
    + now apply vadd_length.
    + now apply madd_length.
    + now apply madd_rows.
Qed.

Lemma marginal_merge_laws (w : Z) :
  merge_order_independent Marginal.numRows marginal_logregr_step_merge_states
    (marginal_partial w) marginal_accum_eq.
Proof.
  apply (merge_laws Marginal.t Marginal.numRows Marginal.plus).
  - intros a b H. unfold marginal_logregr_step_merge_states. now rewrite H.
  - intros a b Ha Hb. unfold marginal_logregr_step_merge_states.
    apply Z.eqb_neq in Ha. now rewrite Ha, Hb.
  - intros a b (Hwa & Ha & _) (Hwb & Hb & _) Hna Hnb.
    unfold marginal_logregr_step_merge_states.
    apply Z.eqb_neq in Hna, Hnb. rewrite Hna, Hnb.
    apply marginal_add_assign_wf; auto. congruence.
  - intros a (_ & _ & H). exact H.
  - intros a b (Hwa & Ha & _) (Hwb & Hb & _).
    split; [apply marginal_add_assign_wf; auto; congruence |].
    split; [exact Ha | apply uint64_range].
  - reflexivity.
  - intros a. unfold marginal_accum_eq. auto.
  - intros a b (H1 & H2 & H3 & H4). unfold marginal_accum_eq. auto.
  - intros a b c (H1 & H2 & H3 & H4) (G1 & G2 & G3 & G4).
    unfold marginal_accum_eq. repeat split; congruence.
  - intros a b b' (H1 & H2 & H3 & H4).
    unfold marginal_accum_eq, Marginal.plus. cbn.
    rewrite H1, H2, H3, H4. auto.
  - intros a b _ _ _ _ _. unfold marginal_accum_eq, Marginal.plus. cbn.
    repeat split.
    + f_equal. lia.
    + ring.
    + apply vadd_comm.
    + apply madd_comm.
  - intros a b c _ _ _ _ _ _ _. unfold marginal_accum_eq, Marginal.plus. cbn.
    repeat split.
    + apply uint64_add_assoc.
    + ring.
    + apply vadd_assoc.
    + apply madd_assoc.
Qed.

(** ** C1: the merge does not depend on grouping and order *)

(** C1, as the specification states it, fails on states without rows: with
    [A] and [C] the initial state and [B] the rejected state (no rows,
    TERMINATED), all of width 0, merging [(A B) C] returns the initial state
    and merging [(A C) B] returns the rejected one; their [status] fields
    differ. *)
Lemma merge_of_empty_states_depends_on_order :
  CG.widthOfX cg_initial = CG.widthOfX cg_rejected /\
  then_merge logregr_cg_step_merge_states
    (logregr_cg_step_merge_states cg_initial cg_rejected) (Some cg_initial)
  = Some cg_initial /\
  then_merge logregr_cg_step_merge_states
    (logregr_cg_step_merge_states cg_initial cg_initial) (Some cg_rejected)
  = Some cg_rejected /\
  CG.status cg_initial = IN_PROCESS /\
  CG.status cg_rejected = TERMINATED /\
  CG.status cg_initial <> CG.status cg_rejected.
Proof.
  repeat split; try reflexivity. cbn. discriminate.
Qed.

(** The IGD [operator+=] takes the status of the right-hand state only when
    that status is TERMINATED; for COMPLETED against IN_PROCESS the merged
    status is the one of the left-hand state, whichever it is. *)
Lemma igd_merge_status_depends_on_order :
  option_map IGD.status (logregr_igd_step_merge_states igd_completed igd_part1)
  = Some COMPLETED /\
  option_map IGD.status (logregr_igd_step_merge_states igd_part1 igd_completed)
  = Some IN_PROCESS.
Proof. split; reflexivity. Qed.

(** C1 (amended). For every variant and partial states of one width, shaped
    as [rebind] shapes them, whose row counts sum to less than 2^64 and at
    least one of which has a row: two states merge to the same accumulated
    fields in either order, and three states [A], [B], [C] merge to the same
    accumulated fields as [(A B) C], [A (B C)] and [(A C) B].  The
    accumulated fields are [numRows], the accumulated vectors and matrices,
    [logLikelihood] and, for CG and IRLS, [status]; for IGD they include the
    coefficient vector. *)
Theorem merge_is_order_independent :
  forall w : Z,
    merge_order_independent CG.numRows logregr_cg_step_merge_states
      (cg_partial w) cg_accum_eq /\
    merge_order_independent IRLS.numRows logregr_irls_step_merge_states
      (irls_partial w) irls_accum_eq /\
    merge_order_independent IGD.numRows logregr_igd_step_merge_states
      (igd_partial w) igd_accum_eq /\
    merge_order_independent Robust.numRows robust_logregr_step_merge_states
      (robust_partial w) robust_accum_eq /\
    merge_order_independent Marginal.numRows
      marginal_logregr_step_merge_states (marginal_partial w)
      marginal_accum_eq.
Proof.
  intros w.
  split; [apply cg_merge_laws |].
  split; [apply irls_merge_laws |].
  split; [apply igd_merge_laws |].
  split; [apply robust_merge_laws | apply marginal_merge_laws].
Qed.

Lemma merge_is_order_independent_witness :
  exists r1 r2 r3 : IGD.t,
    then_merge logregr_igd_step_merge_states
      (logregr_igd_step_merge_states igd_part1 igd_part2) (Some igd_completed)
    = Some r1 /\
    then_merge logregr_igd_step_merge_states
      (Some igd_part1) (logregr_igd_step_merge_states igd_part2 igd_completed)
    = Some r2 /\
    then_merge logregr_igd_step_merge_states
      (logregr_igd_step_merge_states igd_part1 igd_completed) (Some igd_part2)
    = Some r3 /\
    igd_accum_eq r1 r2 /\ igd_accum_eq r1 r3.
Proof.
  assert (Hok : forall s, In s [igd_part1; igd_part2; igd_completed] ->
                          igd_partial 2 s).
  { intros s [<- | [<- | [<- | []]]];
      (split; [repeat constructor |]); split; try reflexivity;
      cbn; unfold two_pow_64; lia. }
  apply (proj2 (proj1 (proj2 (proj2 (merge_is_order_independent 2))))
           igd_part1 igd_part2 igd_completed).
  - apply Hok. cbn. auto.
  - apply Hok. cbn. auto.
  - apply Hok. cbn. auto.
  - cbn. unfold two_pow_64. lia.
  - left. cbn. lia.
Defined.

(** ** C2: final and result on a state without rows *)

(** C2, as the specification states it, fails for the result functions:
    [internal_logregr_cg_result] has no test of [numRows] and returns a tuple
    for the initial, empty state. *)
Lemma cg_result_of_empty_state_is_a_tuple :
  ~ (forall (pseudoInverse : Matrix -> Matrix) (conditionNo : Matrix -> R)
            (normal_cdf : R -> R) (state : CG.t),
       CG.numRows state = 0%Z ->
       internal_logregr_cg_result pseudoInverse conditionNo normal_cdf state
       = Null).
Proof.
  intros H.
  specialize (H (fun M => M) (fun _ => 0) (fun _ => 0) cg_initial eq_refl).
  discriminate H.
Qed.

(** C2 (amended). For every variant the final function applied to a state
    with [numRows = 0] returns Null.  The result functions of the CG, IRLS
    and IGD variants do not look at [numRows]: for every state they return
    the tuple [stateToResult] builds. *)
Theorem final_of_empty_state_is_null :
  forall (pseudoInverse : Matrix -> Matrix) (conditionNo : Matrix -> R)
         (normal_cdf : R -> R) (students_t_cdf_complement : R -> R -> R),
    (forall state : CG.t,
       CG.numRows state = 0%Z -> logregr_cg_step_final state = Null) /\
    (forall state : IRLS.t,
       IRLS.numRows state = 0%Z ->
       logregr_irls_step_final pseudoInverse conditionNo state = Null) /\
    (forall state : IGD.t,
       IGD.numRows state = 0%Z -> logregr_igd_step_final state = Null) /\
    (forall state : Robust.t,
       Robust.numRows state = 0%Z ->
       robust_logregr_step_final pseudoInverse normal_cdf state = Null) /\
    (forall state : Marginal.t,
       Marginal.numRows state = 0%Z ->
       marginal_logregr_step_final pseudoInverse students_t_cdf_complement
         state = Null) /\
    (forall state : CG.t,
       internal_logregr_cg_result pseudoInverse conditionNo normal_cdf state
       = Value (stateToResult normal_cdf (CG.coef state)
                  (diagonal (pseudoInverse (CG.X_transp_AX state)))
                  (CG.logLikelihood state)
                  (conditionNo (CG.X_transp_AX state)) (CG.status state))) /\
    (forall state : IRLS.t,
       internal_logregr_irls_result normal_cdf state
       = Value (stateToResult normal_cdf (IRLS.coef state)
                  (IRLS.X_transp_Az state) (IRLS.logLikelihood state)
                  (nth 0 (nth 0 (IRLS.X_transp_AX state) []) 0)
                  (IRLS.status state))) /\
    (forall state : IGD.t,
       internal_logregr_igd_result pseudoInverse conditionNo normal_cdf state
       = Value (stateToResult normal_cdf (IGD.coef state)
                  (diagonal (pseudoInverse (IGD.X_transp_AX state)))
                  (IGD.logLikelihood state)
                  (conditionNo (IGD.X_transp_AX state)) (IGD.status state))).
Proof.
  intros pinv cond cdf tcdf. repeat split.
  - intros state H. unfold logregr_cg_step_final. now rewrite H.
  - intros state H. unfold logregr_irls_step_final. now rewrite H.
  - intros state H. unfold logregr_igd_step_final. now rewrite H.
  - intros state H. unfold robust_logregr_step_final. now rewrite H.
  - intros state H. unfold marginal_logregr_step_final. now rewrite H.
Qed.

Lemma final_of_empty_state_is_null_witness :
  logregr_cg_step_final cg_initial = Null /\
  logregr_igd_step_final igd_initial = Null.
Proof.
  pose proof (final_of_empty_state_is_null
                (fun M => M) (fun _ => 0) (fun _ => 0) (fun _ _ => 0)) as H.
  split.
  - exact (proj1 H cg_initial eq_refl).
  - exact (proj1 (proj2 (proj2 H)) igd_initial eq_refl).
Defined.

(** ** C3: what a row transition accumulates *)

Lemma ln_2_neq_0 : ln 2 <> 0.
Proof.
  assert (H : 0 < ln 2) by (rewrite <- ln_1; apply ln_increasing; lra).
  lra.
Qed.

(** C3, as the specification states it, fails for the IGD variant: the
    transition of [igd_running] on the row [x = [1]], [y = +1] leaves
    [logLikelihood] and [X_transp_AX] as they were, where the claim has
    [ln (1 + e^0)] subtracted and [x x^T / 4] added. *)
Lemma igd_transition_accumulates_nothing :
  let x := [1] in
  let xc := dot x (IGD.coef igd_running) in
  let state' := logregr_igd_step_transition igd_running true x None in
  IGD.logLikelihood state'
    <> IGD.logLikelihood igd_running - ln (1 + exp (- label true * xc)) /\
  IGD.X_transp_AX state'
    <> madd (IGD.X_transp_AX igd_running)
            (mscale (outer x x) (sigma xc * sigma (- xc))).
Proof.
  cbn. replace (1 * 0 + 0) with 0 by lra.
  replace (- (1) * 0) with 0 by lra.
  rewrite Ropp_0, sigma_0, exp_0. split.
  - intros H. apply ln_2_neq_0. replace 2 with (1 + 1) by lra. lra.
  - intros H. injection H as H. lra.
Qed.

(** C3 (amended). For the CG and IRLS variants every transition on a row of
    [w <= 32767] features that fits the state (a first row, with a previous
    state of width [w] if there is one, or a row folded into a state of
    width [w]), with label [y] and features [x], with [xc = x . coef] and
    [a = sigma(xc) * sigma(-xc)] taken from the state the row is folded
    into, adds [x x^T a] to [X_transp_AX] and subtracts [ln (1 + e^(-y xc))]
    from [logLikelihood].  The IGD transition accumulates neither: both
    fields keep the value they have in the state the row is folded into. *)
Theorem transition_accumulation :
  forall (w : Z) (y : bool) (x : ColumnVector),
    (0 <= w <= layout_width_max)%Z ->
    Z.of_nat (length x) = w ->
    (forall (state : CG.t) (previous : option CG.t),
       cg_row_fits w state previous ->
       let s0 := cg_row_state state x previous in
       let s' := logregr_cg_step_transition state y x previous in
       let xc := dot x (CG.coef s0) in
       let a := sigma xc * sigma (- xc) in
       CG.X_transp_AX s' = madd (CG.X_transp_AX s0) (mscale (outer x x) a) /\
       CG.logLikelihood s'
         = CG.logLikelihood s0 - ln (1 + exp (- label y * xc))) /\
    (forall (state : IRLS.t) (previous : option IRLS.t),
       irls_row_fits w state previous ->
       let s0 := irls_row_state state x previous in
       let s' := logregr_irls_step_transition state y x previous in
       let xc := dot x (IRLS.coef s0) in
       let a := sigma xc * sigma (- xc) in
       IRLS.X_transp_AX s'
       = madd (IRLS.X_transp_AX s0) (mscale (outer x x) a) /\
       IRLS.logLikelihood s'
         = IRLS.logLikelihood s0 - ln (1 + exp (- label y * xc))) /\
    (forall (state : IGD.t) (previous : option IGD.t),
       igd_row_fits w state previous ->
       let s0 := igd_row_state state x previous in
       let s' := logregr_igd_step_transition state y x previous in
       IGD.X_transp_AX s' = IGD.X_transp_AX s0 /\
       IGD.logLikelihood s' = IGD.logLikelihood s0).
Proof.
  intros w y x Hw Hx.
  assert (Egt : (Z.of_nat (length x) >? uint16_max)%Z = false).
  { unfold layout_width_max in Hw. unfold uint16_max.
    destruct (Z.gtb_spec (Z.of_nat (length x)) 65535); [lia | reflexivity]. }
  repeat split.
  all: unfold cg_row_state, logregr_cg_step_transition, irls_row_state,
         logregr_irls_step_transition, igd_row_state,
         logregr_igd_step_transition.
  all: match goal with
       | |- context [(?n =? 0)%Z] => destruct (n =? 0)%Z
       end; [| reflexivity].
  all: rewrite Egt.
  all: destruct previous; reflexivity.
Qed.

Lemma transition_accumulation_witness :
  CG.logLikelihood (logregr_cg_step_transition cg_initial true [1; 2] None)
  = CG.logLikelihood (cg_row_state cg_initial [1; 2] None)
    - ln (1 + exp (- label true
                     * dot [1; 2]
                         (CG.coef (cg_row_state cg_initial [1; 2] None)))).
Proof.
  refine (proj2 (proj1 (transition_accumulation 2 true [1; 2] _ _)
                   cg_initial None _)).
  - unfold layout_width_max. lia.
  - reflexivity.
  - exact I.
Defined.

(** ** C4: the width guard of the first row *)

Lemma wide_row_length : (Z.of_nat (length wide_row) > uint16_max)%Z.
Proof.
  unfold wide_row. rewrite repeat_length, Z2Nat.id by lia.
  unfold uint16_max. lia.
Qed.

Lemma robust_wide_row_no_state (state : Robust.t) (y : bool)
  (x coef : ColumnVector) :
  (Z.of_nat (length x) > uint16_max)%Z ->
  (0 <= Robust.widthOfX state <= uint16_max)%Z ->
  robust_logregr_step_transition_run state y x coef = None.
Proof.
  intros Hx Hw.
  unfold robust_logregr_step_transition_run, robust_shapes_agree.
  replace (Z.of_nat (length x) =? Robust.widthOfX state)%Z with false
    by (symmetry; apply Z.eqb_neq; lia).
  reflexivity.
Qed.

Lemma marginal_wide_row_no_state (state : Marginal.t)
  (x coef : ColumnVector) :
  (Z.of_nat (length x) > uint16_max)%Z ->
  (0 <= Marginal.widthOfX state <= uint16_max)%Z ->
  marginal_logregr_step_transition_run state x coef = None.
Proof.
  intros Hx Hw.
  unfold marginal_logregr_step_transition_run, marginal_shapes_agree.
  replace (Z.of_nat (length x) =? Marginal.widthOfX state)%Z with false
    by (symmetry; apply Z.eqb_neq; lia).
  reflexivity.
Qed.

(** C4, as the specification states it, fails for the robust-variance and
    marginal-effects variants: their transitions have no width guard and
    their states no status, so a fresh state given the 65536-feature row
    [wide_row] is not returned, marked or unmarked: the transition works on
    a row that does not have the shape of the state's views and returns no
    state. *)
Lemma robust_and_marginal_do_not_reject_wide_row :
  Robust.numRows robust_initial = 0%Z /\
  Marginal.numRows marginal_initial = 0%Z /\
  (Z.of_nat (length wide_row) > uint16_max)%Z /\
  robust_logregr_step_transition_run robust_initial true wide_row wide_row
  <> Some robust_initial /\
  marginal_logregr_step_transition_run marginal_initial wide_row wide_row
  <> Some marginal_initial.
Proof.
  split; [reflexivity |]. split; [reflexivity |].
  split; [apply wide_row_length |]. split.
  - rewrite robust_wide_row_no_state; [discriminate | apply wide_row_length |].
    cbn. unfold uint16_max. lia.
  - rewrite marginal_wide_row_no_state;
      [discriminate | apply wide_row_length |].
    cbn. unfold uint16_max. lia.
Qed.

(** C4 (amended). For the CG, IRLS and IGD variants a transition applied to
    a state with [numRows = 0] and a feature vector longer than 65535 returns
    that state with [status] set to TERMINATED and every other field
    untouched.  The robust-variance and marginal-effects transitions perform
    no such test and their states have no status: on such a row, which is
    longer than the width of any state, they return no state. *)
Theorem wide_row_guard :
  forall (y : bool) (x : ColumnVector),
    (Z.of_nat (length x) > uint16_max)%Z ->
    (forall (state : CG.t) (previous : option CG.t),
       CG.numRows state = 0%Z ->
       logregr_cg_step_transition state y x previous
       = CG.mk (CG.iteration state) (CG.widthOfX state) (CG.coef state)
               (CG.dir state) (CG.grad state) (CG.beta state)
               (CG.numRows state) (CG.gradNew state) (CG.X_transp_AX state)
               (CG.logLikelihood state) TERMINATED) /\
    (forall (state : IRLS.t) (previous : option IRLS.t),
       IRLS.numRows state = 0%Z ->
       logregr_irls_step_transition state y x previous
       = IRLS.mk (IRLS.widthOfX state) (IRLS.coef state) (IRLS.numRows state)
                 (IRLS.X_transp_Az state) (IRLS.X_transp_AX state)
                 (IRLS.logLikelihood state) TERMINATED) /\
    (forall (state : IGD.t) (previous : option IGD.t),
       IGD.numRows state = 0%Z ->
       logregr_igd_step_transition state y x previous
       = IGD.mk (IGD.widthOfX state) (IGD.stepsize state) (IGD.coef state)
                (IGD.numRows state) (IGD.X_transp_AX state)
                (IGD.logLikelihood state) TERMINATED) /\
    (forall (state : Robust.t) (coef : ColumnVector),
       (0 <= Robust.widthOfX state <= uint16_max)%Z ->
       robust_logregr_step_transition_run state y x coef = None) /\
    (forall (state : Marginal.t) (coef : ColumnVector),
       (0 <= Marginal.widthOfX state <= uint16_max)%Z ->
       marginal_logregr_step_transition_run state x coef = None).
Proof.
  intros y x Hlen.
  assert (Egt : (Z.of_nat (length x) >? uint16_max)%Z = true)
    by (apply Z.gtb_lt; lia).
  split; [| split; [| split; [| split]]].
  - intros state previous H0. apply Z.eqb_eq in H0.
    unfold logregr_cg_step_transition. rewrite H0, Egt. reflexivity.
  - intros state previous H0. apply Z.eqb_eq in H0.
    unfold logregr_irls_step_transition. rewrite H0, Egt. reflexivity.
  - intros state previous H0. apply Z.eqb_eq in H0.
    unfold logregr_igd_step_transition. rewrite H0, Egt. reflexivity.
  - intros state coef Hw. now apply robust_wide_row_no_state.
  - intros state coef Hw. now apply marginal_wide_row_no_state.
Qed.

Lemma wide_row_guard_witness :
  logregr_cg_step_transition cg_initial true wide_row None = cg_rejected /\
  robust_logregr_step_transition_run robust_initial true wide_row wide_row
  = None.
Proof.
  split.
  - exact (proj1 (wide_row_guard true wide_row wide_row_length)
             cg_initial None eq_refl).
  - apply (proj1 (proj2 (proj2 (proj2
             (wide_row_guard true wide_row wide_row_length))))).
    cbn. unfold uint16_max. lia.
Defined.

(** ** C5: merging with a state without rows *)

(** C5, as the specification states it, fails when the state [A] has no rows
    itself: merging the rejected state [cg_rejected] (no rows, TERMINATED)
    with the initial state on its right returns the initial state, and the
    TERMINATED status is gone. *)
Lemma empty_state_is_not_a_right_identity :
  CG.numRows cg_initial = 0%Z /\
  logregr_cg_step_merge_states cg_rejected cg_initial = Some cg_initial /\
  logregr_cg_step_merge_states cg_rejected cg_initial <> Some cg_rejected.
Proof.
  split; [reflexivity |]. split; [reflexivity |].
  intros H. apply (f_equal (option_map CG.status)) in H.
  cbn in H. discriminate H.
Qed.

(** C5 (amended). For every variant, a state [Z] with [numRows = 0] merged on
    the left of any state [A] gives exactly [A]; merged on the right of a
    state [A] with [numRows <> 0] it gives exactly [A]; and when [A] has no
    rows either, the merge of [A] with [Z] on the right gives [Z]. *)
Theorem merge_with_empty_state :
  (forall A Z : CG.t, CG.numRows Z = 0%Z ->
     logregr_cg_step_merge_states Z A = Some A /\
     (CG.numRows A <> 0%Z -> logregr_cg_step_merge_states A Z = Some A) /\
     (CG.numRows A = 0%Z -> logregr_cg_step_merge_states A Z = Some Z)) /\
  (forall A Z : IRLS.t, IRLS.numRows Z = 0%Z ->
     logregr_irls_step_merge_states Z A = Some A /\
     (IRLS.numRows A <> 0%Z -> logregr_irls_step_merge_states A Z = Some A) /\
     (IRLS.numRows A = 0%Z -> logregr_irls_step_merge_states A Z = Some Z)) /\
  (forall A Z : IGD.t, IGD.numRows Z = 0%Z ->
     logregr_igd_step_merge_states Z A = Some A /\
     (IGD.numRows A <> 0%Z -> logregr_igd_step_merge_states A Z = Some A) /\
     (IGD.numRows A = 0%Z -> logregr_igd_step_merge_states A Z = Some Z)) /\
  (forall A Z : Robust.t, Robust.numRows Z = 0%Z ->
     robust_logregr_step_merge_states Z A = Some A /\
     (Robust.numRows A <> 0%Z ->
      robust_logregr_step_merge_states A Z = Some A) /\
     (Robust.numRows A = 0%Z ->
      robust_logregr_step_merge_states A Z = Some Z)) /\
  (forall A Z : Marginal.t, Marginal.numRows Z = 0%Z ->
     marginal_logregr_step_merge_states Z A = Some A /\
     (Marginal.numRows A <> 0%Z ->
      marginal_logregr_step_merge_states A Z = Some A) /\
     (Marginal.numRows A = 0%Z ->
      marginal_logregr_step_merge_states A Z = Some Z)).
Proof.
  repeat split.
  all: unfold logregr_cg_step_merge_states, logregr_irls_step_merge_states,
         logregr_igd_step_merge_states, robust_logregr_step_merge_states,
         marginal_logregr_step_merge_states.
  all: try intros HA.
  all: try match goal with
           | HZ : _ = 0%Z, HA : _ = 0%Z |- _ => rewrite HA; reflexivity
           end.
  all: try match goal with
           | HZ : _ = 0%Z, HA : _ <> 0%Z |- _ =>
               apply Z.eqb_neq in HA; rewrite HA, HZ; reflexivity
           end.
  all: match goal with HZ : _ = 0%Z |- _ => rewrite HZ; reflexivity end.
Qed.

Lemma merge_with_empty_state_witness :
  logregr_cg_step_merge_states cg_initial cg_one_row = Some cg_one_row /\
  logregr_cg_step_merge_states cg_one_row cg_initial = Some cg_one_row.
Proof.
  destruct (proj1 merge_with_empty_state cg_one_row cg_initial eq_refl)
    as [Hl [Hr _]].
  split; [exact Hl |]. apply Hr.
  rewrite cg_one_row_eq. cbn. lia.
Defined.

(** ** C6: the IGD merge averages the models *)

Lemma weighted_pair (p q : R) (u v : ColumnVector) :
  p + q <> 0 ->
  vadd (vscale (p / (p + q)) u) (vscale (q / (p + q)) v)
  = map (fun e => e / (p + q)) (vadd (vscale p u) (vscale q v)).
Proof.
  intros H. unfold vadd, vscale.
  rewrite !zipWith_map, map_zipWith.
  apply zipWith_ext. intros a b. field. exact H.
Qed.

Lemma weighted_merge (p q : R) (u v : ColumnVector) :
  p <> 0 -> q <> 0 -> p + q <> 0 ->
  vadd (vscale (p / (p + q)) (map (fun e => e / p) u))
       (vscale (q / (p + q)) (map (fun e => e / q) v))
  = map (fun e => e / (p + q)) (vadd u v).
Proof.
  intros Hp Hq H. unfold vadd, vscale.
  rewrite !map_map, zipWith_map, map_zipWith.
  apply zipWith_ext. intros a b. field. auto.
Qed.

Lemma total_rows_app (la lb : list IGD.t) :
  total_rows (la ++ lb) = (total_rows la + total_rows lb)%Z.
Proof.
  induction la as [| s la IH]; cbn; [reflexivity |].
  fold (total_rows (la ++ lb)). fold (total_rows la). lia.
Qed.

Lemma total_rows_nonneg (l : list IGD.t) :
  Forall (fun s => (0 < IGD.numRows s)%Z) l -> (0 <= total_rows l)%Z.
Proof.
  induction 1 as [| s l Hs _ IH]; cbn; [lia |].
  fold (total_rows l). lia.
Qed.

Lemma weighted_sum_length (w : nat) (l : list IGD.t) :
  Forall (fun s => length (IGD.coef s) = w) l ->
  length (weighted_sum w l) = w.
Proof.
  induction 1 as [| s l Hs _ IH]; cbn.
  - apply repeat_length.
  - apply vadd_length; [unfold vscale; now rewrite length_map | exact IH].
Qed.

Lemma weighted_sum_app (w : nat) (la lb : list IGD.t) :
  Forall (fun s => length (IGD.coef s) = w) lb ->
  weighted_sum w (la ++ lb)
  = vadd (weighted_sum w la) (weighted_sum w lb).
Proof.
  intros Hb. induction la as [| s la IH].
  - change (weighted_sum w ([] ++ lb)) with (weighted_sum w lb).
    change (weighted_sum w []) with (vzero w).
    rewrite vadd_comm.
    replace (vzero w) with (vzero (length (weighted_sum w lb)))
      by now rewrite weighted_sum_length.
    now rewrite vadd_vzero_r.
  - change (weighted_sum w ((s :: la) ++ lb))
      with (vadd (vscale (IZR (IGD.numRows s)) (IGD.coef s))
                 (weighted_sum w (la ++ lb))).
    change (weighted_sum w (s :: la))
      with (vadd (vscale (IZR (IGD.numRows s)) (IGD.coef s))
                 (weighted_sum w la)).
    now rewrite IH, vadd_assoc.
Qed.

Lemma igd_merge_tree_invariant (w : Z) (t : merge_tree) :
  Forall (igd_nonempty_partial w) (leaves t) ->
  (total_rows (leaves t) < 18446744073709551616)%Z ->
  exists M : IGD.t,
    igd_merge_tree t = Some M /\ igd_nonempty_partial w M /\
    IGD.numRows M = total_rows (leaves t) /\
    IGD.coef M = weighted_average (Z.to_nat w) (leaves t).
Proof.
  induction t as [s | l IHl r IHr]; cbn [leaves igd_merge_tree]; intros Hgood Htot.
  - apply Forall_inv in Hgood. exists s.
    destruct Hgood as (Hwf & Hw & Hn).
    split; [reflexivity |]. split; [exact (conj Hwf (conj Hw Hn)) |].
    split; [cbn; lia |].
    unfold weighted_average. cbn.
    replace (IGD.numRows s + 0)%Z with (IGD.numRows s) by lia.
    destruct Hwf as (Hc & _). rewrite Hw in Hc. rewrite <- Hc.
    replace (length (IGD.coef s))
      with (length (vscale (IZR (IGD.numRows s)) (IGD.coef s)))
      by (unfold vscale; now rewrite length_map).
    rewrite vadd_vzero_r. unfold vscale. rewrite map_map.
    rewrite <- (map_id (IGD.coef s)) at 1. apply map_ext.
    intros e. field. apply not_0_IZR. lia.
  - apply Forall_app in Hgood. destruct Hgood as [Hgl Hgr].
    rewrite total_rows_app in Htot.
    assert (Hpos : forall l0, Forall (igd_nonempty_partial w) l0 ->
                              Forall (fun s => (0 < IGD.numRows s)%Z) l0).
    { intros l0 H0. eapply Forall_impl; [| exact H0].
      intros s (_ & _ & Hn). exact Hn. }
    pose proof (total_rows_nonneg _ (Hpos _ Hgl)) as Hl0.
    pose proof (total_rows_nonneg _ (Hpos _ Hgr)) as Hr0.
    destruct (IHl Hgl) as (a & Ea & (Hwfa & Hwa & Hna) & Hta & Hca); [lia |].
    destruct (IHr Hgr) as (b & Eb & (Hwfb & Hwb & Hnb) & Htb & Hcb); [lia |].
    rewrite Ea, Eb. unfold logregr_igd_step_merge_states.
    destruct (IGD.numRows a =? 0)%Z eqn:Eza; [apply Z.eqb_eq in Eza; lia |].
    destruct (IGD.numRows b =? 0)%Z eqn:Ezb; [apply Z.eqb_eq in Ezb; lia |].
    destruct (igd_add_assign_wf a b Hwfa Hwfb) as [Eadd Hwfm]; [congruence |].
    exists (IGD.plus a b). split; [exact Eadd |].
    assert (Hn : IGD.numRows (IGD.plus a b)
                 = (total_rows (leaves l) + total_rows (leaves r))%Z).
    { cbn. rewrite uint64_small; lia. }
    split; [refine (conj Hwfm (conj Hwa _)); lia |].
    split; [rewrite total_rows_app; exact Hn |].
    unfold weighted_average. rewrite total_rows_app, plus_IZR.
    rewrite weighted_sum_app.
    + cbn [IGD.plus IGD.coef]. rewrite Hca, Hcb, Hta, Htb.
      unfold weighted_average.
      apply weighted_merge; try rewrite <- plus_IZR; apply not_0_IZR; lia.
    + eapply Forall_impl; [| exact Hgr].
      intros s ((Hc & _) & Hw & _). now rewrite Hw in Hc.
Qed.

(** C6. Merging two non-empty IGD states [A], [B] of the same shape, with
    row counts [n1], [n2] (their sum below 2^64) and coefficients [c1], [c2],
    gives the coefficient vector [(n1 * c1 + n2 * c2) / (n1 + n2)] and the
    row count [n1 + n2].  Consequently, whatever the merge tree over partial
    states of one width, each with at least one row, the merged state holds
    the sum of their row counts and the average of their coefficient vectors
    weighted by their row counts. *)
Theorem igd_merge_weighted_average :
  (forall A B : IGD.t,
     IGD.size A = IGD.size B ->
     IGD.widthOfX A = IGD.widthOfX B ->
     (0 < IGD.numRows A)%Z -> (0 < IGD.numRows B)%Z ->
     (IGD.numRows A + IGD.numRows B < 18446744073709551616)%Z ->
     exists M : IGD.t,
       logregr_igd_step_merge_states A B = Some M /\
       IGD.coef M
       = map (fun e => e / (IZR (IGD.numRows A) + IZR (IGD.numRows B)))
             (vadd (vscale (IZR (IGD.numRows A)) (IGD.coef A))
                   (vscale (IZR (IGD.numRows B)) (IGD.coef B))) /\
       IGD.numRows M = (IGD.numRows A + IGD.numRows B)%Z) /\
  (forall (w : Z) (t : merge_tree),
     Forall (igd_nonempty_partial w) (leaves t) ->
     (total_rows (leaves t) < 18446744073709551616)%Z ->
     exists M : IGD.t,
       igd_merge_tree t = Some M /\
       IGD.numRows M = total_rows (leaves t) /\
       IGD.coef M = weighted_average (Z.to_nat w) (leaves t)).
Proof.
  split.
  - intros A B Hsize Hw HnA HnB Hsum.
    unfold logregr_igd_step_merge_states.
    destruct (IGD.numRows A =? 0)%Z eqn:EzA; [apply Z.eqb_eq in EzA; lia |].
    destruct (IGD.numRows B =? 0)%Z eqn:EzB; [apply Z.eqb_eq in EzB; lia |].
    unfold IGD.add_assign. rewrite Hsize, Hw, !Z.eqb_refl. cbn [negb orb].
    eexists. split; [reflexivity |]. cbn [IGD.plus IGD.coef IGD.numRows].
    split.
    + apply weighted_pair. rewrite <- plus_IZR. apply not_0_IZR. lia.
    + apply uint64_small. lia.
  - intros w t Hgood Htot.
    destruct (igd_merge_tree_invariant w t Hgood Htot)
      as (M & EM & _ & Hn & Hc).
    exists M. auto.
Qed.

Lemma igd_merge_weighted_average_witness :
  (exists M : IGD.t,
     logregr_igd_step_merge_states igd_part1 igd_part2 = Some M /\
     IGD.numRows M = 4%Z) /\
  (exists M : IGD.t,
     igd_merge_tree (Node (Leaf igd_part1) (Leaf igd_part2)) = Some M /\
     IGD.numRows M = 4%Z).
Proof.
  split.
  - destruct (proj1 igd_merge_weighted_average igd_part1 igd_part2)
      as (M & EM & _ & Hn).
    + reflexivity.
    + reflexivity.
    + cbn. lia.
    + cbn. lia.
    + cbn. lia.
    + exists M. split; [exact EM | exact Hn].
  - destruct (proj2 igd_merge_weighted_average 2%Z
                (Node (Leaf igd_part1) (Leaf igd_part2)))
      as (M & EM & Hn & _).
    + repeat constructor.
    + cbn. lia.
    + exists M. split; [exact EM | exact Hn].
Defined.

(** ** C7: the conjugate-gradient final step *)

(** C7. [logregr_cg_step_final] on a state with [numRows <> 0] returns a
    state.  At iteration 0 it sets [dir = grad = gradNew].  At a later
    iteration, where the denominators [grad . grad] and [dir . dg] with
    [dg = gradNew - grad] are not zero, it sets [beta] to the
    Hestenes-Stiefel quotient [(gradNew . dg) / (dir . dg)], replaced by 0
    when [(gradNew . dg) / (grad . grad) <= denorm_min], then
    [dir = gradNew - beta * dir] and [grad = gradNew].  In both cases, where
    the denominator [dir^T (X^T A X) dir] of the step length is not zero,
    [coef] grows by [((grad . dir) / (dir^T (X^T A X) dir)) * dir], computed
    from the new [grad] and [dir]; [iteration] is incremented.  After one
    transition on [x = [1, 2]], [y = +1] from zero coefficients the state has
    [gradNew = [1/2, 1]] and [logLikelihood = - ln 2], and the first final
    step sets [dir = grad = [1/2, 1]]. *)
Theorem cg_step_final_update :
  (forall state : CG.t,
     CG.numRows state <> 0%Z ->
     let dg := vsub (CG.gradNew state) (CG.grad state) in
     exists state',
       logregr_cg_step_final state = Value state' /\
       (CG.iteration state = 0%Z ->
          CG.dir state' = CG.gradNew state /\
          CG.grad state' = CG.gradNew state) /\
       (CG.iteration state <> 0%Z ->
          dot (CG.grad state) (CG.grad state) <> 0 ->
          dot (CG.dir state) dg <> 0 ->
          CG.beta state' =
            (if Rle_dec (dot (CG.gradNew state) dg
                         / dot (CG.grad state) (CG.grad state)) denorm_min
             then 0
             else dot (CG.gradNew state) dg / dot (CG.dir state) dg) /\
          CG.dir state' =
            vsub (CG.gradNew state) (vscale (CG.beta state') (CG.dir state)) /\
          CG.grad state' = CG.gradNew state) /\
       (CG.iteration state = 0%Z \/
        (dot (CG.grad state) (CG.grad state) <> 0 /\
         dot (CG.dir state) dg <> 0) ->
        dot (vecmat (CG.dir state') (CG.X_transp_AX state)) (CG.dir state')
        <> 0 ->
        CG.coef state' =
          vadd (CG.coef state)
               (vscale (dot (CG.grad state') (CG.dir state')
                        / dot (vecmat (CG.dir state') (CG.X_transp_AX state))
                              (CG.dir state'))
                       (CG.dir state'))) /\
       CG.iteration state' = uint32 (CG.iteration state + 1)) /\
  (CG.coef (CG.initialize 2) = [0; 0] /\
   CG.gradNew cg_one_row = [1 / 2; 1] /\
   CG.logLikelihood cg_one_row = - ln 2 /\
   exists state',
     logregr_cg_step_final cg_one_row = Value state' /\
     CG.dir state' = [1 / 2; 1] /\ CG.grad state' = [1 / 2; 1]).
Proof.
  split.
  - intros state Hrows dg. unfold logregr_cg_step_final.
    destruct (CG.numRows state =? 0)%Z eqn:E0.
    + apply Z.eqb_eq in E0. contradiction.
    + destruct (CG.iteration state =? 0)%Z eqn:Eit.
      * apply Z.eqb_eq in Eit. eexists. split; [reflexivity |]. cbn.
        repeat split; intros; try reflexivity; congruence.
      * apply Z.eqb_neq in Eit. eexists. split; [reflexivity |]. cbn.
        repeat split; intros; try reflexivity; congruence.
  - rewrite cg_one_row_eq. split; [reflexivity |].
    split; [reflexivity |]. split; [reflexivity |].
    unfold logregr_cg_step_final. cbn.
    eexists. split; [reflexivity |]. split; reflexivity.
Qed.

Lemma cg_step_final_update_witness :
  CG.numRows cg_one_row <> 0%Z /\
  exists state',
    logregr_cg_step_final cg_one_row = Value state' /\
    CG.coef state' =
      vadd (CG.coef cg_one_row)
           (vscale (dot (CG.grad state') (CG.dir state')
                    / dot (vecmat (CG.dir state') (CG.X_transp_AX cg_one_row))
                          (CG.dir state'))
                   (CG.dir state')).
Proof.
  assert (H : CG.numRows cg_one_row <> 0%Z)
    by (rewrite cg_one_row_eq; cbn; lia).
  assert (Hit : CG.iteration cg_one_row = 0%Z)
    by (rewrite cg_one_row_eq; reflexivity).
  split; [exact H |].
  destruct (proj1 cg_step_final_update cg_one_row H)
    as (s & Hs & Hfirst & _ & Hcoef & _).
  exists s. split; [exact Hs |].
  apply Hcoef; [left; exact Hit |].
  destruct (Hfirst Hit) as [Hd _]. rewrite Hd, cg_one_row_eq.
  cbn. lra.
Defined.

(** ** C8: the sandwich estimator of the robust variance *)

(** *** Products of square matrices *)

Lemma map_nth_seq {A B : Type} (f : A -> B) (d : A) (l : list A) :
  map (fun i => f (nth i l d)) (seq 0 (length l)) = map f l.
Proof.
  induction l as [| a l IH]; [reflexivity |].
  cbn [length seq map nth]. f_equal.
  rewrite <- seq_shift, map_map. exact IH.
Qed.

Lemma copy_loop (l : list R) :
  map (fun i => nth i l 0) (seq 0 (length l)) = l.
Proof.
  rewrite (map_nth_seq (fun e => e) 0 l). apply map_id.
Qed.

Lemma nth_map_seq (f : nat -> R) (n i : nat) :
  (i < n)%nat -> nth i (map f (seq 0 n)) 0 = f i.
Proof.
  intros Hi.
  rewrite (nth_indep _ 0 (f 0%nat)) by (now rewrite length_map, length_seq).
  rewrite map_nth, seq_nth by exact Hi. reflexivity.
Qed.

Lemma col_length (j : nat) (M : Matrix) : length (col j M) = length M.
Proof. unfold col. apply length_map. Qed.

Lemma ncols_square (w : nat) (M : Matrix) : square w M -> ncols M = w.
Proof.
  intros [Hlen Hrows]. unfold ncols.
  destruct Hrows as [| r M Hr _]; [exact Hlen | exact Hr].
Qed.

Lemma nth_row_map {A : Type} (f : A -> list R) (l : list A) (d : A) (i : nat) :
  (i < length l)%nat -> nth i (map f l) [] = f (nth i l d).
Proof.
  intros Hi. rewrite (nth_indep _ [] (f d)) by now rewrite length_map.
  apply map_nth.
Qed.

Lemma square_row (w : nat) (M : Matrix) (i : nat) :
  square w M -> (i < w)%nat -> length (nth i M []) = w.
Proof.
  intros [HM Hrows] Hi. rewrite Forall_forall in Hrows.
  apply Hrows, nth_In. now rewrite HM.
Qed.

Lemma matrix_ext (w : nat) (M N : Matrix) :
  square w M -> square w N ->
  (forall i j, (i < w)%nat -> (j < w)%nat ->
     nth j (nth i M []) 0 = nth j (nth i N []) 0) ->
  M = N.
Proof.
  intros HM HN H.
  apply (nth_ext _ _ [] []); [destruct HM, HN; congruence |].
  intros i Hi. replace (length M) with w in Hi by (destruct HM; congruence).
  apply (nth_ext _ _ 0 0).
  - now rewrite (square_row w M), (square_row w N).
  - intros j Hj. rewrite (square_row w M) in Hj by assumption. now apply H.
Qed.

Lemma nth_col (M : Matrix) (i j : nat) :
  nth i (col j M) 0 = nth j (nth i M []) 0.
Proof.
  revert i. induction M as [| r M IH]; intros [| i]; cbn; auto.
  all: now destruct j.
Qed.

Lemma mmul_square (w : nat) (A B : Matrix) :
  square w A -> square w B -> square w (mmul A B).
Proof.
  intros [HA _] HB. split.
  - unfold mmul. now rewrite length_map.
  - unfold mmul. apply Forall_map, Forall_forall. intros row _.
    now rewrite length_map, length_seq, (ncols_square w).
Qed.

Lemma mmul_row (w : nat) (A B : Matrix) (i : nat) :
  square w A -> (i < w)%nat ->
  nth i (mmul A B) [] = vecmat (nth i A []) B.
Proof.
  intros [HA _] Hi. unfold mmul.
  rewrite (nth_row_map _ A []) by lia. reflexivity.
Qed.

Lemma nth_vecmat (w : nat) (v : ColumnVector) (B : Matrix) (j : nat) :
  square w B -> (j < w)%nat -> nth j (vecmat v B) 0 = dot v (col j B).
Proof.
  intros HB Hj. unfold vecmat. rewrite (ncols_square w) by assumption.
  now rewrite nth_map_seq.
Qed.

Lemma mmul_entry (w : nat) (A B : Matrix) (i j : nat) :
  square w A -> square w B -> (i < w)%nat -> (j < w)%nat ->
  nth j (nth i (mmul A B) []) 0 = dot (nth i A []) (col j B).
Proof.
  intros HA HB Hi Hj.
  rewrite (mmul_row w) by assumption. now apply (nth_vecmat w).
Qed.

Lemma trans_square (w : nat) (V : Matrix) : square w V -> square w (trans V).
Proof.
  intros HV. pose proof (ncols_square w V HV) as Hn. destruct HV as [HV _].
  unfold trans. split.
  - now rewrite length_map, length_seq.
  - apply Forall_map, Forall_forall. intros j _. now rewrite col_length.
Qed.

Lemma trans_entry (w : nat) (V : Matrix) (i j : nat) :
  square w V -> (i < w)%nat -> (j < w)%nat ->
  nth j (nth i (trans V) []) 0 = nth i (nth j V []) 0.
Proof.
  intros HV Hi Hj. unfold trans.
  rewrite (nth_row_map _ _ 0%nat)
    by now rewrite length_seq, (ncols_square w).
  rewrite seq_nth by now rewrite (ncols_square w).
  apply nth_col.
Qed.

Lemma dot_nil_r (u : ColumnVector) : dot u [] = 0.
Proof. now destruct u. Qed.

Lemma dot_map_zero {A : Type} (l : list A) (c : ColumnVector) :
  dot (map (fun _ => 0) l) c = 0.
Proof.
  revert c. induction l as [| a l IH]; intros [| c0 c]; cbn; auto.
  rewrite IH. ring.
Qed.

Lemma dot_map_linear {A : Type} (x : R) (f g : A -> R) (l : list A)
  (c : ColumnVector) :
  dot (map (fun j => x * f j + g j) l) c
  = x * dot (map f l) c + dot (map g l) c.
Proof.
  revert c. induction l as [| a l IH]; intros [| c0 c]; cbn; try ring.
  rewrite IH. ring.
Qed.

Lemma dot_vecmat (n : nat) (B : Matrix) (c : ColumnVector) :
  Forall (fun r => length r = n) B ->
  forall a : ColumnVector,
    dot (map (fun j => dot a (col j B)) (seq 0 n)) c
    = dot a (map (fun b => dot b c) B).
Proof.
  induction 1 as [| r B Hr _ IH]; intros a.
  - cbn [col map].
    rewrite (map_ext _ (fun _ => 0)) by (intros; apply dot_nil_r).
    now rewrite dot_map_zero, dot_nil_r.
  - destruct a as [| x a].
    + cbn [dot]. now rewrite dot_map_zero.
    + cbn [col map dot].
      rewrite dot_map_linear, IH. f_equal. f_equal.
      rewrite <- Hr. now rewrite copy_loop.
Qed.

Lemma col_mmul (w : nat) (B C : Matrix) (j : nat) :
  square w C -> (j < w)%nat ->
  col j (mmul B C) = map (fun b => dot b (col j C)) B.
Proof.
  intros HC Hj. unfold col at 1, mmul. rewrite map_map.
  apply map_ext. intros b.
  change (nth j (vecmat b C) 0 = dot b (col j C)).
  now apply (nth_vecmat w).
Qed.

Lemma mmul_assoc (w : nat) (A B C : Matrix) :
  square w A -> square w B -> square w C ->
  mmul (mmul A B) C = mmul A (mmul B C).
Proof.
  intros HA HB HC.
  apply (matrix_ext w); auto using mmul_square.
  intros i j Hi Hj.
  rewrite !(mmul_entry w) by auto using mmul_square.
  rewrite (mmul_row w) by assumption.
  rewrite (col_mmul w) by assumption.
  unfold vecmat. rewrite (ncols_square w) by assumption.
  apply dot_vecmat. now destruct HB.
Qed.

Lemma dot_unit_row (i : nat) (a : R) (n : nat) :
  forall (s : nat) (c : ColumnVector),
    dot (map (fun k => if (i =? k)%nat then a else 0) (seq s n)) c
    = if ((s <=? i)%nat && (i <? s + n)%nat)%bool
      then a * nth (i - s) c 0 else 0.
Proof.
  induction n as [| n IH]; intros s c.
  - cbn [seq map dot].
    destruct (Nat.leb_spec s i), (Nat.ltb_spec i (s + 0)); cbn; auto; lia.
  - cbn [seq map]. destruct c as [| c0 c].
    + cbn [dot].
      destruct ((s <=? i)%nat && (i <? s + S n)%nat)%bool; [| reflexivity].
      destruct (i - s)%nat; cbn; ring.
    + cbn [dot]. rewrite IH.
      destruct (Nat.eqb_spec i s) as [-> | Hne].
      * replace ((S s <=? s)%nat) with false
          by (symmetry; apply Nat.leb_gt; lia).
        replace ((s <=? s)%nat) with true by (symmetry; apply Nat.leb_le; lia).
        replace ((s <? s + S n)%nat) with true
          by (symmetry; apply Nat.ltb_lt; lia).
        rewrite Nat.sub_diag. cbn. ring.
      * destruct (Nat.leb_spec (S s) i), (Nat.ltb_spec i (S s + n)),
          (Nat.leb_spec s i), (Nat.ltb_spec i (s + S n));
          cbn [andb]; try lia; try ring.
        replace (i - s)%nat with (S (i - S s)) by lia. cbn [nth]. ring.
Qed.

Lemma diag_matrix_square (ev : list R) :
  square (length ev) (diag_matrix ev).
Proof.
  unfold diag_matrix. split.
  - now rewrite length_map, length_seq.
  - apply Forall_map, Forall_forall. intros i _.
    now rewrite length_map, length_seq.
Qed.

Lemma diag_matrix_row (ev : list R) (i : nat) :
  (i < length ev)%nat ->
  nth i (diag_matrix ev) []
  = map (fun j => if (i =? j)%nat then nth i ev 0 else 0)
        (seq 0 (length ev)).
Proof.
  intros Hi. unfold diag_matrix.
  rewrite (nth_row_map _ _ 0%nat) by now rewrite length_seq.
  now rewrite seq_nth.
Qed.

Lemma diag_matrix_entry (ev : list R) (i j : nat) :
  (i < length ev)%nat -> (j < length ev)%nat ->
  nth j (nth i (diag_matrix ev) []) 0
  = if (i =? j)%nat then nth i ev 0 else 0.
Proof.
  intros Hi Hj. rewrite diag_matrix_row by assumption.
  now rewrite nth_map_seq.
Qed.

Lemma mmul_diag_entry (w : nat) (ev : list R) (A : Matrix) (i j : nat) :
  length ev = w -> square w A -> (i < w)%nat -> (j < w)%nat ->
  nth j (nth i (mmul (diag_matrix ev) A) []) 0
  = nth i ev 0 * nth j (nth i A []) 0.
Proof.
  intros Hev HA Hi Hj.
  pose proof (diag_matrix_square ev) as HD. rewrite Hev in HD.
  rewrite (mmul_entry w) by assumption.
  rewrite diag_matrix_row by lia.
  rewrite dot_unit_row, Hev.
  replace ((0 <=? i)%nat && (i <? 0 + w)%nat)%bool with true.
  - now rewrite Nat.sub_0_r, nth_col.
  - symmetry. apply andb_true_iff. split;
      [apply Nat.leb_le | apply Nat.ltb_lt]; lia.
Qed.

Lemma identity_square (w : nat) : square w (identity w).
Proof.
  unfold identity. pose proof (diag_matrix_square (repeat 1 w)) as H.
  now rewrite repeat_length in H.
Qed.

Lemma mmul_identity_l (w : nat) (A : Matrix) :
  square w A -> mmul (identity w) A = A.
Proof.
  intros HA. apply (matrix_ext w); auto using mmul_square, identity_square.
  intros i j Hi Hj. unfold identity.
  rewrite (mmul_diag_entry w) by (auto; apply repeat_length).
  rewrite (nth_indep _ 0 1) by now rewrite repeat_length.
  rewrite nth_repeat. ring.
Qed.

(** With orthonormal eigenvectors, products of matrices with the same
    eigenvectors multiply their middle factors. *)
Lemma conjugate_product (w : nat) (V X Y : Matrix) :
  square w V -> square w X -> square w Y ->
  mmul (trans V) V = identity w ->
  mmul (mmul (mmul V X) (trans V)) (mmul (mmul V Y) (trans V))
  = mmul (mmul V (mmul X Y)) (trans V).
Proof.
  intros HV HX HY Horth.
  pose proof (trans_square w V HV) as HT.
  rewrite (mmul_assoc w (mmul V X)) by auto using mmul_square.
  rewrite <- (mmul_assoc w (trans V) (mmul V Y)) by auto using mmul_square.
  rewrite <- (mmul_assoc w (trans V) V Y) by assumption.
  rewrite Horth, (mmul_identity_l w) by assumption.
  rewrite <- (mmul_assoc w (mmul V X) Y) by auto using mmul_square.
  now rewrite (mmul_assoc w V X Y) by assumption.
Qed.

Lemma pinv_eigenvalue_reflexive (tol l : R) :
  0 <= tol ->
  pinv_eigenvalue tol l * (l * pinv_eigenvalue tol l) = pinv_eigenvalue tol l.
Proof.
  intros Htol. unfold pinv_eigenvalue.
  destruct (Rle_dec l tol); [ring | field; lra].
Qed.

Lemma diag_pinv_reflexive (tol : R) (ev : list R) :
  0 <= tol ->
  let D := diag_matrix ev in
  let Dp := diag_matrix (map (pinv_eigenvalue tol) ev) in
  mmul (mmul Dp D) Dp = Dp.
Proof.
  intros Htol D Dp.
  assert (Hlen : length (map (pinv_eigenvalue tol) ev) = length ev)
    by apply length_map.
  pose proof (diag_matrix_square ev) as HD. fold D in HD.
  pose proof (diag_matrix_square (map (pinv_eigenvalue tol) ev)) as HDp.
  fold Dp in HDp. rewrite Hlen in HDp.
  rewrite (mmul_assoc (length ev)) by assumption.
  apply (matrix_ext (length ev)); auto using mmul_square.
  intros i j Hi Hj. unfold Dp at 1, D.
  rewrite (mmul_diag_entry (length ev)) by auto using mmul_square.
  rewrite (mmul_diag_entry (length ev)) by auto.
  unfold Dp. rewrite diag_matrix_entry by lia.
  rewrite (nth_indep _ 0 (pinv_eigenvalue tol 0)) by lia.
  rewrite map_nth.
  destruct (i =? j)%nat; [apply pinv_eigenvalue_reflexive; exact Htol | ring].
Qed.

(** The pseudo-inverse [P] of [H] obtained from the eigen-decomposition of
    [H] satisfies [P H P = P]. *)
Lemma eigen_pseudoInverse_reflexive (w : nat) (tol : R) (H V : Matrix)
  (ev : list R) :
  0 <= tol -> is_eigendecomposition w H V ev ->
  let P := eigen_pseudoInverse tol V ev in
  mmul (mmul P H) P = P.
Proof.
  intros Htol (HV & Hev & Horth & HH) P. subst H. unfold P, eigen_pseudoInverse.
  assert (HD : square w (diag_matrix ev))
    by (rewrite <- Hev; apply diag_matrix_square).
  assert (HDp : square w (diag_matrix (map (pinv_eigenvalue tol) ev))).
  { rewrite <- Hev, <- (length_map (pinv_eigenvalue tol)).
    apply diag_matrix_square. }
  rewrite (conjugate_product w) by assumption.
  rewrite (conjugate_product w) by auto using mmul_square.
  now rewrite (diag_pinv_reflexive tol ev Htol).
Qed.

Lemma robust_degenerate_eq :
  robust_degenerate
  = Robust.mk 0 2 [0; 0] 1 [[9 / 4; 0]; [3; 4]] [[9 / 4; 3]; [3; 4]].
Proof.
  unfold robust_degenerate, robust_logregr_step_transition. cbn.
  replace (3 * 0 + (4 * 0 + 0)) with 0 by lra.
  replace (- (1) * 0) with 0 by lra.
  rewrite Ropp_0, sigma_0.
  f_equal; repeat (f_equal; try lra).
Qed.

(** C8. The final step of the robust variance, on a state with
    [numRows <> 0], computes [bread = pseudoInverse(X_transp_AX)] and
    [variance = bread * meat * bread] and returns the tuple
    [robuststateToResult] builds from the diagonal of [variance]: the standard
    errors are the square roots of that diagonal.  In the degenerate case
    [meat] is the symmetric matrix [X^T A X] of which the state stores the
    lower triangle; with [bread] its pseudo-inverse, obtained from its
    eigen-decomposition with a tolerance that is not negative, the variance
    is [bread] itself and the tuple is the one built from the diagonal of
    [bread]. *)
Theorem robust_final_sandwich :
  forall (pseudoInverse : Matrix -> Matrix) (normal_cdf : R -> R)
         (state : Robust.t),
    Robust.numRows state <> 0%Z ->
    let bread := pseudoInverse (Robust.X_transp_AX state) in
    let variance := mmul (mmul bread (Robust.meat state)) bread in
    exists r : RobustResult,
      robust_logregr_step_final pseudoInverse normal_cdf state = Value r /\
      r = robuststateToResult normal_cdf (Robust.coef state)
            (diagonal variance) /\
      rob_stdErr r
      = map (fun i => sqrt (nth i (diagonal variance) 0))
            (seq 0 (length (Robust.coef state))) /\
      (forall (w : nat) (V : Matrix) (ev : list R) (tol : R),
         0 <= tol ->
         agrees_on_lower (Robust.meat state) (Robust.X_transp_AX state) ->
         is_eigendecomposition w (Robust.meat state) V ev ->
         bread = eigen_pseudoInverse tol V ev ->
         variance = bread /\
         r = robuststateToResult normal_cdf (Robust.coef state)
               (diagonal bread)).
Proof.
  intros pinv cdf state Hrows bread variance.
  unfold robust_logregr_step_final.
  destruct (Robust.numRows state =? 0)%Z eqn:E0;
    [apply Z.eqb_eq in E0; contradiction |].
  eexists. split; [reflexivity |]. fold bread. fold variance.
  split; [reflexivity |]. split; [reflexivity |].
  intros w V ev tol Htol _ Hdec Hbread.
  assert (Hv : variance = bread).
  { unfold variance. rewrite Hbread.
    exact (eigen_pseudoInverse_reflexive w tol _ V ev Htol Hdec). }
  split; [exact Hv | now rewrite Hv].
Qed.

Lemma robust_final_sandwich_witness :
  let bread := eigen_pseudoInverse 0 eigenvectors_3_4 eigenvalues_3_4 in
  mmul (mmul bread (Robust.meat robust_degenerate)) bread = bread.
Proof.
  destruct (robust_final_sandwich
              (fun _ => eigen_pseudoInverse 0 eigenvectors_3_4
                          eigenvalues_3_4)
              (fun _ => 0) robust_degenerate)
    as [r [_ [_ [_ H]]]].
  - rewrite robust_degenerate_eq. cbn. lia.
  - apply (H 2%nat eigenvectors_3_4 eigenvalues_3_4 0).
    + lra.
    + rewrite robust_degenerate_eq. intros i j Hij.
      destruct i as [| [| i]], j as [| [| j]]; cbn; try lra; try lia.
      all: now destruct j.
    + rewrite robust_degenerate_eq.
      split; [split; [reflexivity | repeat constructor] |].
      split; [reflexivity |].
      split; cbn; repeat (f_equal; try lra).
    + reflexivity.
Defined.

(** ** C9: p-values of the marginal effects *)




(** ** C10: the first incremental-gradient transition *)

Lemma uint16_small (z : Z) : (0 <= z <= 65535)%Z -> uint16 z = z.
Proof. intros H. unfold uint16. apply Z.mod_small. lia. Qed.

Lemma map_const_repeat {A B : Type} (c : B) (a : A) (n : nat) :
  map (fun _ => c) (repeat a n) = repeat c n.
Proof. induction n as [| n IH]; cbn; [reflexivity | now rewrite IH]. Qed.

Lemma reset_mzero (w : nat) : map (map (fun _ : R => 0)) (mzero w) = mzero w.
Proof.
  unfold mzero. generalize w at 2 4. intros k.
  induction k as [| k IH]; cbn [repeat map]; [reflexivity |].
  rewrite IH. unfold vzero. rewrite map_const_repeat. reflexivity.
Qed.

(** C10. On the first transition of the first iteration ([numRows = 0], no
    previous state, a row of at most 32767 features, for which the array
    layout is computed without overflow) the coefficient vector the
    gradient update starts from is the constant vector 0.1, not the zero
    vector the allocator hands out: the returned coefficients are
    [0.1 + stepsize * sigma(- (x . 0.1) * y) * y * x] with [stepsize = 0.01],
    and the state holds one row. *)
Theorem igd_first_transition_starts_at_tenth :
  forall (state : IGD.t) (y : bool) (x : ColumnVector),
    IGD.numRows state = 0%Z ->
    (Z.of_nat (length x) <= layout_width_max)%Z ->
    let coef0 := repeat (1 / 10) (length x) in
    IGD.coef (igd_row_state state x None) = coef0 /\
    logregr_igd_step_transition state y x None
    = IGD.mk (Z.of_nat (length x)) (1 / 100)
        (vadd coef0
           (vscale (1 / 100 * sigma (- dot x coef0 * label y) * label y) x))
        1 (mzero (length x)) 0 IN_PROCESS.
Proof.
  intros state y x Hrows Hlen coef0.
  unfold logregr_igd_step_transition, igd_row_state.
  rewrite Hrows. cbn [Z.eqb].
  unfold layout_width_max in Hlen.
  destruct (Z.of_nat (length x) >? uint16_max)%Z eqn:Egt.
  - apply Z.gtb_lt in Egt. unfold uint16_max in Egt. lia.
  - rewrite uint16_small by lia.
    unfold IGD.initialize, IGD.reset, IGD.set_coef. cbn.
    rewrite Nat2Z.id, reset_mzero. unfold vzero.
    rewrite map_const_repeat. split; reflexivity.
Qed.

Lemma igd_first_transition_starts_at_tenth_witness :
  IGD.coef (igd_row_state igd_initial [1; 2] None) = [1 / 10; 1 / 10] /\
  logregr_igd_step_transition igd_initial true [1; 2] None
  = IGD.mk 2 (1 / 100)
      (vadd [1 / 10; 1 / 10]
         (vscale (1 / 100 * sigma (- dot [1; 2] [1 / 10; 1 / 10] * 1) * 1)
                 [1; 2]))
      1 [[0; 0]; [0; 0]] 0 IN_PROCESS.
Proof.
  apply (igd_first_transition_starts_at_tenth igd_initial true [1; 2]).
  - reflexivity.
  - cbn. unfold layout_width_max. lia.
Defined.

(** * Further properties of the code *)

(** ** The distance functions *)

(** X1. For the CG, IRLS and IGD variants the distance between two states
    is non-negative, does not depend on the order of its arguments, is zero
    between states of equal log-likelihood (so between a state and itself),
    and satisfies the triangle inequality. *)
Theorem distance_is_a_pseudo_metric :
  (forall a b c : CG.t,
     0 <= internal_logregr_cg_step_distance a b /\
     internal_logregr_cg_step_distance a b
     = internal_logregr_cg_step_distance b a /\
     internal_logregr_cg_step_distance a a = 0 /\
     internal_logregr_cg_step_distance a c
     <= internal_logregr_cg_step_distance a b
        + internal_logregr_cg_step_distance b c) /\
  (forall a b c : IRLS.t,
     0 <= internal_logregr_irls_step_distance a b /\
     internal_logregr_irls_step_distance a b
     = internal_logregr_irls_step_distance b a /\
     internal_logregr_irls_step_distance a a = 0 /\
     internal_logregr_irls_step_distance a c
     <= internal_logregr_irls_step_distance a b
        + internal_logregr_irls_step_distance b c) /\
  (forall a b c : IGD.t,
     0 <= internal_logregr_igd_step_distance a b /\
     internal_logregr_igd_step_distance a b
     = internal_logregr_igd_step_distance b a /\
     internal_logregr_igd_step_distance a a = 0 /\
     internal_logregr_igd_step_distance a c
     <= internal_logregr_igd_step_distance a b
        + internal_logregr_igd_step_distance b c).
Proof.
  assert (H : forall x y z : R,
            0 <= Rabs (x - y) /\ Rabs (x - y) = Rabs (y - x) /\
            Rabs (x - x) = 0 /\ Rabs (x - z) <= Rabs (x - y) + Rabs (y - z)).
  { intros x y z. split; [apply Rabs_pos |].
    split; [apply Rabs_minus_sym |].
    split; [rewrite Rminus_diag; apply Rabs_R0 |].
    replace (x - z) with ((x - y) + (y - z)) by ring. apply Rabs_triang. }
  split; [| split]; intros a b c.
  - apply (H (CG.logLikelihood a) (CG.logLikelihood b) (CG.logLikelihood c)).
  - apply (H (IRLS.logLikelihood a) (IRLS.logLikelihood b)
             (IRLS.logLikelihood c)).
  - apply (H (IGD.logLikelihood a) (IGD.logLikelihood b)
             (IGD.logLikelihood c)).
Qed.

(** ** The logistic function and the weight of a row *)

Lemma sigma_range (x : R) : 0 < sigma x < 1.
Proof.
  assert (Hpos : 0 < exp (- x)) by apply exp_pos.
  unfold sigma. split.
  - apply Rdiv_lt_0_compat; lra.
  - apply (Rmult_lt_reg_r (1 + exp (- x))); [lra |].
    unfold Rdiv. rewrite Rmult_assoc, Rinv_l by lra. lra.
Qed.

Lemma sigma_opp (x : R) : sigma (- x) = 1 - sigma x.
Proof.
  unfold sigma. rewrite Ropp_involutive, exp_Ropp.
  pose proof (exp_pos x). field. split; lra.
Qed.

Lemma weight_range (x : R) : 0 < sigma x * sigma (- x) <= 1 / 4.
Proof.
  rewrite sigma_opp. destruct (sigma_range x) as [Hs0 Hs1].
  generalize dependent (sigma x). intros s Hs0 Hs1. split.
  - apply Rmult_lt_0_compat; lra.
  - assert (0 <= (s - 1 / 2) * (s - 1 / 2)) by apply Rle_0_sqr. lra.
Qed.

Lemma marginal_density_step (state : Marginal.t) (x coef : ColumnVector) :
  Marginal.marginal_effects_per_observation
    (marginal_logregr_step_transition state x coef)
  = Marginal.marginal_effects_per_observation state
    + sigma (dot x coef) * sigma (- dot x coef).
Proof.
  assert (Hg : exp (dot x coef) / (1 + exp (dot x coef))
               = sigma (dot x coef)).
  { unfold sigma. rewrite exp_Ropp. pose proof (exp_pos (dot x coef)).
    field. split; lra. }
  unfold marginal_logregr_step_transition. cbn.
  rewrite Hg, sigma_opp. reflexivity.
Qed.

(** X2. The logistic function takes its values strictly between 0 and 1 and
    satisfies [sigma(-x) = 1 - sigma(x)], the identity the transition
    functions rely on; so the weight [a = sigma(xc) * sigma(-xc)] of a row
    lies in the interval (0, 1/4]. *)
Theorem sigma_reflection :
  forall x : R,
    0 < sigma x < 1 /\
    sigma (- x) = 1 - sigma x /\
    0 < sigma x * sigma (- x) <= 1 / 4.
Proof.
  intros x.
  exact (conj (sigma_range x) (conj (sigma_opp x) (weight_range x))).
Qed.

(** X3. The marginal-effects transition computes the same quantity twice:
    [G_xc * (1 - G_xc)] with [G_xc = e^xc / (1 + e^xc)] is the weight
    [a = sigma(xc) * sigma(-xc)].  So every row adds to
    [marginal_effects_per_observation] a value in (0, 1/4]. *)
Theorem marginal_density_is_the_weight :
  forall (state : Marginal.t) (x coef : ColumnVector),
    let xc := dot x coef in
    let state' := marginal_logregr_step_transition state x coef in
    Marginal.marginal_effects_per_observation state'
    = Marginal.marginal_effects_per_observation state
      + sigma xc * sigma (- xc) /\
    Marginal.marginal_effects_per_observation state
    < Marginal.marginal_effects_per_observation state'
    <= Marginal.marginal_effects_per_observation state + 1 / 4.
Proof.
  intros state x coef xc state'.
  pose proof (marginal_density_step state x coef) as E.
  fold xc in E. fold state' in E.
  pose proof (weight_range xc).
  split; [exact E |]. rewrite E. lra.
Qed.

(** ** Shapes *)

Lemma outer_length (u v : ColumnVector) : length (outer u v) = length u.
Proof. unfold outer. apply length_map. Qed.

Lemma outer_rows (u v : ColumnVector) :
  Forall (fun row => length row = length v) (outer u v).
Proof.
  unfold outer. apply Forall_map. apply Forall_forall.
  intros a _. apply length_map.
Qed.

Lemma mscale_length (M : Matrix) (k : R) : length (mscale M k) = length M.
Proof. unfold mscale. apply length_map. Qed.

Lemma mscale_rows (M : Matrix) (k : R) (w : nat) :
  Forall (fun row => length row = w) M ->
  Forall (fun row => length row = w) (mscale M k).
Proof.
  intros H. unfold mscale. apply Forall_map.
  eapply Forall_impl; [| exact H]. intros row Hrow. cbn.
  now rewrite length_map.
Qed.

Lemma mzero_length (w : nat) : length (mzero w) = w.
Proof. unfold mzero. apply repeat_length. Qed.

Lemma mzero_rows (w : nat) : Forall (fun row => length row = w) (mzero w).
Proof.
  unfold mzero. apply Forall_forall. intros row Hin.
  apply repeat_spec in Hin. subst row. apply repeat_length.
Qed.

Lemma fill_rows (M : Matrix) (w : nat) :
  Forall (fun row => length row = w) M ->
  Forall (fun row => length row = w) (map (map (fun _ : R => 0)) M).
Proof.
  intros H. apply Forall_map. eapply Forall_impl; [| exact H].
  intros row Hrow. cbn. now rewrite length_map.
Qed.

Lemma ln_1_plus_exp_pos (z : R) : 0 < ln (1 + exp z).
Proof.
  rewrite <- ln_1. pose proof (exp_pos z). apply ln_increasing; lra.
Qed.


(** ** The CG aggregate *)

Lemma cg_initialize_wf (w : Z) :
  CG.wf (CG.initialize w) /\ CG.widthOfX (CG.initialize w) = w.
Proof.
  unfold CG.wf, CG.initialize, vzero. cbn.
  rewrite !repeat_length, mzero_length.
  repeat split. apply mzero_rows.
Qed.

Lemma cg_reset_wf (s : CG.t) :
  CG.wf s -> CG.wf (CG.reset s) /\ CG.widthOfX (CG.reset s) = CG.widthOfX s.
Proof.
  intros (Hc & Hd & Hg & Hn & HX & Hrows).
  unfold CG.wf, CG.reset. cbn. rewrite !length_map.
  repeat split; auto. now apply fill_rows.
Qed.

Lemma cg_row_state_wf (w : Z) (state : CG.t) (x : ColumnVector)
  (previous : option CG.t) :
  (0 <= w <= layout_width_max)%Z -> Z.of_nat (length x) = w ->
  cg_previous_ok w previous ->
  (CG.numRows state <> 0%Z -> CG.wf state /\ CG.widthOfX state = w) ->
  CG.wf (cg_row_state state x previous) /\
  CG.widthOfX (cg_row_state state x previous) = w /\
  CG.numRows (cg_row_state state x previous) = CG.numRows state /\
  CG.logLikelihood (cg_row_state state x previous)
  = (if (CG.numRows state =? 0)%Z then 0 else CG.logLikelihood state).
Proof.
  intros Hw Hx Hprev Hstate. unfold cg_row_state, layout_width_max in *.
  destruct (CG.numRows state =? 0)%Z eqn:E0.
  - apply Z.eqb_eq in E0. rewrite Hx, uint16_small by lia.
    destruct previous as [p |].
    + destruct Hprev as [Hp Hpw]. unfold CG.assign.
      destruct (cg_reset_wf p Hp) as [H1 H2].
      refine (conj H1 (conj _ (conj _ _))); [congruence | | reflexivity].
      cbn. now rewrite E0.
    + destruct (cg_initialize_wf w) as [H1 H2].
      refine (conj H1 (conj H2 (conj _ _))); [| reflexivity].
      cbn. now rewrite E0.
  - apply Z.eqb_neq in E0. destruct (Hstate E0) as [H1 H2].
    exact (conj H1 (conj H2 (conj eq_refl eq_refl))).
Qed.

Lemma cg_transition_of_row_state (state : CG.t) (y : bool) (x : ColumnVector)
  (previous : option CG.t) :
  row_accepted (CG.numRows state) x ->
  let s0 := cg_row_state state x previous in
  let xc := dot x (CG.coef s0) in
  logregr_cg_step_transition state y x previous
  = CG.mk (CG.iteration s0) (CG.widthOfX s0) (CG.coef s0) (CG.dir s0)
          (CG.grad s0) (CG.beta s0)
          (uint64 (CG.numRows s0 + 1))
          (vadd (CG.gradNew s0) (vscale (sigma (- label y * xc) * label y) x))
          (madd (CG.X_transp_AX s0)
                (mscale (outer x x) (sigma xc * sigma (- xc))))
          (CG.logLikelihood s0 - ln (1 + exp (- label y * xc)))
          (CG.status s0).
Proof.
  unfold row_accepted, cg_row_state, logregr_cg_step_transition.
  intros Hacc.
  destruct (CG.numRows state =? 0)%Z eqn:E0; [| reflexivity].
  apply Z.eqb_eq in E0.
  destruct (Z.of_nat (length x) >? uint16_max)%Z eqn:Egt;
    [apply Z.gtb_lt in Egt; unfold uint16_max, layout_width_max in *; lia |].
  destruct previous; reflexivity.
Qed.

Lemma cg_transition_step (w : Z) (state : CG.t) (y : bool) (x : ColumnVector)
  (previous : option CG.t) :
  (0 <= w <= layout_width_max)%Z -> Z.of_nat (length x) = w ->
  cg_previous_ok w previous ->
  (CG.numRows state <> 0%Z -> CG.wf state /\ CG.widthOfX state = w) ->
  let s' := logregr_cg_step_transition state y x previous in
  CG.wf s' /\ CG.widthOfX s' = w /\
  CG.numRows s' = uint64 (CG.numRows state + 1) /\
  CG.logLikelihood s'
  < (if (CG.numRows state =? 0)%Z then 0 else CG.logLikelihood state).
Proof.
  intros Hw Hx Hprev Hstate s'.
  destruct (cg_row_state_wf w state x previous Hw Hx Hprev Hstate)
    as (Hwf & Hwidth & Hn & HL).
  assert (Hacc : row_accepted (CG.numRows state) x)
    by (right; lia).
  unfold s'. rewrite (cg_transition_of_row_state state y x previous Hacc).
  cbn. rewrite Hn, <- HL.
  assert (Hlen : length x = Z.to_nat w) by (rewrite <- Hx; now rewrite Nat2Z.id).
  destruct Hwf as (Hc & Hd & Hg & Hgn & HX & Hrows).
  rewrite Hwidth in Hc, Hd, Hg, Hgn, HX, Hrows.
  split.
  - unfold CG.wf. cbn. rewrite Hwidth. repeat split; auto.
    + apply vadd_length; [exact Hgn |]. unfold vscale. now rewrite length_map.
    + apply madd_length; [exact HX |].
      now rewrite mscale_length, outer_length.
    + apply madd_rows; [exact Hrows |]. apply mscale_rows.
      rewrite <- Hlen. apply outer_rows.
  - repeat split; auto.
    pose proof (ln_1_plus_exp_pos
                  (- label y * dot x (CG.coef (cg_row_state state x previous)))).
    lra.
Qed.

Lemma cg_aggregate_running (w : Z) (previous : option CG.t)
  (rows : list (bool * ColumnVector)) :
  (0 <= w <= layout_width_max)%Z -> cg_previous_ok w previous ->
  rows_of_width w rows ->
  forall state : CG.t,
    CG.wf state -> CG.widthOfX state = w ->
    (1 <= CG.numRows state)%Z ->
    (CG.numRows state + Z.of_nat (length rows) < two_pow_64)%Z ->
    let s' := cg_aggregate previous rows state in
    CG.wf s' /\ CG.widthOfX s' = w /\
    CG.numRows s' = (CG.numRows state + Z.of_nat (length rows))%Z /\
    CG.logLikelihood s' <= CG.logLikelihood state.
Proof.
  intros Hw Hprev Hrows.
  induction Hrows as [| row rows Hrow _ IH]; intros state Hwf Hwidth Hn Hsum.
  - cbn. refine (conj Hwf (conj Hwidth (conj _ _))); [lia | lra].
  - cbn [length] in Hsum. rewrite Nat2Z.inj_succ in Hsum.
    destruct (cg_transition_step w state (fst row) (snd row) previous
                Hw Hrow Hprev) as (Hwf1 & Hw1 & Hn1 & HL1); [auto |].
    unfold two_pow_64 in Hsum.
    rewrite uint64_small in Hn1 by lia.
    replace (CG.numRows state =? 0)%Z with false in HL1
      by (symmetry; apply Z.eqb_neq; lia).
    destruct (IH _ Hwf1 Hw1) as (Hwf2 & Hw2 & Hn2 & HL2);
      [lia | unfold two_pow_64; lia |].
    change (cg_aggregate previous (row :: rows) state)
      with (cg_aggregate previous rows
              (logregr_cg_step_transition state (fst row) (snd row) previous)).
    cbn [length]. rewrite Nat2Z.inj_succ.
    refine (conj Hwf2 (conj Hw2 (conj _ _))).
    + rewrite Hn2, Hn1. lia.
    + lra.
Qed.

(** X4. Folding the CG transition over the rows of a partition, all of one
    width [w <= 32767], starting from a state without rows, gives a
    state shaped for width [w] (one the merge function accepts) whose
    [numRows] is the number of rows (below 2^64) and whose [logLikelihood] is
    strictly negative.  The previous state, when there is one, has to be
    shaped for the same width. *)
Theorem cg_aggregate_is_a_partial_state :
  forall (w : Z) (previous : option CG.t) (state : CG.t)
         (row : bool * ColumnVector) (rows : list (bool * ColumnVector)),
    (0 <= w <= layout_width_max)%Z ->
    cg_previous_ok w previous ->
    rows_of_width w (row :: rows) ->
    CG.numRows state = 0%Z ->
    (Z.of_nat (length (row :: rows)) < two_pow_64)%Z ->
    let s' := cg_aggregate previous (row :: rows) state in
    cg_partial w s' /\
    CG.numRows s' = Z.of_nat (length (row :: rows)) /\
    CG.logLikelihood s' < 0.
Proof.
  intros w previous state row rows Hw Hprev Hrows H0 Hlen s'.
  apply Forall_cons_iff in Hrows. destruct Hrows as [Hrow Hrows].
  destruct (cg_transition_step w state (fst row) (snd row) previous
              Hw Hrow Hprev) as (Hwf1 & Hw1 & Hn1 & HL1); [intros H; lia |].
  rewrite H0 in Hn1, HL1. cbn in Hn1, HL1.
  cbn [length] in Hlen. rewrite Nat2Z.inj_succ in Hlen.
  destruct (cg_aggregate_running w previous rows Hw Hprev Hrows _ Hwf1 Hw1)
    as (Hwf2 & Hw2 & Hn2 & HL2); [lia | lia |].
  unfold s'.
  change (cg_aggregate previous (row :: rows) state)
    with (cg_aggregate previous rows
            (logregr_cg_step_transition state (fst row) (snd row) previous)).
  cbn [length]. rewrite Nat2Z.inj_succ.
  split; [| split].
  - split; [exact Hwf2 |]. split; [exact Hw2 |]. rewrite Hn2, Hn1. lia.
  - rewrite Hn2, Hn1. lia.
  - lra.
Qed.

Lemma cg_aggregate_is_a_partial_state_witness :
  cg_partial 2 (cg_aggregate None three_rows cg_initial) /\
  CG.numRows (cg_aggregate None three_rows cg_initial) = 3%Z /\
  CG.logLikelihood (cg_aggregate None three_rows cg_initial) < 0.
Proof.
  apply (cg_aggregate_is_a_partial_state 2 None cg_initial
           (true, [1; 2]) [(false, [0; 1]); (true, [3; 1])]).
  - unfold layout_width_max. lia.
  - exact I.
  - repeat constructor.
  - reflexivity.
  - cbn. unfold two_pow_64. lia.
Defined.


(** ** The IRLS aggregate *)

Lemma irls_initialize_wf (w : Z) :
  IRLS.wf (IRLS.initialize w) /\ IRLS.widthOfX (IRLS.initialize w) = w.
Proof.
  unfold IRLS.wf, IRLS.initialize, vzero. cbn.
  rewrite !repeat_length, mzero_length.
  repeat split. apply mzero_rows.
Qed.

Lemma irls_reset_wf (s : IRLS.t) :
  IRLS.wf s ->
  IRLS.wf (IRLS.reset s) /\ IRLS.widthOfX (IRLS.reset s) = IRLS.widthOfX s.
Proof.
  intros (Hc & Hz & HX & Hrows).
  unfold IRLS.wf, IRLS.reset. cbn. rewrite !length_map.
  repeat split; auto. now apply fill_rows.
Qed.

Lemma irls_row_state_wf (w : Z) (state : IRLS.t) (x : ColumnVector)
  (previous : option IRLS.t) :
  (0 <= w <= layout_width_max)%Z -> Z.of_nat (length x) = w ->
  irls_previous_ok w previous ->
  (IRLS.numRows state <> 0%Z -> IRLS.wf state /\ IRLS.widthOfX state = w) ->
  IRLS.wf (irls_row_state state x previous) /\
  IRLS.widthOfX (irls_row_state state x previous) = w /\
  IRLS.numRows (irls_row_state state x previous) = IRLS.numRows state /\
  IRLS.logLikelihood (irls_row_state state x previous)
  = (if (IRLS.numRows state =? 0)%Z then 0 else IRLS.logLikelihood state).
Proof.
  intros Hw Hx Hprev Hstate. unfold irls_row_state, layout_width_max in *.
  destruct (IRLS.numRows state =? 0)%Z eqn:E0.
  - apply Z.eqb_eq in E0. rewrite Hx, uint16_small by lia.
    destruct previous as [p |].
    + destruct Hprev as [Hp Hpw]. unfold IRLS.assign.
      destruct (irls_reset_wf p Hp) as [H1 H2].
      refine (conj H1 (conj _ (conj _ _))); [congruence | | reflexivity].
      cbn. now rewrite E0.
    + destruct (irls_initialize_wf w) as [H1 H2].
      refine (conj H1 (conj H2 (conj _ _))); [| reflexivity].
      cbn. now rewrite E0.
  - apply Z.eqb_neq in E0. destruct (Hstate E0) as [H1 H2].
    exact (conj H1 (conj H2 (conj eq_refl eq_refl))).
Qed.

Lemma irls_transition_of_row_state (state : IRLS.t) (y : bool)
  (x : ColumnVector) (previous : option IRLS.t) :
  row_accepted (IRLS.numRows state) x ->
  let s0 := irls_row_state state x previous in
  let xc := dot x (IRLS.coef s0) in
  let a := sigma xc * sigma (- xc) in
  logregr_irls_step_transition state y x previous
  = IRLS.mk (IRLS.widthOfX s0) (IRLS.coef s0)
            (uint64 (IRLS.numRows s0 + 1))
            (vadd (IRLS.X_transp_Az s0)
                  (map (fun e => e * (xc * a + sigma (- label y * xc) * label y))
                       x))
            (madd (IRLS.X_transp_AX s0) (mscale (outer x x) a))
            (IRLS.logLikelihood s0 - ln (1 + exp (- label y * xc)))
            (IRLS.status s0).
Proof.
  unfold row_accepted, irls_row_state, logregr_irls_step_transition.
  intros Hacc.
  destruct (IRLS.numRows state =? 0)%Z eqn:E0; [| reflexivity].
  apply Z.eqb_eq in E0.
  destruct (Z.of_nat (length x) >? uint16_max)%Z eqn:Egt;
    [apply Z.gtb_lt in Egt; unfold uint16_max, layout_width_max in *; lia |].
  destruct previous; reflexivity.
Qed.

Lemma irls_transition_step (w : Z) (state : IRLS.t) (y : bool)
  (x : ColumnVector) (previous : option IRLS.t) :
  (0 <= w <= layout_width_max)%Z -> Z.of_nat (length x) = w ->
  irls_previous_ok w previous ->
  (IRLS.numRows state <> 0%Z -> IRLS.wf state /\ IRLS.widthOfX state = w) ->
  let s' := logregr_irls_step_transition state y x previous in
  IRLS.wf s' /\ IRLS.widthOfX s' = w /\
  IRLS.numRows s' = uint64 (IRLS.numRows state + 1) /\
  IRLS.logLikelihood s'
  < (if (IRLS.numRows state =? 0)%Z then 0 else IRLS.logLikelihood state).
Proof.
  intros Hw Hx Hprev Hstate s'.
  destruct (irls_row_state_wf w state x previous Hw Hx Hprev Hstate)
    as (Hwf & Hwidth & Hn & HL).
  assert (Hacc : row_accepted (IRLS.numRows state) x)
    by (right; lia).
  unfold s'. rewrite (irls_transition_of_row_state state y x previous Hacc).
  cbn. rewrite Hn, <- HL.
  assert (Hlen : length x = Z.to_nat w) by (rewrite <- Hx; now rewrite Nat2Z.id).
  destruct Hwf as (Hc & Hz & HX & Hrows).
  rewrite Hwidth in Hc, Hz, HX, Hrows.
  split.
  - unfold IRLS.wf. cbn. rewrite Hwidth. repeat split; auto.
    + apply vadd_length; [exact Hz |]. now rewrite length_map.
    + apply madd_length; [exact HX |].
      now rewrite mscale_length, outer_length.
    + apply madd_rows; [exact Hrows |]. apply mscale_rows.
      rewrite <- Hlen. apply outer_rows.
  - repeat split; auto.
    pose proof (ln_1_plus_exp_pos
                  (- label y
                   * dot x (IRLS.coef (irls_row_state state x previous)))).
    lra.
Qed.

Lemma irls_aggregate_running (w : Z) (previous : option IRLS.t)
  (rows : list (bool * ColumnVector)) :
  (0 <= w <= layout_width_max)%Z -> irls_previous_ok w previous ->
  rows_of_width w rows ->
  forall state : IRLS.t,
    IRLS.wf state -> IRLS.widthOfX state = w ->
    (1 <= IRLS.numRows state)%Z ->
    (IRLS.numRows state + Z.of_nat (length rows) < two_pow_64)%Z ->
    let s' := irls_aggregate previous rows state in
    IRLS.wf s' /\ IRLS.widthOfX s' = w /\
    IRLS.numRows s' = (IRLS.numRows state + Z.of_nat (length rows))%Z /\
    IRLS.logLikelihood s' <= IRLS.logLikelihood state.
Proof.
  intros Hw Hprev Hrows.
  induction Hrows as [| row rows Hrow _ IH]; intros state Hwf Hwidth Hn Hsum.
  - cbn. refine (conj Hwf (conj Hwidth (conj _ _))); [lia | lra].
  - cbn [length] in Hsum. rewrite Nat2Z.inj_succ in Hsum.
    destruct (irls_transition_step w state (fst row) (snd row) previous
                Hw Hrow Hprev) as (Hwf1 & Hw1 & Hn1 & HL1); [auto |].
    unfold two_pow_64 in Hsum.
    rewrite uint64_small in Hn1 by lia.
    replace (IRLS.numRows state =? 0)%Z with false in HL1
      by (symmetry; apply Z.eqb_neq; lia).
    destruct (IH _ Hwf1 Hw1) as (Hwf2 & Hw2 & Hn2 & HL2);
      [lia | unfold two_pow_64; lia |].
    change (irls_aggregate previous (row :: rows) state)
      with (irls_aggregate previous rows
              (logregr_irls_step_transition state (fst row) (snd row)
                 previous)).
    cbn [length]. rewrite Nat2Z.inj_succ.
    refine (conj Hwf2 (conj Hw2 (conj _ _))).
    + rewrite Hn2, Hn1. lia.
    + lra.
Qed.

(** X5. Folding the IRLS transition over the rows of a partition, all of one
    width [w <= 32767], starting from a state without rows, gives a
    state shaped for width [w] whose [numRows] is the number of rows (below
    2^64) and whose [logLikelihood] is strictly negative. *)
Theorem irls_aggregate_is_a_partial_state :
  forall (w : Z) (previous : option IRLS.t) (state : IRLS.t)
         (row : bool * ColumnVector) (rows : list (bool * ColumnVector)),
    (0 <= w <= layout_width_max)%Z ->
    irls_previous_ok w previous ->
    rows_of_width w (row :: rows) ->
    IRLS.numRows state = 0%Z ->
    (Z.of_nat (length (row :: rows)) < two_pow_64)%Z ->
    let s' := irls_aggregate previous (row :: rows) state in
    irls_partial w s' /\
    IRLS.numRows s' = Z.of_nat (length (row :: rows)) /\
    IRLS.logLikelihood s' < 0.
Proof.
  intros w previous state row rows Hw Hprev Hrows H0 Hlen s'.
  apply Forall_cons_iff in Hrows. destruct Hrows as [Hrow Hrows].
  destruct (irls_transition_step w state (fst row) (snd row) previous
              Hw Hrow Hprev) as (Hwf1 & Hw1 & Hn1 & HL1); [intros H; lia |].
  rewrite H0 in Hn1, HL1. cbn in Hn1, HL1.
  cbn [length] in Hlen. rewrite Nat2Z.inj_succ in Hlen.
  destruct (irls_aggregate_running w previous rows Hw Hprev Hrows _ Hwf1 Hw1)
    as (Hwf2 & Hw2 & Hn2 & HL2); [lia | lia |].
  unfold s'.
  change (irls_aggregate previous (row :: rows) state)
    with (irls_aggregate previous rows
            (logregr_irls_step_transition state (fst row) (snd row) previous)).
  cbn [length]. rewrite Nat2Z.inj_succ.
  split; [| split].
  - split; [exact Hwf2 |]. split; [exact Hw2 |]. rewrite Hn2, Hn1. lia.
  - rewrite Hn2, Hn1. lia.
  - lra.
Qed.

Lemma irls_aggregate_is_a_partial_state_witness :
  irls_partial 2 (irls_aggregate None three_rows (IRLS.initialize 0)) /\
  IRLS.numRows (irls_aggregate None three_rows (IRLS.initialize 0)) = 3%Z /\
  IRLS.logLikelihood (irls_aggregate None three_rows (IRLS.initialize 0)) < 0.
Proof.
  apply (irls_aggregate_is_a_partial_state 2 None (IRLS.initialize 0)
           (true, [1; 2]) [(false, [0; 1]); (true, [3; 1])]).
  - unfold layout_width_max. lia.
  - exact I.
  - repeat constructor.
  - reflexivity.
  - cbn. unfold two_pow_64. lia.
Defined.


(** ** The IGD aggregate *)

Lemma fill_is_vzero (row : list R) :
  map (fun _ : R => 0) row = vzero (length row).
Proof.
  induction row as [| a row IH]; cbn; [reflexivity |].
  rewrite IH. reflexivity.
Qed.

Lemma fill_is_mzero (M : Matrix) (w : nat) :
  length M = w -> Forall (fun row => length row = w) M ->
  map (map (fun _ : R => 0)) M = mzero w.
Proof.
  intros Hlen Hrows. unfold mzero.
  assert (H : map (map (fun _ : R => 0)) M = repeat (vzero w) (length M)).
  { clear Hlen. induction Hrows as [| row M Hrow _ IH]; [reflexivity |].
    cbn [map length repeat]. rewrite IH, fill_is_vzero, Hrow. reflexivity. }
  now rewrite H, Hlen.
Qed.

Lemma igd_row_state_invariant (w : Z) (state : IGD.t) (x : ColumnVector)
  (previous : option IGD.t) :
  (0 <= w <= layout_width_max)%Z -> Z.of_nat (length x) = w ->
  igd_previous_ok w previous ->
  IGD.numRows state = 0%Z ->
  let s0 := igd_row_state state x previous in
  IGD.wf s0 /\ IGD.widthOfX s0 = w /\ IGD.numRows s0 = 0%Z /\
  IGD.stepsize s0 = 1 / 100 /\
  IGD.X_transp_AX s0 = mzero (Z.to_nat w) /\ IGD.logLikelihood s0 = 0.
Proof.
  intros Hw Hx Hprev H0. unfold igd_row_state, layout_width_max in *.
  rewrite H0. cbn [Z.eqb]. rewrite Hx, uint16_small by lia.
  destruct previous as [p |].
  - destruct Hprev as [(Hc & HX & Hrows) Hpw]. rewrite Hpw in Hc, HX, Hrows.
    unfold IGD.assign, IGD.reset, IGD.wf. cbn.
    rewrite Hpw, (fill_is_mzero _ _ HX Hrows), mzero_length.
    repeat split; auto. apply mzero_rows.
  - unfold IGD.initialize, IGD.reset, IGD.set_coef, IGD.wf. cbn.
    rewrite reset_mzero, mzero_length, length_map. unfold vzero.
    rewrite repeat_length. repeat split. apply mzero_rows.
Qed.

Lemma igd_transition_of_row_state (state : IGD.t) (y : bool)
  (x : ColumnVector) (previous : option IGD.t) :
  row_accepted (IGD.numRows state) x ->
  let s0 := igd_row_state state x previous in
  let xc := dot x (IGD.coef s0) in
  logregr_igd_step_transition state y x previous
  = IGD.mk (IGD.widthOfX s0) (IGD.stepsize s0)
           (vadd (IGD.coef s0)
                 (vscale (IGD.stepsize s0 * sigma (- xc * label y) * label y)
                         x))
           (uint64 (IGD.numRows s0 + 1))
           (IGD.X_transp_AX s0) (IGD.logLikelihood s0) (IGD.status s0).
Proof.
  unfold row_accepted, igd_row_state, logregr_igd_step_transition.
  intros Hacc.
  destruct (IGD.numRows state =? 0)%Z eqn:E0; [| reflexivity].
  apply Z.eqb_eq in E0.
  destruct (Z.of_nat (length x) >? uint16_max)%Z eqn:Egt;
    [apply Z.gtb_lt in Egt; unfold uint16_max, layout_width_max in *; lia |].
  destruct previous; reflexivity.
Qed.

Lemma igd_update_invariant (w : Z) (s0 : IGD.t) (x : ColumnVector) (k : R) :
  Z.of_nat (length x) = w ->
  IGD.wf s0 -> IGD.widthOfX s0 = w ->
  IGD.wf (IGD.mk (IGD.widthOfX s0) (IGD.stepsize s0)
                 (vadd (IGD.coef s0) (vscale k x))
                 (uint64 (IGD.numRows s0 + 1))
                 (IGD.X_transp_AX s0) (IGD.logLikelihood s0) (IGD.status s0)).
Proof.
  intros Hx (Hc & HX & Hrows) Hwidth.
  unfold IGD.wf. cbn. repeat split; auto.
  apply vadd_length; [exact Hc |].
  unfold vscale. rewrite length_map, Hwidth, <- Hx. now rewrite Nat2Z.id.
Qed.

Lemma igd_aggregate_running (w : Z) (previous : option IGD.t)
  (rows : list (bool * ColumnVector)) :
  rows_of_width w rows ->
  forall state : IGD.t,
    IGD.wf state -> IGD.widthOfX state = w ->
    (1 <= IGD.numRows state)%Z ->
    (IGD.numRows state + Z.of_nat (length rows) < two_pow_64)%Z ->
    let s' := igd_aggregate previous rows state in
    IGD.wf s' /\ IGD.widthOfX s' = w /\
    IGD.numRows s' = (IGD.numRows state + Z.of_nat (length rows))%Z /\
    IGD.stepsize s' = IGD.stepsize state /\
    IGD.X_transp_AX s' = IGD.X_transp_AX state /\
    IGD.logLikelihood s' = IGD.logLikelihood state.
Proof.
  intros Hrows.
  induction Hrows as [| row rows Hrow _ IH]; intros state Hwf Hwidth Hn Hsum.
  - cbn. refine (conj Hwf (conj Hwidth (conj _ _))); [lia | auto].
  - cbn [length] in Hsum. rewrite Nat2Z.inj_succ in Hsum.
    unfold two_pow_64 in Hsum.
    change (igd_aggregate previous (row :: rows) state)
      with (igd_aggregate previous rows
              (logregr_igd_step_transition state (fst row) (snd row)
                 previous)).
    assert (Hacc : row_accepted (IGD.numRows state) (snd row))
      by (left; lia).
    rewrite (igd_transition_of_row_state state (fst row) (snd row) previous
               Hacc).
    assert (Es0 : igd_row_state state (snd row) previous = state).
    { unfold igd_row_state.
      replace (IGD.numRows state =? 0)%Z with false
        by (symmetry; apply Z.eqb_neq; lia).
      reflexivity. }
    rewrite Es0.
    match goal with
    | |- context [igd_aggregate previous rows ?s1] =>
        remember s1 as st1 eqn:Est1
    end.
    assert (Hwf1 : IGD.wf st1)
      by (subst st1; now apply (igd_update_invariant w)).
    assert (Hfields : IGD.widthOfX st1 = w /\
                      IGD.numRows st1 = (IGD.numRows state + 1)%Z /\
                      IGD.stepsize st1 = IGD.stepsize state /\
                      IGD.X_transp_AX st1 = IGD.X_transp_AX state /\
                      IGD.logLikelihood st1 = IGD.logLikelihood state).
    { subst st1. cbn. rewrite uint64_small by lia. auto. }
    destruct Hfields as (Hw1 & Hn1 & Hs1 & HX1 & HL1). clear Est1.
    destruct (IH st1 Hwf1 Hw1) as (Hwf2 & Hw2 & Hn2 & Hs2 & HX2 & HL2);
      [lia | unfold two_pow_64; lia |].
    cbn [length]. rewrite Nat2Z.inj_succ.
    refine (conj Hwf2 (conj Hw2 (conj _ (conj _ (conj _ _)))));
      [lia | congruence | congruence | congruence].
Qed.

Lemma igd_aggregate_invariant (w : Z) (previous : option IGD.t)
  (state : IGD.t) (row : bool * ColumnVector)
  (rows : list (bool * ColumnVector)) :
  (0 <= w <= layout_width_max)%Z ->
  igd_previous_ok w previous ->
  rows_of_width w (row :: rows) ->
  IGD.numRows state = 0%Z ->
  (Z.of_nat (length (row :: rows)) < two_pow_64)%Z ->
  let s' := igd_aggregate previous (row :: rows) state in
  igd_partial w s' /\
  IGD.numRows s' = Z.of_nat (length (row :: rows)) /\
  IGD.stepsize s' = 1 / 100 /\
  IGD.X_transp_AX s' = mzero (Z.to_nat w) /\
  IGD.logLikelihood s' = 0.
Proof.
  intros Hw Hprev Hrows H0 Hlen s'.
  apply Forall_cons_iff in Hrows. destruct Hrows as [Hrow Hrows].
  destruct (igd_row_state_invariant w state (snd row) previous Hw Hrow Hprev H0)
    as (Hwf0 & Hw0 & Hn0 & Hs0 & HX0 & HL0).
  cbn [length] in Hlen. rewrite Nat2Z.inj_succ in Hlen.
  unfold two_pow_64 in Hlen.
  unfold s'.
  change (igd_aggregate previous (row :: rows) state)
    with (igd_aggregate previous rows
            (logregr_igd_step_transition state (fst row) (snd row) previous)).
  assert (Hacc : row_accepted (IGD.numRows state) (snd row))
    by (right; cbn beta in Hrow; unfold layout_width_max, ColumnVector in *; lia).
  rewrite (igd_transition_of_row_state state (fst row) (snd row) previous Hacc).
  match goal with
  | |- context [igd_aggregate previous rows ?s1] =>
      remember s1 as st1 eqn:Est1
  end.
  assert (Hwf1 : IGD.wf st1)
    by (subst st1; now apply (igd_update_invariant w)).
  assert (Hfields : IGD.widthOfX st1 = w /\
                    IGD.numRows st1 = 1%Z /\
                    IGD.stepsize st1 = 1 / 100 /\
                    IGD.X_transp_AX st1 = mzero (Z.to_nat w) /\
                    IGD.logLikelihood st1 = 0).
  { subst st1. cbn. rewrite Hn0. auto. }
  destruct Hfields as (Hw1 & Hn1 & Hs1 & HX1 & HL1). clear Est1.
  destruct (igd_aggregate_running w previous rows Hrows st1 Hwf1 Hw1)
    as (Hwf2 & Hw2 & Hn2 & Hs2 & HX2 & HL2);
    [lia | unfold two_pow_64; lia |].
  cbn [length]. rewrite Nat2Z.inj_succ.
  split; [| split; [| split; [| split]]].
  - split; [exact Hwf2 |]. split; [exact Hw2 |]. unfold two_pow_64. lia.
  - lia.
  - congruence.
  - congruence.
  - congruence.
Qed.

(** X6. Folding the IGD transition over the rows of a partition, all of one
    width [w <= 32767], starting from a state without rows, gives a
    state shaped for width [w] whose [numRows] is the number of rows (below
    2^64) and whose step size is 0.01; its [X_transp_AX] is still the zero
    matrix and its [logLikelihood] is still 0, whatever the rows were. *)
Theorem igd_aggregate_accumulates_nothing :
  forall (w : Z) (previous : option IGD.t) (state : IGD.t)
         (row : bool * ColumnVector) (rows : list (bool * ColumnVector)),
    (0 <= w <= layout_width_max)%Z ->
    igd_previous_ok w previous ->
    rows_of_width w (row :: rows) ->
    IGD.numRows state = 0%Z ->
    (Z.of_nat (length (row :: rows)) < two_pow_64)%Z ->
    let s' := igd_aggregate previous (row :: rows) state in
    igd_partial w s' /\
    IGD.numRows s' = Z.of_nat (length (row :: rows)) /\
    IGD.stepsize s' = 1 / 100 /\
    IGD.X_transp_AX s' = mzero (Z.to_nat w) /\
    IGD.logLikelihood s' = 0.
Proof.
  intros w previous state row rows. apply igd_aggregate_invariant.
Qed.

Lemma igd_aggregate_accumulates_nothing_witness :
  IGD.numRows (igd_aggregate None three_rows igd_initial) = 3%Z /\
  IGD.logLikelihood (igd_aggregate None three_rows igd_initial) = 0.
Proof.
  destruct (igd_aggregate_accumulates_nothing 2 None igd_initial
              (true, [1; 2]) [(false, [0; 1]); (true, [3; 1])])
    as (_ & Hn & _ & _ & HL).
  - unfold layout_width_max. lia.
  - exact I.
  - repeat constructor.
  - reflexivity.
  - cbn. unfold two_pow_64. lia.
  - split; [exact Hn | exact HL].
Defined.

(** X7. The convergence test of the IGD variant is blind: the final function
    hands an aggregated state on as it is, and the distance between the
    states of any two iterations, aggregated over rows of at most 32767
    features, whatever the rows and the previous states are, is 0. *)
Theorem igd_distance_between_iterations_is_zero :
  forall (w1 w2 : Z) (previous1 previous2 : option IGD.t)
         (state1 state2 : IGD.t) (row1 row2 : bool * ColumnVector)
         (rows1 rows2 : list (bool * ColumnVector)),
    (0 <= w1 <= layout_width_max)%Z -> (0 <= w2 <= layout_width_max)%Z ->
    igd_previous_ok w1 previous1 -> igd_previous_ok w2 previous2 ->
    rows_of_width w1 (row1 :: rows1) -> rows_of_width w2 (row2 :: rows2) ->
    IGD.numRows state1 = 0%Z -> IGD.numRows state2 = 0%Z ->
    (Z.of_nat (length (row1 :: rows1)) < two_pow_64)%Z ->
    (Z.of_nat (length (row2 :: rows2)) < two_pow_64)%Z ->
    let s1 := igd_aggregate previous1 (row1 :: rows1) state1 in
    let s2 := igd_aggregate previous2 (row2 :: rows2) state2 in
    logregr_igd_step_final s1 = Value s1 /\
    logregr_igd_step_final s2 = Value s2 /\
    internal_logregr_igd_step_distance s1 s2 = 0.
Proof.
  intros w1 w2 p1 p2 st1 st2 row1 row2 rows1 rows2
         Hw1 Hw2 Hp1 Hp2 Hr1 Hr2 H01 H02 Hl1 Hl2 s1 s2.
  destruct (igd_aggregate_invariant w1 p1 st1 row1 rows1 Hw1 Hp1 Hr1 H01 Hl1)
    as (_ & Hn1 & _ & _ & HL1).
  destruct (igd_aggregate_invariant w2 p2 st2 row2 rows2 Hw2 Hp2 Hr2 H02 Hl2)
    as (_ & Hn2 & _ & _ & HL2).
  fold s1 in Hn1, HL1. fold s2 in Hn2, HL2.
  cbn [length] in Hn1, Hn2. rewrite Nat2Z.inj_succ in Hn1, Hn2.
  unfold logregr_igd_step_final, internal_logregr_igd_step_distance.
  rewrite Hn1, Hn2, HL1, HL2.
  replace (Z.succ (Z.of_nat (length rows1)) =? 0)%Z with false
    by (symmetry; apply Z.eqb_neq; lia).
  replace (Z.succ (Z.of_nat (length rows2)) =? 0)%Z with false
    by (symmetry; apply Z.eqb_neq; lia).
  repeat split. rewrite Rminus_diag. apply Rabs_R0.
Qed.

Lemma igd_distance_between_iterations_is_zero_witness :
  internal_logregr_igd_step_distance
    (igd_aggregate None three_rows igd_initial)
    (igd_aggregate (Some (igd_aggregate None three_rows igd_initial))
       [(true, [1; 2])] igd_initial)
  = 0.
Proof.
  assert (H3 : igd_partial 2 (igd_aggregate None three_rows igd_initial)).
  { apply (igd_aggregate_invariant 2 None igd_initial
             (true, [1; 2]) [(false, [0; 1]); (true, [3; 1])]).
    - unfold layout_width_max. lia.
    - exact I.
    - repeat constructor.
    - reflexivity.
    - cbn. unfold two_pow_64. lia. }
  apply (igd_distance_between_iterations_is_zero 2 2 None
           (Some (igd_aggregate None three_rows igd_initial))
           igd_initial igd_initial (true, [1; 2]) (true, [1; 2])
           [(false, [0; 1]); (true, [3; 1])] []).
  - unfold layout_width_max. lia.
  - unfold layout_width_max. lia.
  - exact I.
  - destruct H3 as (Hwf & Hw & _). exact (conj Hwf Hw).
  - repeat constructor.
  - repeat constructor.
  - reflexivity.
  - reflexivity.
  - cbn. unfold two_pow_64. lia.
  - cbn. unfold two_pow_64. lia.
Defined.


(** ** The first row of an iteration *)

(** X8. The first transition of a later iteration, on a row of
    [w <= 32767] features and with a previous state shaped for width [w],
    takes from the previous state only its inter-iteration fields: two
    such previous states that agree on them give the same state, whatever
    their row counts, accumulators, log-likelihoods and statuses (and, for
    IGD, step sizes) are. *)
Theorem first_transition_uses_inter_iteration_fields :
  forall (w : Z) (y : bool) (x : ColumnVector),
    (0 <= w <= layout_width_max)%Z ->
    Z.of_nat (length x) = w ->
    (forall (state p p' : CG.t),
       CG.numRows state = 0%Z ->
       cg_previous_ok w (Some p) -> cg_previous_ok w (Some p') ->
       CG.iteration p = CG.iteration p' ->
       CG.coef p = CG.coef p' -> CG.dir p = CG.dir p' ->
       CG.grad p = CG.grad p' -> CG.beta p = CG.beta p' ->
       logregr_cg_step_transition state y x (Some p)
       = logregr_cg_step_transition state y x (Some p')) /\
    (forall (state p p' : IRLS.t),
       IRLS.numRows state = 0%Z ->
       irls_previous_ok w (Some p) -> irls_previous_ok w (Some p') ->
       IRLS.coef p = IRLS.coef p' ->
       logregr_irls_step_transition state y x (Some p)
       = logregr_irls_step_transition state y x (Some p')) /\
    (forall (state p p' : IGD.t),
       IGD.numRows state = 0%Z ->
       igd_previous_ok w (Some p) -> igd_previous_ok w (Some p') ->
       IGD.coef p = IGD.coef p' ->
       logregr_igd_step_transition state y x (Some p)
       = logregr_igd_step_transition state y x (Some p')).
Proof.
  intros w y x _ _. split; [| split].
  - intros state p p' H0 [(_ & _ & _ & Hn & HX & Hr) Hpw]
           [(_ & _ & _ & Hn' & HX' & Hr') Hpw'] Hit Hc Hd Hg Hb.
    assert (Hw : CG.widthOfX p = CG.widthOfX p') by congruence.
    assert (E : CG.reset p = CG.reset p').
    { unfold CG.reset. rewrite Hit, Hw, Hc, Hd, Hg, Hb.
      rewrite (fill_is_mzero _ _ HX Hr), (fill_is_mzero _ _ HX' Hr').
      rewrite !fill_is_vzero, Hn, Hn', Hw. reflexivity. }
    unfold logregr_cg_step_transition, CG.assign. rewrite H0. cbn [Z.eqb].
    destruct (Z.of_nat (length x) >? uint16_max)%Z; [reflexivity |].
    now rewrite E.
  - intros state p p' H0 [(_ & Hz & HX & Hr) Hpw] [(_ & Hz' & HX' & Hr') Hpw']
           Hc.
    assert (Hw : IRLS.widthOfX p = IRLS.widthOfX p') by congruence.
    assert (E : IRLS.reset p = IRLS.reset p').
    { unfold IRLS.reset. rewrite Hw, Hc.
      rewrite (fill_is_mzero _ _ HX Hr), (fill_is_mzero _ _ HX' Hr').
      rewrite !fill_is_vzero, Hz, Hz', Hw. reflexivity. }
    unfold logregr_irls_step_transition, IRLS.assign. rewrite H0. cbn [Z.eqb].
    destruct (Z.of_nat (length x) >? uint16_max)%Z; [reflexivity |].
    now rewrite E.
  - intros state p p' H0 [(_ & HX & Hr) Hpw] [(_ & HX' & Hr') Hpw'] Hc.
    assert (Hw : IGD.widthOfX p = IGD.widthOfX p') by congruence.
    assert (E : IGD.reset p = IGD.reset p').
    { unfold IGD.reset. rewrite Hw, Hc.
      rewrite (fill_is_mzero _ _ HX Hr), (fill_is_mzero _ _ HX' Hr').
      rewrite Hw. reflexivity. }
    unfold logregr_igd_step_transition, IGD.assign. rewrite H0. cbn [Z.eqb].
    destruct (Z.of_nat (length x) >? uint16_max)%Z; [reflexivity |].
    now rewrite E.
Qed.

Lemma first_transition_uses_inter_iteration_fields_witness :
  logregr_cg_step_transition cg_initial true [1; 2] (Some cg_previous_a)
  = logregr_cg_step_transition cg_initial true [1; 2] (Some cg_previous_b).
Proof.
  apply (proj1 (first_transition_uses_inter_iteration_fields 2 true [1; 2]
                  ltac:(unfold layout_width_max; lia) eq_refl)
           cg_initial cg_previous_a cg_previous_b);
    try reflexivity.
  all: unfold cg_previous_ok, CG.wf; cbn; repeat split; repeat constructor.
Defined.

(** Rows the width guard rejects, at the head of a partition, leave a state
    without rows behind. *)
Lemma cg_skip_wide (previous : option CG.t)
  (wide rest : list (bool * ColumnVector)) :
  Forall (fun r => (Z.of_nat (length (snd r)) > uint16_max)%Z) wide ->
  forall state : CG.t,
    CG.numRows state = 0%Z ->
    exists state' : CG.t,
      CG.numRows state' = 0%Z /\
      cg_aggregate previous (wide ++ rest) state
      = cg_aggregate previous rest state'.
Proof.
  induction 1 as [| r wide Hr _ IH]; intros state H0.
  - exists state. split; [exact H0 | reflexivity].
  - cbn [app].
    change (cg_aggregate previous (r :: wide ++ rest) state)
      with (cg_aggregate previous (wide ++ rest)
              (logregr_cg_step_transition state (fst r) (snd r) previous)).
    assert (E : logregr_cg_step_transition state (fst r) (snd r) previous
                = CG.set_status state TERMINATED).
    { unfold logregr_cg_step_transition. rewrite H0. cbn [Z.eqb].
      replace (Z.of_nat (length (snd r)) >? uint16_max)%Z with true
        by (symmetry; apply Z.gtb_lt; lia).
      reflexivity. }
    rewrite E. apply IH. exact H0.
Qed.

Lemma irls_skip_wide (previous : option IRLS.t)
  (wide rest : list (bool * ColumnVector)) :
  Forall (fun r => (Z.of_nat (length (snd r)) > uint16_max)%Z) wide ->
  forall state : IRLS.t,
    IRLS.numRows state = 0%Z ->
    exists state' : IRLS.t,
      IRLS.numRows state' = 0%Z /\
      irls_aggregate previous (wide ++ rest) state
      = irls_aggregate previous rest state'.
Proof.
  induction 1 as [| r wide Hr _ IH]; intros state H0.
  - exists state. split; [exact H0 | reflexivity].
  - cbn [app].
    change (irls_aggregate previous (r :: wide ++ rest) state)
      with (irls_aggregate previous (wide ++ rest)
              (logregr_irls_step_transition state (fst r) (snd r) previous)).
    assert (E : logregr_irls_step_transition state (fst r) (snd r) previous
                = IRLS.set_status state TERMINATED).
    { unfold logregr_irls_step_transition. rewrite H0. cbn [Z.eqb].
      replace (Z.of_nat (length (snd r)) >? uint16_max)%Z with true
        by (symmetry; apply Z.gtb_lt; lia).
      reflexivity. }
    rewrite E. apply IH. exact H0.
Qed.

Lemma igd_skip_wide (previous : option IGD.t)
  (wide rest : list (bool * ColumnVector)) :
  Forall (fun r => (Z.of_nat (length (snd r)) > uint16_max)%Z) wide ->
  forall state : IGD.t,
    IGD.numRows state = 0%Z ->
    exists state' : IGD.t,
      IGD.numRows state' = 0%Z /\
      igd_aggregate previous (wide ++ rest) state
      = igd_aggregate previous rest state'.
Proof.
  induction 1 as [| r wide Hr _ IH]; intros state H0.
  - exists state. split; [exact H0 | reflexivity].
  - cbn [app].
    change (igd_aggregate previous (r :: wide ++ rest) state)
      with (igd_aggregate previous (wide ++ rest)
              (logregr_igd_step_transition state (fst r) (snd r) previous)).
    assert (E : logregr_igd_step_transition state (fst r) (snd r) previous
                = IGD.set_status state TERMINATED).
    { unfold logregr_igd_step_transition. rewrite H0. cbn [Z.eqb].
      replace (Z.of_nat (length (snd r)) >? uint16_max)%Z with true
        by (symmetry; apply Z.gtb_lt; lia).
      reflexivity. }
    rewrite E. apply IH. exact H0.
Qed.

(** Once a state has rows, further rows leave its status alone. *)
Lemma cg_aggregate_status (previous : option CG.t)
  (rows : list (bool * ColumnVector)) :
  forall state : CG.t,
    (1 <= CG.numRows state)%Z ->
    (CG.numRows state + Z.of_nat (length rows) < two_pow_64)%Z ->
    CG.status (cg_aggregate previous rows state) = CG.status state.
Proof.
  induction rows as [| row rows IH]; intros state Hn Hsum; [reflexivity |].
  cbn [length] in Hsum. rewrite Nat2Z.inj_succ in Hsum.
  unfold two_pow_64 in Hsum.
  change (cg_aggregate previous (row :: rows) state)
    with (cg_aggregate previous rows
            (logregr_cg_step_transition state (fst row) (snd row) previous)).
  assert (E0 : (CG.numRows state =? 0)%Z = false) by (apply Z.eqb_neq; lia).
  rewrite IH.
  - unfold logregr_cg_step_transition. rewrite E0. reflexivity.
  - unfold logregr_cg_step_transition. rewrite E0. cbn.
    rewrite uint64_small; lia.
  - unfold logregr_cg_step_transition. rewrite E0. cbn.
    rewrite uint64_small by lia. unfold two_pow_64. lia.
Qed.

Lemma irls_aggregate_status (previous : option IRLS.t)
  (rows : list (bool * ColumnVector)) :
  forall state : IRLS.t,
    (1 <= IRLS.numRows state)%Z ->
    (IRLS.numRows state + Z.of_nat (length rows) < two_pow_64)%Z ->
    IRLS.status (irls_aggregate previous rows state) = IRLS.status state.
Proof.
  induction rows as [| row rows IH]; intros state Hn Hsum; [reflexivity |].
  cbn [length] in Hsum. rewrite Nat2Z.inj_succ in Hsum.
  unfold two_pow_64 in Hsum.
  change (irls_aggregate previous (row :: rows) state)
    with (irls_aggregate previous rows
            (logregr_irls_step_transition state (fst row) (snd row) previous)).
  assert (E0 : (IRLS.numRows state =? 0)%Z = false) by (apply Z.eqb_neq; lia).
  rewrite IH.
  - unfold logregr_irls_step_transition. rewrite E0. reflexivity.
  - unfold logregr_irls_step_transition. rewrite E0. cbn.
    rewrite uint64_small; lia.
  - unfold logregr_irls_step_transition. rewrite E0. cbn.
    rewrite uint64_small by lia. unfold two_pow_64. lia.
Qed.

Lemma igd_aggregate_status (previous : option IGD.t)
  (rows : list (bool * ColumnVector)) :
  forall state : IGD.t,
    (1 <= IGD.numRows state)%Z ->
    (IGD.numRows state + Z.of_nat (length rows) < two_pow_64)%Z ->
    IGD.status (igd_aggregate previous rows state) = IGD.status state.
Proof.
  induction rows as [| row rows IH]; intros state Hn Hsum; [reflexivity |].
  cbn [length] in Hsum. rewrite Nat2Z.inj_succ in Hsum.
  unfold two_pow_64 in Hsum.
  change (igd_aggregate previous (row :: rows) state)
    with (igd_aggregate previous rows
            (logregr_igd_step_transition state (fst row) (snd row) previous)).
  assert (E0 : (IGD.numRows state =? 0)%Z = false) by (apply Z.eqb_neq; lia).
  rewrite IH.
  - unfold logregr_igd_step_transition. rewrite E0. reflexivity.
  - unfold logregr_igd_step_transition. rewrite E0. cbn.
    rewrite uint64_small; lia.
  - unfold logregr_igd_step_transition. rewrite E0. cbn.
    rewrite uint64_small by lia. unfold two_pow_64. lia.
Qed.

(** X9. Rows the width guard rejects leave no trace.  A partition that
    starts with rows of more than 65535 features, followed by at least one
    row of [w <= 32767] features, aggregates from any state without rows to
    the state the partition without the wide rows aggregates to, from any
    other state without rows; the TERMINATED status the guard had set is
    gone: the status is IN_PROCESS. *)
Theorem first_accepted_row_forgets_the_state :
  forall (w : Z) (wide : list (bool * ColumnVector))
         (row : bool * ColumnVector) (rows : list (bool * ColumnVector)),
    (0 <= w <= layout_width_max)%Z ->
    Forall (fun r => (Z.of_nat (length (snd r)) > uint16_max)%Z) wide ->
    rows_of_width w (row :: rows) ->
    (Z.of_nat (length (row :: rows)) < two_pow_64)%Z ->
    (forall (s1 s2 : CG.t) (previous : option CG.t),
       CG.numRows s1 = 0%Z -> CG.numRows s2 = 0%Z ->
       cg_previous_ok w previous ->
       cg_aggregate previous (wide ++ row :: rows) s1
       = cg_aggregate previous (row :: rows) s2 /\
       CG.status (cg_aggregate previous (wide ++ row :: rows) s1)
       = IN_PROCESS) /\
    (forall (s1 s2 : IRLS.t) (previous : option IRLS.t),
       IRLS.numRows s1 = 0%Z -> IRLS.numRows s2 = 0%Z ->
       irls_previous_ok w previous ->
       irls_aggregate previous (wide ++ row :: rows) s1
       = irls_aggregate previous (row :: rows) s2 /\
       IRLS.status (irls_aggregate previous (wide ++ row :: rows) s1)
       = IN_PROCESS) /\
    (forall (s1 s2 : IGD.t) (previous : option IGD.t),
       IGD.numRows s1 = 0%Z -> IGD.numRows s2 = 0%Z ->
       igd_previous_ok w previous ->
       igd_aggregate previous (wide ++ row :: rows) s1
       = igd_aggregate previous (row :: rows) s2 /\
       IGD.status (igd_aggregate previous (wide ++ row :: rows) s1)
       = IN_PROCESS).
Proof.
  intros w wide row rows Hw Hwide Hrows Hlen.
  apply Forall_cons_iff in Hrows. destruct Hrows as [Hrow _].
  cbn beta in Hrow. cbn [length] in Hlen. rewrite Nat2Z.inj_succ in Hlen.
  assert (Egt : (Z.of_nat (length (snd row)) >? uint16_max)%Z = false).
  { destruct (Z.of_nat (length (snd row)) >? uint16_max)%Z eqn:E;
      [| reflexivity].
    apply Z.gtb_lt in E.
    unfold layout_width_max, uint16_max, ColumnVector in *. lia. }
  split; [| split].
  - intros s1 s2 previous H1 H2 _.
    destruct (cg_skip_wide previous wide (row :: rows) Hwide s1 H1)
      as (s & Hs & E).
    assert (E1 : logregr_cg_step_transition s (fst row) (snd row) previous
                 = logregr_cg_step_transition s2 (fst row) (snd row) previous)
      by (unfold logregr_cg_step_transition; rewrite Hs, H2;
          cbn [Z.eqb]; rewrite Egt; reflexivity).
    rewrite E.
    change (cg_aggregate previous (row :: rows) s)
      with (cg_aggregate previous rows
              (logregr_cg_step_transition s (fst row) (snd row) previous)).
    change (cg_aggregate previous (row :: rows) s2)
      with (cg_aggregate previous rows
              (logregr_cg_step_transition s2 (fst row) (snd row) previous)).
    rewrite E1. split; [reflexivity |].
    assert (Hfirst :
              CG.numRows (logregr_cg_step_transition s2 (fst row) (snd row)
                            previous) = 1%Z /\
              CG.status (logregr_cg_step_transition s2 (fst row) (snd row)
                           previous) = IN_PROCESS).
    { unfold logregr_cg_step_transition. rewrite H2. cbn [Z.eqb].
      rewrite Egt. destruct previous; split; reflexivity. }
    destruct Hfirst as [Hn Hst].
    rewrite cg_aggregate_status; [exact Hst | lia | lia].
  - intros s1 s2 previous H1 H2 _.
    destruct (irls_skip_wide previous wide (row :: rows) Hwide s1 H1)
      as (s & Hs & E).
    assert (E1 : logregr_irls_step_transition s (fst row) (snd row) previous
                 = logregr_irls_step_transition s2 (fst row) (snd row)
                     previous)
      by (unfold logregr_irls_step_transition; rewrite Hs, H2;
          cbn [Z.eqb]; rewrite Egt; reflexivity).
    rewrite E.
    change (irls_aggregate previous (row :: rows) s)
      with (irls_aggregate previous rows
              (logregr_irls_step_transition s (fst row) (snd row) previous)).
    change (irls_aggregate previous (row :: rows) s2)
      with (irls_aggregate previous rows
              (logregr_irls_step_transition s2 (fst row) (snd row) previous)).
    rewrite E1. split; [reflexivity |].
    assert (Hfirst :
              IRLS.numRows (logregr_irls_step_transition s2 (fst row)
                              (snd row) previous) = 1%Z /\
              IRLS.status (logregr_irls_step_transition s2 (fst row)
                             (snd row) previous) = IN_PROCESS).
    { unfold logregr_irls_step_transition. rewrite H2. cbn [Z.eqb].
      rewrite Egt. destruct previous; split; reflexivity. }
    destruct Hfirst as [Hn Hst].
    rewrite irls_aggregate_status; [exact Hst | lia | lia].
  - intros s1 s2 previous H1 H2 _.
    destruct (igd_skip_wide previous wide (row :: rows) Hwide s1 H1)
      as (s & Hs & E).
    assert (E1 : logregr_igd_step_transition s (fst row) (snd row) previous
                 = logregr_igd_step_transition s2 (fst row) (snd row)
                     previous)
      by (unfold logregr_igd_step_transition; rewrite Hs, H2;
          cbn [Z.eqb]; rewrite Egt; reflexivity).
    rewrite E.
    change (igd_aggregate previous (row :: rows) s)
      with (igd_aggregate previous rows
              (logregr_igd_step_transition s (fst row) (snd row) previous)).
    change (igd_aggregate previous (row :: rows) s2)
      with (igd_aggregate previous rows
              (logregr_igd_step_transition s2 (fst row) (snd row) previous)).
    rewrite E1. split; [reflexivity |].
    assert (Hfirst :
              IGD.numRows (logregr_igd_step_transition s2 (fst row)
                             (snd row) previous) = 1%Z /\
              IGD.status (logregr_igd_step_transition s2 (fst row)
                            (snd row) previous) = IN_PROCESS).
    { unfold logregr_igd_step_transition. rewrite H2. cbn [Z.eqb].
      rewrite Egt. destruct previous; split; reflexivity. }
    destruct Hfirst as [Hn Hst].
    rewrite igd_aggregate_status; [exact Hst | lia | lia].
Qed.

Lemma first_accepted_row_forgets_the_state_witness :
  cg_aggregate None ([(true, wide_row)] ++ three_rows) cg_initial
  = cg_aggregate None three_rows cg_rejected /\
  CG.status (cg_aggregate None ([(true, wide_row)] ++ three_rows) cg_initial)
  = IN_PROCESS.
Proof.
  apply (proj1 (first_accepted_row_forgets_the_state 2 [(true, wide_row)]
                  (true, [1; 2]) [(false, [0; 1]); (true, [3; 1])]
                  ltac:(unfold layout_width_max; lia)
                  ltac:(constructor; [exact wide_row_length | constructor])
                  ltac:(repeat constructor)
                  ltac:(cbn; unfold two_pow_64; lia))
           cg_initial cg_rejected None eq_refl eq_refl I).
Defined.

(** ** When the merge functions throw *)

(** X10. For every variant the merge function throws (returns no state)
    exactly when both states have rows and their array sizes or their
    [widthOfX] differ; a state without rows is never compared with the
    other one. *)
Theorem merge_throws_iff_incompatible :
  (forall A B : CG.t,
     logregr_cg_step_merge_states A B = None <->
     CG.numRows A <> 0%Z /\ CG.numRows B <> 0%Z /\
     (CG.size A <> CG.size B \/ CG.widthOfX A <> CG.widthOfX B)) /\
  (forall A B : IRLS.t,
     logregr_irls_step_merge_states A B = None <->
     IRLS.numRows A <> 0%Z /\ IRLS.numRows B <> 0%Z /\
     (IRLS.size A <> IRLS.size B \/ IRLS.widthOfX A <> IRLS.widthOfX B)) /\
  (forall A B : IGD.t,
     logregr_igd_step_merge_states A B = None <->
     IGD.numRows A <> 0%Z /\ IGD.numRows B <> 0%Z /\
     (IGD.size A <> IGD.size B \/ IGD.widthOfX A <> IGD.widthOfX B)) /\
  (forall A B : Robust.t,
     robust_logregr_step_merge_states A B = None <->
     Robust.numRows A <> 0%Z /\ Robust.numRows B <> 0%Z /\
     (Robust.size A <> Robust.size B \/
      Robust.widthOfX A <> Robust.widthOfX B)) /\
  (forall A B : Marginal.t,
     marginal_logregr_step_merge_states A B = None <->
     Marginal.numRows A <> 0%Z /\ Marginal.numRows B <> 0%Z /\
     (Marginal.size A <> Marginal.size B \/
      Marginal.widthOfX A <> Marginal.widthOfX B)).
Proof.
  assert (H : forall (S : Type) (nA nB sA sB wA wB : Z) (a b r : S),
            (if (nA =? 0)%Z then Some b
             else if (nB =? 0)%Z then Some a
             else if negb (sA =? sB)%Z || negb (wA =? wB)%Z then None
             else Some r) = None <->
            nA <> 0%Z /\ nB <> 0%Z /\ (sA <> sB \/ wA <> wB)).
  { intros S nA nB sA sB wA wB a b r.
    destruct (Z.eqb_spec nA 0), (Z.eqb_spec nB 0),
      (Z.eqb_spec sA sB), (Z.eqb_spec wA wB); cbn;
      split; try discriminate; try tauto; intros (? & ? & [? | ?]);
      tauto. }
  split; [| split; [| split; [| split]]]; intros A B.
  - unfold logregr_cg_step_merge_states, CG.add_assign. apply H.
  - unfold logregr_irls_step_merge_states, IRLS.add_assign. apply H.
  - unfold logregr_igd_step_merge_states, IGD.add_assign. apply H.
  - unfold robust_logregr_step_merge_states, Robust.add_assign. apply H.
  - unfold marginal_logregr_step_merge_states, Marginal.add_assign. apply H.
Qed.

Lemma merge_throws_iff_incompatible_witness :
  logregr_cg_step_merge_states cg_one_row cg_width_one = None /\
  logregr_cg_step_merge_states cg_initial cg_width_one = Some cg_width_one.
Proof.
  split.
  - refine (proj2 (proj1 merge_throws_iff_incompatible cg_one_row
                     cg_width_one) _).
    rewrite cg_one_row_eq. cbn.
    split; [discriminate | split; [discriminate | right; discriminate]].
  - reflexivity.
Defined.


(** ** Row counts under merge *)

Section MergeCount.

Variable S : Type.
Variable n : S -> Z.
Variable plus : S -> S -> S.
Variable merge : S -> S -> option S.
Variable ok : S -> Prop.

Hypothesis count_zero_l : forall a b, n a = 0%Z -> merge a b = Some b.
Hypothesis count_zero_r :
  forall a b, n a <> 0%Z -> n b = 0%Z -> merge a b = Some a.
Hypothesis count_plus :
  forall a b, ok a -> ok b -> n a <> 0%Z -> n b <> 0%Z ->
              merge a b = Some (plus a b).
Hypothesis count_range : forall a, ok a -> (0 <= n a < two_pow_64)%Z.
Hypothesis count_n_plus : forall a b, n (plus a b) = uint64 (n a + n b).

Lemma merge_adds_counts (A B : S) :
  ok A -> ok B -> (n A + n B < two_pow_64)%Z ->
  exists r, merge A B = Some r /\ n r = (n A + n B)%Z.
Proof.
  intros HA HB Hsum.
  pose proof (count_range A HA) as RA. pose proof (count_range B HB) as RB.
  destruct (Z.eq_dec (n A) 0) as [a0 | a1].
  - exists B. split; [now apply count_zero_l | lia].
  - destruct (Z.eq_dec (n B) 0) as [b0 | b1].
    + exists A. split; [now apply count_zero_r | lia].
    + exists (plus A B). split; [now apply count_plus |].
      rewrite count_n_plus. apply uint64_small. unfold two_pow_64 in *. lia.
Qed.

End MergeCount.

(** X11. For every variant, merging two partial states of one width whose
    row counts sum to less than 2^64 succeeds and gives a state whose
    [numRows] is the sum of the two row counts, also when one or both of
    them have no rows; so [numRows] never decreases under merge. *)
Theorem merge_adds_row_counts :
  forall w : Z,
    (forall A B : CG.t,
       cg_partial w A -> cg_partial w B ->
       (CG.numRows A + CG.numRows B < two_pow_64)%Z ->
       exists r, logregr_cg_step_merge_states A B = Some r /\
                 CG.numRows r = (CG.numRows A + CG.numRows B)%Z) /\
    (forall A B : IRLS.t,
       irls_partial w A -> irls_partial w B ->
       (IRLS.numRows A + IRLS.numRows B < two_pow_64)%Z ->
       exists r, logregr_irls_step_merge_states A B = Some r /\
                 IRLS.numRows r = (IRLS.numRows A + IRLS.numRows B)%Z) /\
    (forall A B : IGD.t,
       igd_partial w A -> igd_partial w B ->
       (IGD.numRows A + IGD.numRows B < two_pow_64)%Z ->
       exists r, logregr_igd_step_merge_states A B = Some r /\
                 IGD.numRows r = (IGD.numRows A + IGD.numRows B)%Z) /\
    (forall A B : Robust.t,
       robust_partial w A -> robust_partial w B ->
       (Robust.numRows A + Robust.numRows B < two_pow_64)%Z ->
       exists r, robust_logregr_step_merge_states A B = Some r /\
                 Robust.numRows r = (Robust.numRows A + Robust.numRows B)%Z) /\
    (forall A B : Marginal.t,
       marginal_partial w A -> marginal_partial w B ->
       (Marginal.numRows A + Marginal.numRows B < two_pow_64)%Z ->
       exists r, marginal_logregr_step_merge_states A B = Some r /\
                 Marginal.numRows r
                 = (Marginal.numRows A + Marginal.numRows B)%Z).
Proof.
  intros w. split; [| split; [| split; [| split]]].
  - apply (merge_adds_counts CG.t CG.numRows CG.plus).
    + intros a b H. unfold logregr_cg_step_merge_states. now rewrite H.
    + intros a b Ha Hb. unfold logregr_cg_step_merge_states.
      apply Z.eqb_neq in Ha. now rewrite Ha, Hb.
    + intros a b (Hwa & Ha & _) (Hwb & Hb & _) Hna Hnb.
      unfold logregr_cg_step_merge_states.
      apply Z.eqb_neq in Hna, Hnb. rewrite Hna, Hnb.
      apply cg_add_assign_wf; auto. congruence.
    + intros a (_ & _ & H). exact H.
    + reflexivity.
  - apply (merge_adds_counts IRLS.t IRLS.numRows IRLS.plus).
    + intros a b H. unfold logregr_irls_step_merge_states. now rewrite H.
    + intros a b Ha Hb. unfold logregr_irls_step_merge_states.
      apply Z.eqb_neq in Ha. now rewrite Ha, Hb.
    + intros a b (Hwa & Ha & _) (Hwb & Hb & _) Hna Hnb.
      unfold logregr_irls_step_merge_states.
      apply Z.eqb_neq in Hna, Hnb. rewrite Hna, Hnb.
      apply irls_add_assign_wf; auto. congruence.
    + intros a (_ & _ & H). exact H.
    + reflexivity.
  - apply (merge_adds_counts IGD.t IGD.numRows IGD.plus).
    + intros a b H. unfold logregr_igd_step_merge_states. now rewrite H.
    + intros a b Ha Hb. unfold logregr_igd_step_merge_states.
      apply Z.eqb_neq in Ha. now rewrite Ha, Hb.
    + intros a b (Hwa & Ha & _) (Hwb & Hb & _) Hna Hnb.
      unfold logregr_igd_step_merge_states.
      apply Z.eqb_neq in Hna, Hnb. rewrite Hna, Hnb.
      apply igd_add_assign_wf; auto. congruence.
    + intros a (_ & _ & H). exact H.
    + reflexivity.
  - apply (merge_adds_counts Robust.t Robust.numRows Robust.plus).
    + intros a b H. unfold robust_logregr_step_merge_states. now rewrite H.
    + intros a b Ha Hb. unfold robust_logregr_step_merge_states.
      apply Z.eqb_neq in Ha. now rewrite Ha, Hb.
    + intros a b (Hwa & Ha & _) (Hwb & Hb & _) Hna Hnb.
      unfold robust_logregr_step_merge_states.
      apply Z.eqb_neq in Hna, Hnb. rewrite Hna, Hnb.
      apply robust_add_assign_wf; auto. congruence.
    + intros a (_ & _ & H). exact H.
    + reflexivity.
  - apply (merge_adds_counts Marginal.t Marginal.numRows Marginal.plus).
    + intros a b H. unfold marginal_logregr_step_merge_states. now rewrite H.
    + intros a b Ha Hb. unfold marginal_logregr_step_merge_states.
      apply Z.eqb_neq in Ha. now rewrite Ha, Hb.
    + intros a b (Hwa & Ha & _) (Hwb & Hb & _) Hna Hnb.
      unfold marginal_logregr_step_merge_states.
      apply Z.eqb_neq in Hna, Hnb. rewrite Hna, Hnb.
      apply marginal_add_assign_wf; auto. congruence.
    + intros a (_ & _ & H). exact H.
    + reflexivity.
Qed.

Lemma merge_adds_row_counts_witness :
  exists r, logregr_igd_step_merge_states igd_part1 igd_part2 = Some r /\
            IGD.numRows r = 4%Z.
Proof.
  assert (Hok : forall s, In s [igd_part1; igd_part2] -> igd_partial 2 s).
  { intros s [<- | [<- | []]];
      (split; [repeat constructor |]); split; try reflexivity;
      cbn; unfold two_pow_64; lia. }
  apply (proj1 (proj2 (proj2 (merge_adds_row_counts 2)))
           igd_part1 igd_part2).
  - apply Hok. cbn. auto.
  - apply Hok. cbn. auto.
  - cbn. unfold two_pow_64. lia.
Defined.

(** ** The array layouts *)

(** X12. For every width from 0 to 32767 the fields [rebind] binds lie one
    after the other from slot 0, without gap or overlap; for the CG, IRLS,
    IGD and marginal states they fill the [arraySize] slots exactly, for
    the robust state they leave the last slot unused.  No [arraySize]
    exceeds the range of [int]. *)
Theorem rebind_tiles_the_array :
  forall w : Z,
    (0 <= w <= 32767)%Z ->
    tiles (CGLayout.rebind w) 0 (CGLayout.arraySize w) /\
    tiles (IRLSLayout.rebind w) 0 (IRLSLayout.arraySize w) /\
    tiles (IGDLayout.rebind w) 0 (IGDLayout.arraySize w) /\
    tiles (RobustLayout.rebind w) 0 (RobustLayout.arraySize w - 1) /\
    tiles (MarginalLayout.rebind w) 0 (MarginalLayout.arraySize w) /\
    (CGLayout.arraySize w <= int_max)%Z /\
    (IRLSLayout.arraySize w <= int_max)%Z /\
    (IGDLayout.arraySize w <= int_max)%Z /\
    (RobustLayout.arraySize w <= int_max)%Z /\
    (MarginalLayout.arraySize w <= int_max)%Z.
Proof.
  intros w Hw.
  assert (Hsq : (0 <= w * w <= 1073676289)%Z) by nia.
  assert (E1 : uint32 (4 + w * w + 2 * w) = (4 + w * w + 2 * w)%Z)
    by (unfold uint32; apply Z.mod_small; lia).
  assert (E2 : uint32 (5 + w * w + w) = (5 + w * w + w)%Z)
    by (unfold uint32; apply Z.mod_small; lia).
  unfold CGLayout.arraySize, IRLSLayout.arraySize, IGDLayout.arraySize,
    RobustLayout.arraySize, MarginalLayout.arraySize, int_max.
  rewrite E1, E2.
  repeat split; cbn [tiles CGLayout.rebind IRLSLayout.rebind IGDLayout.rebind
                       RobustLayout.rebind MarginalLayout.rebind];
    repeat split; lia.
Qed.

Lemma rebind_tiles_the_array_witness :
  tiles (CGLayout.rebind 2) 0 18 /\ tiles (RobustLayout.rebind 2) 0 13.
Proof.
  destruct (rebind_tiles_the_array 2 ltac:(lia))
    as (Hcg & _ & _ & Hrob & _).
  split; [exact Hcg | exact Hrob].
Defined.


(** ** The result tuples *)

(** X13. The three functions that build a result tuple return the
    coefficients they were given, unchanged.  Given a diagonal without
    negative entries, with one entry per coefficient, and a row count that
    is not zero, they relate their entries coefficient by coefficient: the
    standard error is the non-negative root of the diagonal entry, the odds
    ratio is [exp] of the coefficient, the marginal effect times the row
    count is the coefficient times the accumulated density, and the robust
    and the marginal tuple carry the same standard error.  Where the
    diagonal entry is positive, the Wald statistic times the standard error
    gives the coefficient back, the p-value is
    [2 * normal_cdf (- |coef| / stdErr)], the robust tuple has the same
    statistic and p-value, and the t statistic times the standard error is
    the marginal effect. *)
Theorem result_tuples_are_per_coefficient :
  forall (normal_cdf : R -> R) (students_t_cdf_complement : R -> R -> R)
         (inCoef diag : ColumnVector) (logLikelihood conditionNo : R)
         (status : Z) (me numRows : R),
    length diag = length inCoef ->
    Forall (fun d => 0 <= d) diag ->
    numRows <> 0 ->
    let r := stateToResult normal_cdf inCoef diag logLikelihood conditionNo
               status in
    let rr := robuststateToResult normal_cdf inCoef diag in
    let mr := marginalstateToResult students_t_cdf_complement inCoef diag me
                numRows in
    (res_coef r = inCoef /\ rob_coef rr = inCoef /\ mar_coef mr = inCoef) /\
    forall i : nat,
      (i < length inCoef)%nat ->
      let c := nth i inCoef 0 in
      let s := nth i (res_stdErr r) 0 in
      (0 <= s /\ s * s = nth i diag 0 /\
       nth i (res_oddsRatios r) 0 = exp c /\
       nth i (rob_stdErr rr) 0 = s /\
       nth i (mar_stdErr mr) 0 = s /\
       nth i (mar_marginal_effects mr) 0 * numRows = c * me) /\
      (0 < nth i diag 0 ->
       0 < s /\
       nth i (res_waldZStats r) 0 * s = c /\
       nth i (res_waldPValues r) 0 = 2 * normal_cdf (- (Rabs c / s)) /\
       nth i (rob_waldZStats rr) 0 = nth i (res_waldZStats r) 0 /\
       nth i (rob_waldPValues rr) 0 = nth i (res_waldPValues r) 0 /\
       nth i (mar_tStats mr) 0 * s = nth i (mar_marginal_effects mr) 0).
Proof.
  intros cdf tcdf inCoef diag L c st me n Hlen Hdiag Hn r rr mr.
  unfold r, rr, mr, stateToResult, robuststateToResult, marginalstateToResult.
  cbn [res_coef res_stdErr res_waldZStats res_waldPValues res_oddsRatios
       rob_coef rob_stdErr rob_waldZStats rob_waldPValues
       mar_coef mar_marginal_effects mar_stdErr mar_tStats].
  rewrite copy_loop. split; [repeat split |].
  intros i Hi. cbn zeta.
  rewrite !(nth_map_seq _ _ i Hi).
  assert (Hd : 0 <= nth i diag 0).
  { rewrite Forall_forall in Hdiag. apply Hdiag, nth_In. now rewrite Hlen. }
  split.
  - refine (conj (sqrt_pos _) (conj (sqrt_sqrt _ Hd) _)).
    repeat split. field. exact Hn.
  - intros Hpos.
    assert (Hs : 0 < sqrt (nth i diag 0)) by now apply sqrt_lt_R0.
    assert (Habs : Rabs (nth i inCoef 0 / sqrt (nth i diag 0))
                   = Rabs (nth i inCoef 0) / sqrt (nth i diag 0)).
    { unfold Rdiv. rewrite Rabs_mult, Rabs_inv.
      now rewrite (Rabs_pos_eq (sqrt (nth i diag 0))) by lra. }
    rewrite Habs.
    repeat split; try exact Hs; field; lra.
Qed.

Lemma result_tuples_are_per_coefficient_witness :
  nth 0 (res_waldZStats (stateToResult (fun _ => 0) [3; 1] [4; 1] 0 1 0)) 0
  * nth 0 (res_stdErr (stateToResult (fun _ => 0) [3; 1] [4; 1] 0 1 0)) 0
  = 3.
Proof.
  refine (proj1 (proj2 (proj2 (proj2
            (result_tuples_are_per_coefficient (fun _ => 0) (fun _ _ => 0)
               [3; 1] [4; 1] 0 1 0 1 2 eq_refl _ _) 0%nat _) _))).
  - repeat constructor; lra.
  - lra.
  - cbn. lia.
  - cbn. lra.
Defined.

Lemma nth_map_opp (i : nat) (l : list R) :
  nth i (map Ropp l) 0 = - nth i l 0.
Proof.
  revert i. induction l as [| a l IH]; intros [| i]; cbn;
    try (symmetry; apply Ropp_0); auto.
Qed.

(** X14. Negating every coefficient leaves the standard errors and the
    p-values of [stateToResult] as they are, negates the Wald statistics and
    inverts the odds ratios. *)
Theorem stateToResult_of_negated_coefficients :
  forall (normal_cdf : R -> R) (inCoef diag : ColumnVector)
         (logLikelihood conditionNo : R) (status : Z),
    let r := stateToResult normal_cdf inCoef diag logLikelihood conditionNo
               status in
    let r' := stateToResult normal_cdf (map Ropp inCoef) diag logLikelihood
                conditionNo status in
    res_stdErr r' = res_stdErr r /\
    res_waldZStats r' = map Ropp (res_waldZStats r) /\
    res_waldPValues r' = res_waldPValues r /\
    res_oddsRatios r' = map Rinv (res_oddsRatios r).
Proof.
  intros cdf inCoef diag L c st r r'.
  unfold r, r', stateToResult.
  cbn [res_stdErr res_waldZStats res_waldPValues res_oddsRatios].
  rewrite !length_map.
  set (idx := seq 0 (length inCoef)).
  set (stdErr := map (fun i => sqrt (nth i diag 0)) idx).
  assert (Hz : map (fun i => nth i (map Ropp inCoef) 0 / nth i stdErr 0) idx
               = map Ropp (map (fun i => nth i inCoef 0 / nth i stdErr 0) idx)).
  { rewrite map_map. apply map_ext. intros i. rewrite nth_map_opp.
    unfold Rdiv. ring. }
  split; [reflexivity |]. split; [exact Hz |]. split.
  - rewrite Hz. apply map_ext. intros i.
    now rewrite nth_map_opp, Rabs_Ropp.
  - rewrite map_map. apply map_ext. intros i.
    now rewrite nth_map_opp, exp_Ropp.
Qed.

(** ** The IRLS final and result functions together *)

(** X15. What the IRLS final function stores in [X_transp_Az] and at
    [X_transp_AX(0,0)] is what the IRLS result function reports: for a
    state with rows and a non-empty matrix, the result of the final state
    is the tuple [stateToResult] builds from the new coefficients
    [pseudoInverse(X^T A X) * X^T A z], the diagonal of that pseudo-inverse,
    the log-likelihood, the condition number of [X^T A X] and the status. *)
Theorem irls_result_of_final_state :
  forall (pseudoInverse : Matrix -> Matrix) (conditionNo : Matrix -> R)
         (normal_cdf : R -> R) (state : IRLS.t)
         (e : R) (row : list R) (rows : Matrix),
    IRLS.numRows state <> 0%Z ->
    IRLS.X_transp_AX state = (e :: row) :: rows ->
    exists state' : IRLS.t,
      logregr_irls_step_final pseudoInverse conditionNo state = Value state' /\
      IRLS.numRows state' = IRLS.numRows state /\
      internal_logregr_irls_result normal_cdf state'
      = Value
          (stateToResult normal_cdf
             (map (fun r => dot r (IRLS.X_transp_Az state))
                  (pseudoInverse (IRLS.X_transp_AX state)))
             (diagonal (pseudoInverse (IRLS.X_transp_AX state)))
             (IRLS.logLikelihood state)
             (conditionNo (IRLS.X_transp_AX state))
             (IRLS.status state)).
Proof.
  intros pinv cond cdf state e row rows Hn HX.
  unfold logregr_irls_step_final.
  destruct (IRLS.numRows state =? 0)%Z eqn:E0;
    [apply Z.eqb_eq in E0; contradiction |].
  eexists. split; [reflexivity |]. split; [reflexivity |].
  unfold internal_logregr_irls_result. cbn [IRLS.coef IRLS.X_transp_Az
    IRLS.X_transp_AX IRLS.logLikelihood IRLS.status].
  rewrite HX. reflexivity.
Qed.

Lemma irls_result_of_final_state_witness :
  exists state' : IRLS.t,
    logregr_irls_step_final pinv_entrywise (fun _ => 1) irls_two_rows
    = Value state' /\
    IRLS.numRows state' = 2%Z.
Proof.
  destruct (irls_result_of_final_state pinv_entrywise (fun _ => 1)
              (fun _ => 0) irls_two_rows (1 / 2) [] [])
    as (s & Hs & Hn & _).
  - cbn. discriminate.
  - reflexivity.
  - exists s. split; [exact Hs | exact Hn].
Defined.


(** ** The quadratic form of the accumulated matrix *)

Lemma dot_comm (u v : ColumnVector) : dot u v = dot v u.
Proof.
  revert v. induction u as [| a u IH]; intros [| b v]; cbn; auto.
  rewrite IH. ring.
Qed.

Lemma dot_vadd_l (a b v : ColumnVector) :
  length a = length b -> dot (vadd a b) v = dot a v + dot b v.
Proof.
  revert b v. induction a as [| x a IH]; intros [| y b] [| z v] H;
    cbn in *; try discriminate; try ring.
  rewrite IH by congruence. ring.
Qed.

Lemma dot_vadd_r (v a b : ColumnVector) :
  length a = length b -> dot v (vadd a b) = dot v a + dot v b.
Proof.
  intros H. rewrite !(dot_comm v). now apply dot_vadd_l.
Qed.

Lemma dot_map_scale_r (v x : ColumnVector) (c : R) :
  dot v (map (fun e => e * c) x) = dot v x * c.
Proof.
  revert x. induction v as [| a v IH]; intros [| b x]; cbn; try ring.
  rewrite IH. ring.
Qed.

Lemma dot_zero_r (v : ColumnVector) (n : nat) : dot v (repeat 0 n) = 0.
Proof.
  revert n. induction v as [| a v IH]; intros [| n]; cbn; auto.
  rewrite IH. ring.
Qed.

Lemma nth_vadd (j : nat) (r s : list R) :
  length r = length s -> nth j (vadd r s) 0 = nth j r 0 + nth j s 0.
Proof.
  revert j s. induction r as [| a r IH]; intros [| j] [| b s] H;
    cbn in *; try discriminate; try ring.
  apply IH. congruence.
Qed.

Lemma col_madd (j w : nat) (M N : Matrix) :
  Forall (fun row => length row = w) M ->
  Forall (fun row => length row = w) N ->
  col j (madd M N) = vadd (col j M) (col j N).
Proof.
  intros HM. revert N.
  induction HM as [| r M Hr _ IH]; intros N HN; [reflexivity |].
  destruct HN as [| s N Hs HN]; [reflexivity |].
  cbn. rewrite nth_vadd by congruence. f_equal. now apply IH.
Qed.

Lemma madd_square (w : nat) (M N : Matrix) :
  square w M -> square w N -> square w (madd M N).
Proof.
  intros [HM1 HM2] [HN1 HN2].
  split; [now apply madd_length | now apply madd_rows].
Qed.

Lemma zipWith_same {A B C D : Type} (f : B -> C -> D) (g : A -> B)
  (h : A -> C) (l : list A) :
  zipWith f (map g l) (map h l) = map (fun x => f (g x) (h x)) l.
Proof.
  induction l as [| a l IH]; cbn; [reflexivity | now rewrite IH].
Qed.

Lemma vecmat_length (v : ColumnVector) (M : Matrix) :
  length (vecmat v M) = ncols M.
Proof. unfold vecmat. now rewrite length_map, length_seq. Qed.

Lemma vecmat_madd (w : nat) (v : ColumnVector) (M N : Matrix) :
  square w M -> square w N ->
  vecmat v (madd M N) = vadd (vecmat v M) (vecmat v N).
Proof.
  intros HM HN. unfold vecmat.
  rewrite (ncols_square w _ (madd_square w M N HM HN)),
    (ncols_square w M HM), (ncols_square w N HN).
  unfold vadd. rewrite zipWith_same. apply map_ext. intros j.
  destruct HM as [HM1 HM2]. destruct HN as [HN1 HN2].
  rewrite (col_madd j w) by assumption.
  apply dot_vadd_r. rewrite !col_length. congruence.
Qed.

Lemma quadratic_form_madd (w : nat) (v : ColumnVector) (M N : Matrix) :
  square w M -> square w N ->
  quadratic_form v (madd M N) = quadratic_form v M + quadratic_form v N.
Proof.
  intros HM HN. unfold quadratic_form.
  rewrite (vecmat_madd w) by assumption.
  apply dot_vadd_l.
  now rewrite !vecmat_length, (ncols_square w M), (ncols_square w N).
Qed.

Lemma nth_outer_row (j : nat) (a k : R) (x : ColumnVector) :
  nth j (map (fun e => e * k) (map (fun b => a * b) x)) 0
  = a * (nth j x 0 * k).
Proof.
  revert j. induction x as [| b x IH]; intros [| j]; cbn; try ring.
  apply IH.
Qed.

Lemma outer_square (x : ColumnVector) (k : R) :
  square (length x) (mscale (outer x x) k).
Proof.
  split.
  - now rewrite mscale_length, outer_length.
  - apply mscale_rows, outer_rows.
Qed.

Lemma vecmat_outer (v x : ColumnVector) (k : R) :
  vecmat v (mscale (outer x x) k) = map (fun e => dot v x * (e * k)) x.
Proof.
  unfold vecmat. rewrite (ncols_square (length x) _ (outer_square x k)).
  rewrite <- (map_nth_seq (fun e => dot v x * (e * k)) 0 x).
  apply map_ext. intros j.
  unfold col, mscale, outer. rewrite !map_map.
  rewrite (map_ext _ (fun a => a * (nth j x 0 * k)))
    by (intros a; apply nth_outer_row).
  apply dot_map_scale_r.
Qed.

Lemma quadratic_form_outer (v x : ColumnVector) (k : R) :
  quadratic_form v (mscale (outer x x) k) = k * (dot x v * dot x v).
Proof.
  unfold quadratic_form. rewrite vecmat_outer.
  rewrite (dot_comm _ v).
  rewrite (map_ext _ (fun e => e * (dot v x * k))) by (intros e; ring).
  rewrite dot_map_scale_r, (dot_comm v x). ring.
Qed.

Lemma quadratic_form_mzero (v : ColumnVector) (w : nat) :
  quadratic_form v (mzero w) = 0.
Proof.
  unfold quadratic_form, vecmat.
  rewrite (map_ext _ (fun _ => 0)).
  - rewrite (dot_comm _ v).
    generalize (seq 0 (ncols (mzero w))). intros l. revert l.
    induction v as [| a v IH]; intros [| j l]; cbn; auto.
    rewrite IH. ring.
  - intros j. unfold col, mzero, vzero. rewrite (dot_comm v).
    generalize w at 2. intros m. revert v.
    induction m as [| m IH]; intros [| a v]; cbn; auto.
    rewrite IH.
    replace (nth j (repeat 0 w) 0) with 0; [ring |].
    clear. revert j. induction w as [| w IH]; intros [| j]; cbn; auto.
Qed.


Lemma rank_one_update_psd (w : nat) (M : Matrix) (x : ColumnVector) (xc : R) :
  square w M -> length x = w ->
  (forall v, 0 <= quadratic_form v M) ->
  forall v,
    0 <= quadratic_form v
           (madd M (mscale (outer x x) (sigma xc * sigma (- xc)))).
Proof.
  intros HM Hx Hpsd v.
  rewrite (quadratic_form_madd w) by (subst w; auto using outer_square).
  rewrite quadratic_form_outer.
  pose proof (weight_range xc) as Ha.
  pose proof (Hpsd v). pose proof (Rle_0_sqr (dot x v)) as Hsq.
  unfold Rsqr in Hsq. nra.
Qed.

Lemma cg_row_state_psd (w : Z) (state : CG.t) (x : ColumnVector)
  (previous : option CG.t) :
  (0 <= w <= layout_width_max)%Z -> Z.of_nat (length x) = w ->
  cg_previous_ok w previous ->
  (CG.numRows state <> 0%Z ->
   forall v, 0 <= quadratic_form v (CG.X_transp_AX state)) ->
  forall v,
    0 <= quadratic_form v (CG.X_transp_AX (cg_row_state state x previous)).
Proof.
  intros Hw Hx Hprev Hstate v. unfold cg_row_state, layout_width_max in *.
  destruct (CG.numRows state =? 0)%Z eqn:E0.
  - rewrite Hx, uint16_small by lia.
    destruct previous as [p |].
    + destruct Hprev as [(_ & _ & _ & _ & HX & Hr) Hpw].
      unfold CG.assign, CG.reset. cbn.
      rewrite (fill_is_mzero _ _ HX Hr), quadratic_form_mzero. lra.
    + unfold CG.initialize. cbn. rewrite quadratic_form_mzero. lra.
  - apply Z.eqb_neq in E0. now apply Hstate.
Qed.

Lemma cg_transition_psd (w : Z) (state : CG.t) (y : bool) (x : ColumnVector)
  (previous : option CG.t) :
  (0 <= w <= layout_width_max)%Z -> Z.of_nat (length x) = w ->
  cg_previous_ok w previous ->
  (CG.numRows state <> 0%Z -> CG.wf state /\ CG.widthOfX state = w) ->
  (CG.numRows state <> 0%Z ->
   forall v, 0 <= quadratic_form v (CG.X_transp_AX state)) ->
  forall v,
    0 <= quadratic_form v
           (CG.X_transp_AX (logregr_cg_step_transition state y x previous)).
Proof.
  intros Hw Hx Hprev Hstate Hpsd.
  destruct (cg_row_state_wf w state x previous Hw Hx Hprev Hstate)
    as ((_ & _ & _ & _ & HX & Hrows) & Hwidth & _).
  rewrite Hwidth in HX, Hrows.
  assert (Hacc : row_accepted (CG.numRows state) x) by (right; lia).
  rewrite (cg_transition_of_row_state state y x previous Hacc).
  cbn [CG.X_transp_AX].
  apply (rank_one_update_psd (Z.to_nat w)).
  - split; assumption.
  - rewrite <- Hx. now rewrite Nat2Z.id.
  - now apply (cg_row_state_psd w).
Qed.

Lemma cg_aggregate_psd_running (w : Z) (previous : option CG.t)
  (rows : list (bool * ColumnVector)) :
  (0 <= w <= layout_width_max)%Z -> cg_previous_ok w previous ->
  rows_of_width w rows ->
  forall state : CG.t,
    CG.wf state -> CG.widthOfX state = w ->
    (1 <= CG.numRows state)%Z ->
    (CG.numRows state + Z.of_nat (length rows) < two_pow_64)%Z ->
    (forall v, 0 <= quadratic_form v (CG.X_transp_AX state)) ->
    forall v,
      0 <= quadratic_form v
             (CG.X_transp_AX (cg_aggregate previous rows state)).
Proof.
  intros Hw Hprev Hrows.
  induction Hrows as [| row rows Hrow _ IH];
    intros state Hwf Hwidth Hn Hsum Hpsd; [exact Hpsd |].
  cbn [length] in Hsum. rewrite Nat2Z.inj_succ in Hsum.
  unfold two_pow_64 in Hsum.
  change (cg_aggregate previous (row :: rows) state)
    with (cg_aggregate previous rows
            (logregr_cg_step_transition state (fst row) (snd row) previous)).
  destruct (cg_transition_step w state (fst row) (snd row) previous
              Hw Hrow Hprev) as (Hwf1 & Hw1 & Hn1 & _); [auto |].
  rewrite uint64_small in Hn1 by lia.
  apply IH; auto.
  - lia.
  - unfold two_pow_64. lia.
  - apply (cg_transition_psd w); auto.
Qed.

(** X16. The matrix [X_transp_AX] the CG transition accumulates over the
    rows of a partition (all of one width [w <= 32767], starting from a
    state without rows) is positive semi-definite: [v^T (X^T A X) v >= 0] for
    every vector [v].  So the denominator [dir^T (X^T A X) dir] of the step
    length in the final function is never negative. *)
Theorem cg_accumulated_matrix_is_psd :
  forall (w : Z) (previous : option CG.t) (state : CG.t)
         (row : bool * ColumnVector) (rows : list (bool * ColumnVector)),
    (0 <= w <= layout_width_max)%Z ->
    cg_previous_ok w previous ->
    rows_of_width w (row :: rows) ->
    CG.numRows state = 0%Z ->
    (Z.of_nat (length (row :: rows)) < two_pow_64)%Z ->
    forall v : ColumnVector,
      0 <= quadratic_form v
             (CG.X_transp_AX (cg_aggregate previous (row :: rows) state)).
Proof.
  intros w previous state row rows Hw Hprev Hrows H0 Hlen.
  apply Forall_cons_iff in Hrows. destruct Hrows as [Hrow Hrows].
  cbn [length] in Hlen. rewrite Nat2Z.inj_succ in Hlen.
  unfold two_pow_64 in Hlen.
  change (cg_aggregate previous (row :: rows) state)
    with (cg_aggregate previous rows
            (logregr_cg_step_transition state (fst row) (snd row) previous)).
  destruct (cg_transition_step w state (fst row) (snd row) previous
              Hw Hrow Hprev) as (Hwf1 & Hw1 & Hn1 & _); [intros H; lia |].
  rewrite H0 in Hn1. cbn in Hn1.
  apply (cg_aggregate_psd_running w); auto.
  - lia.
  - unfold two_pow_64. lia.
  - apply (cg_transition_psd w); auto; intros H; lia.
Qed.

Lemma cg_accumulated_matrix_is_psd_witness :
  0 <= quadratic_form [1; - (1)]
         (CG.X_transp_AX (cg_aggregate None three_rows cg_initial)).
Proof.
  apply (cg_accumulated_matrix_is_psd 2 None cg_initial
           (true, [1; 2]) [(false, [0; 1]); (true, [3; 1])]).
  - unfold layout_width_max. lia.
  - exact I.
  - repeat constructor.
  - reflexivity.
  - cbn. unfold two_pow_64. lia.
Defined.


Lemma irls_row_state_psd (w : Z) (state : IRLS.t) (x : ColumnVector)
  (previous : option IRLS.t) :
  (0 <= w <= layout_width_max)%Z -> Z.of_nat (length x) = w ->
  irls_previous_ok w previous ->
  (IRLS.numRows state <> 0%Z ->
   forall v, 0 <= quadratic_form v (IRLS.X_transp_AX state)) ->
  forall v,
    0 <= quadratic_form v (IRLS.X_transp_AX (irls_row_state state x previous)).
Proof.
  intros Hw Hx Hprev Hstate v. unfold irls_row_state, layout_width_max in *.
  destruct (IRLS.numRows state =? 0)%Z eqn:E0.
  - rewrite Hx, uint16_small by lia.
    destruct previous as [p |].
    + destruct Hprev as [(_ & _ & HX & Hr) Hpw].
      unfold IRLS.assign, IRLS.reset. cbn.
      rewrite (fill_is_mzero _ _ HX Hr), quadratic_form_mzero. lra.
    + unfold IRLS.initialize. cbn. rewrite quadratic_form_mzero. lra.
  - apply Z.eqb_neq in E0. now apply Hstate.
Qed.

Lemma irls_transition_psd (w : Z) (state : IRLS.t) (y : bool) (x : ColumnVector)
  (previous : option IRLS.t) :
  (0 <= w <= layout_width_max)%Z -> Z.of_nat (length x) = w ->
  irls_previous_ok w previous ->
  (IRLS.numRows state <> 0%Z -> IRLS.wf state /\ IRLS.widthOfX state = w) ->
  (IRLS.numRows state <> 0%Z ->
   forall v, 0 <= quadratic_form v (IRLS.X_transp_AX state)) ->
  forall v,
    0 <= quadratic_form v
           (IRLS.X_transp_AX (logregr_irls_step_transition state y x previous)).
Proof.
  intros Hw Hx Hprev Hstate Hpsd.
  destruct (irls_row_state_wf w state x previous Hw Hx Hprev Hstate)
    as ((_ & _ & HX & Hrows) & Hwidth & _).
  rewrite Hwidth in HX, Hrows.
  assert (Hacc : row_accepted (IRLS.numRows state) x) by (right; lia).
  rewrite (irls_transition_of_row_state state y x previous Hacc).
  cbn [IRLS.X_transp_AX].
  apply (rank_one_update_psd (Z.to_nat w)).
  - split; assumption.
  - rewrite <- Hx. now rewrite Nat2Z.id.
  - now apply (irls_row_state_psd w).
Qed.

Lemma irls_aggregate_psd_running (w : Z) (previous : option IRLS.t)
  (rows : list (bool * ColumnVector)) :
  (0 <= w <= layout_width_max)%Z -> irls_previous_ok w previous ->
  rows_of_width w rows ->
  forall state : IRLS.t,
    IRLS.wf state -> IRLS.widthOfX state = w ->
    (1 <= IRLS.numRows state)%Z ->
    (IRLS.numRows state + Z.of_nat (length rows) < two_pow_64)%Z ->
    (forall v, 0 <= quadratic_form v (IRLS.X_transp_AX state)) ->
    forall v,
      0 <= quadratic_form v
             (IRLS.X_transp_AX (irls_aggregate previous rows state)).
Proof.
  intros Hw Hprev Hrows.
  induction Hrows as [| row rows Hrow _ IH];
    intros state Hwf Hwidth Hn Hsum Hpsd; [exact Hpsd |].
  cbn [length] in Hsum. rewrite Nat2Z.inj_succ in Hsum.
  unfold two_pow_64 in Hsum.
  change (irls_aggregate previous (row :: rows) state)
    with (irls_aggregate previous rows
            (logregr_irls_step_transition state (fst row) (snd row) previous)).
  destruct (irls_transition_step w state (fst row) (snd row) previous
              Hw Hrow Hprev) as (Hwf1 & Hw1 & Hn1 & _); [auto |].
  rewrite uint64_small in Hn1 by lia.
  apply IH; auto.
  - lia.
  - unfold two_pow_64. lia.
  - apply (irls_transition_psd w); auto.
Qed.

(** X17. The matrix [X_transp_AX] the IRLS transition accumulates over the
    rows of a partition (all of one width [w <= 32767], starting from a
    state without rows) is positive semi-definite: [v^T (X^T A X) v >= 0] for
    every vector [v].  This is the matrix the final function hands to the
    decomposition for symmetric positive definite matrices. *)
Theorem irls_accumulated_matrix_is_psd :
  forall (w : Z) (previous : option IRLS.t) (state : IRLS.t)
         (row : bool * ColumnVector) (rows : list (bool * ColumnVector)),
    (0 <= w <= layout_width_max)%Z ->
    irls_previous_ok w previous ->
    rows_of_width w (row :: rows) ->
    IRLS.numRows state = 0%Z ->
    (Z.of_nat (length (row :: rows)) < two_pow_64)%Z ->
    forall v : ColumnVector,
      0 <= quadratic_form v
             (IRLS.X_transp_AX (irls_aggregate previous (row :: rows) state)).
Proof.
  intros w previous state row rows Hw Hprev Hrows H0 Hlen.
  apply Forall_cons_iff in Hrows. destruct Hrows as [Hrow Hrows].
  cbn [length] in Hlen. rewrite Nat2Z.inj_succ in Hlen.
  unfold two_pow_64 in Hlen.
  change (irls_aggregate previous (row :: rows) state)
    with (irls_aggregate previous rows
            (logregr_irls_step_transition state (fst row) (snd row) previous)).
  destruct (irls_transition_step w state (fst row) (snd row) previous
              Hw Hrow Hprev) as (Hwf1 & Hw1 & Hn1 & _); [intros H; lia |].
  rewrite H0 in Hn1. cbn in Hn1.
  apply (irls_aggregate_psd_running w); auto.
  - lia.
  - unfold two_pow_64. lia.
  - apply (irls_transition_psd w); auto; intros H; lia.
Qed.

Lemma irls_accumulated_matrix_is_psd_witness :
  0 <= quadratic_form [1; - (1)]
         (IRLS.X_transp_AX (irls_aggregate None three_rows (IRLS.initialize 0))).
Proof.
  apply (irls_accumulated_matrix_is_psd 2 None (IRLS.initialize 0)
           (true, [1; 2]) [(false, [0; 1]); (true, [3; 1])]).
  - unfold layout_width_max. lia.
  - exact I.
  - repeat constructor.
  - reflexivity.
  - cbn. unfold two_pow_64. lia.
Defined.


(** ** The CG final step and the next iteration *)

Lemma vsub_length (u v : ColumnVector) (w : nat) :
  length u = w -> length v = w -> length (vsub u v) = w.
Proof.
  intros Hu Hv. unfold vsub. rewrite zipWith_length, Hu, Hv.
  apply Nat.min_id.
Qed.

(** X18. The CG final function keeps the shape of the state: applied to a
    state with rows that is shaped for width [w] it returns a state shaped
    for width [w], fit to be the previous state of the next iteration, with
    [numRows], [gradNew], [X_transp_AX], [logLikelihood] and [status] as
    they were. *)
Theorem cg_final_keeps_the_shape :
  forall (w : Z) (state : CG.t),
    CG.wf state -> CG.widthOfX state = w -> CG.numRows state <> 0%Z ->
    exists state' : CG.t,
      logregr_cg_step_final state = Value state' /\
      cg_previous_ok w (Some state') /\
      CG.numRows state' = CG.numRows state /\
      CG.gradNew state' = CG.gradNew state /\
      CG.X_transp_AX state' = CG.X_transp_AX state /\
      CG.logLikelihood state' = CG.logLikelihood state /\
      CG.status state' = CG.status state.
Proof.
  intros w state (Hc & Hd & Hg & Hn & HX & Hrows) Hw H0.
  unfold logregr_cg_step_final.
  destruct (CG.numRows state =? 0)%Z eqn:E0;
    [apply Z.eqb_eq in E0; contradiction |].
  assert (Hdir : forall k, length (vsub (CG.gradNew state)
                                        (vscale k (CG.dir state)))
                           = Z.to_nat (CG.widthOfX state)).
  { intros k. apply vsub_length; [exact Hn |].
    unfold vscale. now rewrite length_map. }
  destruct (CG.iteration state =? 0)%Z.
  all: eexists; split; [reflexivity |].
  all: unfold cg_previous_ok, CG.wf.
  all: cbn [CG.iteration CG.widthOfX CG.coef CG.dir CG.grad CG.beta
            CG.numRows CG.gradNew CG.X_transp_AX CG.logLikelihood CG.status].
  all: repeat split; auto.
  all: try apply Hdir.
  all: apply vadd_length; [exact Hc |]; unfold vscale; rewrite length_map;
         solve [assumption | apply Hdir].
Qed.

Lemma cg_final_keeps_the_shape_witness :
  exists state' : CG.t,
    logregr_cg_step_final cg_previous_a = Value state' /\
    cg_previous_ok 2 (Some state').
Proof.
  destruct (cg_final_keeps_the_shape 2 cg_previous_a) as (s & Hs & Hok & _).
  - unfold CG.wf. cbn. repeat split; repeat constructor.
  - reflexivity.
  - cbn. discriminate.
  - exists s. split; [exact Hs | exact Hok].
Defined.

(** ** The IGD merge is an average *)

Lemma nth_vscale (i : nat) (k : R) (u : ColumnVector) :
  nth i (vscale k u) 0 = k * nth i u 0.
Proof.
  revert i. induction u as [| a u IH]; intros [| i]; cbn; try ring.
  apply IH.
Qed.

(** X19. Merging two IGD states with rows never moves a coefficient out of
    the range of the two it averages: every entry of the merged coefficient
    vector lies between the corresponding entries of the two vectors. *)
Theorem igd_merged_coefficient_is_between :
  forall A B : IGD.t,
    IGD.size A = IGD.size B -> IGD.widthOfX A = IGD.widthOfX B ->
    length (IGD.coef A) = length (IGD.coef B) ->
    (0 < IGD.numRows A)%Z -> (0 < IGD.numRows B)%Z ->
    exists M : IGD.t,
      logregr_igd_step_merge_states A B = Some M /\
      forall i : nat,
        Rmin (nth i (IGD.coef A) 0) (nth i (IGD.coef B) 0)
        <= nth i (IGD.coef M) 0
        <= Rmax (nth i (IGD.coef A) 0) (nth i (IGD.coef B) 0).
Proof.
  intros A B Hsize Hw Hlen HnA HnB.
  unfold logregr_igd_step_merge_states.
  destruct (IGD.numRows A =? 0)%Z eqn:EzA; [apply Z.eqb_eq in EzA; lia |].
  destruct (IGD.numRows B =? 0)%Z eqn:EzB; [apply Z.eqb_eq in EzB; lia |].
  unfold IGD.add_assign. rewrite Hsize, Hw, !Z.eqb_refl. cbn [negb orb].
  eexists. split; [reflexivity |]. intros i. cbn [IGD.plus IGD.coef].
  rewrite nth_vadd by (unfold vscale; now rewrite !length_map).
  rewrite !nth_vscale.
  assert (Hp : 0 < IZR (IGD.numRows A)) by now apply (IZR_lt 0).
  assert (Hq : 0 < IZR (IGD.numRows B)) by now apply (IZR_lt 0).
  set (p := IZR (IGD.numRows A)) in *. set (q := IZR (IGD.numRows B)) in *.
  set (a := nth i (IGD.coef A) 0). set (b := nth i (IGD.coef B) 0).
  assert (E : p / (p + q) * a + q / (p + q) * b
              = a + q / (p + q) * (b - a)) by (field; lra).
  assert (Ht : 0 < q / (p + q) < 1).
  { split.
    - apply Rdiv_lt_0_compat; lra.
    - apply (Rmult_lt_reg_r (p + q)); [lra |].
      unfold Rdiv. rewrite Rmult_assoc, Rinv_l by lra. lra. }
  rewrite E. set (t := q / (p + q)) in *.
  unfold Rmin, Rmax. destruct (Rle_dec a b) as [Hab | Hab]; split; nra.
Qed.

Lemma igd_merged_coefficient_is_between_witness :
  exists M : IGD.t,
    logregr_igd_step_merge_states igd_part1 igd_part2 = Some M /\
    Rmin 1 0 <= nth 0 (IGD.coef M) 0 <= Rmax 1 0.
Proof.
  destruct (igd_merged_coefficient_is_between igd_part1 igd_part2)
    as (M & HM & Hb); try reflexivity; try (cbn; lia).
  exists M. split; [exact HM | exact (Hb 0%nat)].
Defined.


(** ** The marginal-effects and robust-variance aggregates *)

Lemma marginal_transition_step (w : Z) (state : Marginal.t)
  (x coef : ColumnVector) :
  Z.of_nat (length x) = w ->
  Marginal.wf state -> Marginal.widthOfX state = w ->
  let s' := marginal_logregr_step_transition state x coef in
  Marginal.wf s' /\ Marginal.widthOfX s' = w /\
  Marginal.coef s' = Marginal.coef state /\
  Marginal.numRows s' = uint64 (Marginal.numRows state + 1) /\
  Marginal.X_bar s' = vadd (Marginal.X_bar state) x /\
  ((forall v, 0 <= quadratic_form v (Marginal.X_transp_AX state)) ->
   forall v, 0 <= quadratic_form v (Marginal.X_transp_AX s')).
Proof.
  intros Hx (Hc & Hb & HX & Hrows) Hw s'.
  assert (Hlen : length x = Z.to_nat (Marginal.widthOfX state))
    by (rewrite Hw, <- Hx; now rewrite Nat2Z.id).
  unfold s', marginal_logregr_step_transition, Marginal.wf.
  cbn [Marginal.iteration Marginal.widthOfX Marginal.coef Marginal.numRows
       Marginal.marginal_effects_per_observation Marginal.X_bar
       Marginal.X_transp_AX].
  repeat split; auto.
  - now apply vadd_length.
  - apply madd_length; [exact HX |]. now rewrite mscale_length, outer_length.
  - apply madd_rows; [exact Hrows |]. apply mscale_rows.
    rewrite <- Hlen. apply outer_rows.
  - intros Hpsd.
    apply (rank_one_update_psd (Z.to_nat (Marginal.widthOfX state)));
      [split |..]; assumption.
Qed.

(** X20. Folding the marginal-effects transition over rows of [w] features,
    from a state shaped for width [w] (row counts staying below 2^64), keeps
    the shape, adds the number of rows to [numRows], adds the rows to
    [X_bar], adds to [marginal_effects_per_observation] at most 1/4 per row
    and never less than nothing, and keeps [X_transp_AX] positive
    semi-definite if it was. *)
Theorem marginal_aggregate_invariants :
  forall (w : Z) (coef : ColumnVector) (rows : list (bool * ColumnVector))
         (state : Marginal.t),
    rows_of_width w rows ->
    Marginal.wf state -> Marginal.widthOfX state = w ->
    (0 <= Marginal.numRows state)%Z ->
    (Marginal.numRows state + Z.of_nat (length rows) < two_pow_64)%Z ->
    let s' := marginal_aggregate coef rows state in
    Marginal.wf s' /\ Marginal.widthOfX s' = w /\
    Marginal.numRows s'
    = (Marginal.numRows state + Z.of_nat (length rows))%Z /\
    Marginal.X_bar s' = fold_left vadd (map snd rows) (Marginal.X_bar state) /\
    Marginal.marginal_effects_per_observation state
    <= Marginal.marginal_effects_per_observation s'
    <= Marginal.marginal_effects_per_observation state
       + INR (length rows) / 4 /\
    ((forall v, 0 <= quadratic_form v (Marginal.X_transp_AX state)) ->
     forall v, 0 <= quadratic_form v (Marginal.X_transp_AX s')).
Proof.
  intros w coef rows state Hrows. revert state.
  induction Hrows as [| row rows Hrow _ IH]; intros state Hwf Hw Hn Hsum.
  - cbn. repeat split; auto; try lia; try lra. now destruct Hwf.
    all: destruct Hwf as (? & ? & ? & ?); auto.
  - cbn [length] in Hsum. rewrite Nat2Z.inj_succ in Hsum.
    unfold two_pow_64 in Hsum.
    change (marginal_aggregate coef (row :: rows) state)
      with (marginal_aggregate coef rows
              (marginal_logregr_step_transition state (snd row) coef)).
    destruct (marginal_transition_step w state (snd row) coef Hrow Hwf Hw)
      as (Hwf1 & Hw1 & Hc1 & Hn1 & Hb1 & Hpsd1).
    rewrite uint64_small in Hn1 by lia.
    pose proof (marginal_density_step state (snd row) coef) as Hm1.
    pose proof (weight_range (dot (snd row) coef)) as Ha.
    destruct (IH _ Hwf1 Hw1) as (Hwf2 & Hw2 & Hn2 & Hb2 & Hm2 & Hpsd2);
      [lia | unfold two_pow_64; lia |].
    refine (conj Hwf2 (conj Hw2 (conj _ (conj _ (conj _ _))))).
    + rewrite Hn2, Hn1. cbn [length]. lia.
    + rewrite Hb2, Hb1. reflexivity.
    + cbn [length]. rewrite S_INR. lra.
    + intros Hpsd. apply Hpsd2. now apply Hpsd1.
Qed.

Lemma marginal_aggregate_invariants_witness :
  Marginal.numRows (marginal_aggregate [1; 1] three_rows marginal_empty)
  = 3%Z.
Proof.
  destruct (marginal_aggregate_invariants 2 [1; 1] three_rows marginal_empty)
    as (_ & _ & Hn & _).
  - repeat constructor.
  - unfold Marginal.wf. cbn. repeat split; repeat constructor.
  - reflexivity.
  - cbn. lia.
  - cbn. unfold two_pow_64. lia.
  - exact Hn.
Defined.






(** ** The two matrices of the robust-variance aggregate *)

Lemma add_lower_row_length (r s : list R) :
  forall i, length (add_lower_row i r s) = length r.
Proof.
  revert s. induction r as [| a r IH]; intros [| b s] [| i]; cbn; auto.
Qed.

Lemma add_lower_from_length (M N : Matrix) :
  forall i, length (add_lower_from i M N) = length M.
Proof.
  revert N. induction M as [| r M IH]; intros [| s N] i; cbn; auto.
Qed.

Lemma add_lower_from_rows (w : nat) (M N : Matrix) :
  Forall (fun row => length row = w) M ->
  forall i, Forall (fun row => length row = w) (add_lower_from i M N).
Proof.
  intros HM. revert N.
  induction HM as [| r M Hr HM IH]; intros [| s N] i; cbn; auto.
  constructor; [now rewrite add_lower_row_length | apply IH].
Qed.

Lemma nth_add_lower_row (r s : list R) :
  forall i j, (i < j)%nat -> nth j (add_lower_row i r s) 0 = nth j r 0.
Proof.
  revert s. induction r as [| a r IH]; intros [| b s] [| i] [| j] Hij;
    cbn; auto; try lia.
  apply IH. lia.
Qed.

Lemma nth_add_lower_from (M N : Matrix) :
  forall i0 i j, (i0 + i < j)%nat ->
    nth j (nth i (add_lower_from i0 M N) []) 0 = nth j (nth i M []) 0.
Proof.
  revert N. induction M as [| r M IH]; intros [| s N] i0 [| i] j Hij;
    cbn [add_lower_from nth]; auto.
  - apply nth_add_lower_row. lia.
  - apply IH. lia.
Qed.

Lemma mscale_one (M : Matrix) : mscale M 1 = M.
Proof.
  unfold mscale. rewrite <- (map_id M) at 2. apply map_ext. intros row.
  rewrite <- (map_id row) at 2. apply map_ext. intros e. ring.
Qed.

Lemma gram_update_psd (w : nat) (M : Matrix) (g : ColumnVector) :
  square w M -> length g = w ->
  (forall v, 0 <= quadratic_form v M) ->
  forall v, 0 <= quadratic_form v (madd M (outer g g)).
Proof.
  intros HM Hg Hpsd v.
  rewrite <- (mscale_one (outer g g)).
  rewrite (quadratic_form_madd w) by (subst w; auto using outer_square).
  rewrite quadratic_form_outer.
  pose proof (Hpsd v). pose proof (Rle_0_sqr (dot g v)) as Hsq.
  unfold Rsqr in Hsq. lra.
Qed.

Lemma robust_transition_step (w : Z) (state : Robust.t) (y : bool)
  (x coef : ColumnVector) :
  Z.of_nat (length x) = w ->
  Robust.wf state -> Robust.widthOfX state = w ->
  let s' := robust_logregr_step_transition state y x coef in
  Robust.wf s' /\ Robust.widthOfX s' = w /\
  (forall i j, (i < j)%nat ->
     nth j (nth i (Robust.X_transp_AX s') []) 0
     = nth j (nth i (Robust.X_transp_AX state) []) 0) /\
  ((forall v, 0 <= quadratic_form v (Robust.meat state)) ->
   forall v, 0 <= quadratic_form v (Robust.meat s')).
Proof.
  intros Hx (Hc & HX & HXr & Hm & Hmr) Hw s'.
  assert (Hlen : length x = Z.to_nat (Robust.widthOfX state))
    by (rewrite Hw, <- Hx; now rewrite Nat2Z.id).
  unfold s', robust_logregr_step_transition, Robust.wf.
  cbn [Robust.iteration Robust.widthOfX Robust.coef Robust.numRows
       Robust.X_transp_AX Robust.meat].
  assert (Hg : forall k, length (vscale k x)
                         = Z.to_nat (Robust.widthOfX state))
    by (intros k; unfold vscale; now rewrite length_map).
  refine (conj (conj Hc (conj _ (conj _ (conj _ _)))) (conj Hw (conj _ _))).
  - unfold add_lower. now rewrite add_lower_from_length.
  - unfold add_lower. now apply add_lower_from_rows.
  - apply madd_length; [exact Hm |]. now rewrite outer_length.
  - apply madd_rows; [exact Hmr |].
    match goal with
    | |- Forall _ (outer ?g ?g) =>
        pose proof (outer_rows g g) as Ho; rewrite Hg in Ho; exact Ho
    end.
  - intros i j Hij. unfold add_lower. now apply nth_add_lower_from.
  - intros Hpsd.
    apply (gram_update_psd (Z.to_nat (Robust.widthOfX state)));
      [split | |]; auto.
Qed.

(** X22. Folding the robust-variance transition over rows of [w] features,
    from a state shaped for width [w], keeps the shape; it never writes an
    entry of [X_transp_AX] above the diagonal (only the lower triangular
    view is updated), and it keeps [meat], to which every row adds the
    outer product of its gradient with itself, positive semi-definite if it
    was. *)
Theorem robust_aggregate_matrices :
  forall (w : Z) (coef : ColumnVector) (rows : list (bool * ColumnVector))
         (state : Robust.t),
    rows_of_width w rows ->
    Robust.wf state -> Robust.widthOfX state = w ->
    let s' := robust_aggregate coef rows state in
    Robust.wf s' /\ Robust.widthOfX s' = w /\
    (forall i j, (i < j)%nat ->
       nth j (nth i (Robust.X_transp_AX s') []) 0
       = nth j (nth i (Robust.X_transp_AX state) []) 0) /\
    ((forall v, 0 <= quadratic_form v (Robust.meat state)) ->
     forall v, 0 <= quadratic_form v (Robust.meat s')).
Proof.
  intros w coef rows state Hrows. revert state.
  induction Hrows as [| row rows Hrow _ IH]; intros state Hwf Hw.
  - cbn. auto.
  - change (robust_aggregate coef (row :: rows) state)
      with (robust_aggregate coef rows
              (robust_logregr_step_transition state (fst row) (snd row) coef)).
    destruct (robust_transition_step w state (fst row) (snd row) coef
                Hrow Hwf Hw) as (Hwf1 & Hw1 & Hup1 & Hpsd1).
    destruct (IH _ Hwf1 Hw1) as (Hwf2 & Hw2 & Hup2 & Hpsd2).
    refine (conj Hwf2 (conj Hw2 (conj _ _))).
    + intros i j Hij. rewrite (Hup2 i j Hij). now apply Hup1.
    + intros Hpsd. apply Hpsd2. now apply Hpsd1.
Qed.

Lemma robust_aggregate_matrices_witness :
  nth 1 (nth 0 (Robust.X_transp_AX
                  (robust_aggregate [1; 1] three_rows robust_empty)) []) 0
  = 0.
Proof.
  destruct (robust_aggregate_matrices 2 [1; 1] three_rows robust_empty)
    as (_ & _ & Hup & _).
  - repeat constructor.
  - unfold Robust.wf. cbn. repeat split; repeat constructor.
  - reflexivity.
  - rewrite (Hup 0%nat 1%nat) by lia. reflexivity.
Defined.
